(** * DocSearcher: the buffered highlight engine of the viewer front end

    A shallow embedding of the front-end script (the generation with the
    buffered, on-demand highlight lifecycle and the duplicate-load guard) and
    the properties of its page cache, load tickets, highlight window and jump
    tokens.

    Conventions of the embedding.
    - Page numbers are integers ([Z]); the arithmetic of the window bounds
      is the source's ([Math.max], [Math.min], [+], [-]).
    - A JS string is a [string] whose characters are read as UTF-16 code
      units below 256; [\s], [trim] and [toLowerCase] are given on that range.
    - A JS [Set] is a duplicate-free list in insertion order, which is also
      its iteration order; a JS object used as a dictionary is a [gmap].
    - Token bounding boxes are rationals; the expressions computing a box are
      the source's, carried out exactly.
    - An [async] function runs up to its first [await] inside the call and
      returns a promise; what follows an [await] is a frame that the event
      loop resumes once the awaited promise is settled. *)

From Stdlib Require Import ZArith QArith Qminmax Qabs Ascii String List Lia.
From stdpp Require Import base decidable option list gmap strings pretty sorting.

Local Open Scope Z_scope.

(** ** Strings: [trim], [split(/[,\s;]+/)], [toLowerCase] *)

Module Words.

(** [\s] of a regular expression, and the characters [trim] strips, on code
    units below 256: TAB, LF, VT, FF, CR, SPACE and NO-BREAK SPACE. *)
Definition is_space (c : ascii) : bool :=
  let n := nat_of_ascii c in
  ((9 <=? n)%nat && (n <=? 13)%nat) || (n =? 32)%nat || (n =? 160)%nat.

(** The character class [[,\s;]]. *)
Definition is_sep (c : ascii) : bool :=
  is_space c || Ascii.eqb c "," || Ascii.eqb c ";".

(** [toLowerCase] on one code unit below 256: A-Z, and the Latin-1 capitals
    U+00C0-U+00DE except the multiplication sign U+00D7. *)
Definition lower_char (c : ascii) : ascii :=
  let n := nat_of_ascii c in
  if ((65 <=? n)%nat && (n <=? 90)%nat)
     || ((192 <=? n)%nat && (n <=? 222)%nat && negb (n =? 215)%nat)
  then ascii_of_nat (n + 32) else c.

Fixpoint toLowerCase (s : string) : string :=
  match s with
  | EmptyString => EmptyString
  | String c r => String (lower_char c) (toLowerCase r)
  end.

Fixpoint trimStart (s : string) : string :=
  match s with
  | EmptyString => EmptyString
  | String c r => if is_space c then trimStart r else s
  end.

(** Is the whole string white space? *)
Fixpoint all_space (s : string) : bool :=
  match s with
  | EmptyString => true
  | String c r => is_space c && all_space r
  end.

Fixpoint trimEnd (s : string) : string :=
  match s with
  | EmptyString => EmptyString
  | String c r => if all_space s then EmptyString else String c (trimEnd r)
  end.

Definition trim (s : string) : string := trimEnd (trimStart s).

(** [s.split(/[,\s;]+/)]: the scan of the split algorithm.  [frag] is the
    text since the end of the last match (from [p] to [q]); [in_sep] says that
    the previous character belonged to a match, which the greedy [+] extends
    over the whole run.  A match pushes the fragment before it; the end of the
    string pushes the last fragment.  The empty string gives [[""]], since the
    pattern does not match it. *)
Fixpoint split_scan (in_sep : bool) (frag : string) (s : string) : list string :=
  match s with
  | EmptyString => [frag]
  | String c r =>
      if is_sep c
      then if in_sep then split_scan true EmptyString r
           else frag :: split_scan true EmptyString r
      else split_scan false (frag +:+ String c EmptyString) r
  end.

Definition split_seps (s : string) : list string := split_scan false EmptyString s.

(** [Boolean(w)] of a string: false exactly for the empty string. *)
Definition truthy (w : string) : bool :=
  match w with EmptyString => false | _ => true end.

(** [a.indexOf(v)]: the first index holding [v], or -1. *)
Fixpoint indexOf (v : string) (a : list string) : Z :=
  match a with
  | [] => (-1)%Z
  | x :: r => if String.eqb x v then 0%Z
              else let i := indexOf v r in if (i <? 0)%Z then (-1)%Z else (i + 1)%Z
  end.

(** [a.filter((v,i,a) => f v i a)], the callback seeing the index. *)
Fixpoint filter_indexed {A} (f : A -> Z -> bool) (i : Z) (l : list A) : list A :=
  match l with
  | [] => []
  | x :: r => if f x i then x :: filter_indexed f (i + 1)%Z r
              else filter_indexed f (i + 1)%Z r
  end.

(** [parseWords(raw)]. *)
Definition parseWords (raw : string) : list string :=
  let a := map toLowerCase (List.filter truthy (split_seps (trim raw))) in
  filter_indexed (fun v i => (indexOf v a =? i)%Z) 0%Z a.

(** *** The reading of the specification

    The input is cut at every separator character, empty pieces are
    dropped, the words are lowercased and a word already seen is dropped. *)

Fixpoint pieces (s : string) : list string :=
  match s with
  | EmptyString => [EmptyString]
  | String c r =>
      if is_sep c then EmptyString :: pieces r
      else match pieces r with
           | f :: fs => String c f :: fs
           | [] => [String c EmptyString]
           end
  end.

Fixpoint keep_first (seen : list string) (l : list string) : list string :=
  match l with
  | [] => []
  | x :: r => if existsb (String.eqb x) seen then keep_first seen r
              else x :: keep_first (x :: seen) r
  end.

Definition spec_parseWords (raw : string) : list string :=
  keep_first [] (map toLowerCase (List.filter truthy (pieces raw))).

End Words.

(** ** The data of the viewer *)

Module Engine.

(** The upload response kept in [currentDoc]. *)
Record Doc := { doc_id : string; pages : Z }.

(** One OCR token of a page: its text and [bbox = [x0,y0,x1,y1]]. *)
Record Token := { tok_text : string; bbox : Q * Q * Q * Q }.

(** The body of [GET /api/doc/{id}/page/{n}]. *)
Record PageData := { image_url : string; data_text : string; data_tokens : list Token }.

(** One entry of the search results: [{page, counts}]. *)
Record SearchResult := { page : Z; counts : gmap string Z }.

(** A highlight box: the four percentages of its inline style. *)
Record Box := { box_left : Q; box_top : Q; box_width : Q; box_height : Q }.

(** An entry of [pageCache].  [overlay] is the page element whose overlay
    receives the boxes; [imageLoadedPromise] is a promise of the runtime. *)
Record PageRecord := {
  tokens : list Token;
  text : string;
  imageLoadedPromise : nat;
  overlay : nat
}.

(** *** Promises and suspended functions *)

(** What a promise is settled with.  A request settles with the decoded
    body, or with the [error] field of a response whose [ok] is false. *)
Inductive value :=
| VUndefined
| VPage (d : PageData)
| VResults (rs : list SearchResult)
| VDoc (d : Doc)
| VNotOk (error : option string).

(** An [Error] is kept as its message. *)
Inductive pstate :=
| Pending
| Fulfilled (v : value)
| Rejected (message : string).

(** The requests that leave the page; each comes with the promise that the
    environment settles. *)
Inductive request :=
| ReqPage (doc : string) (pageNum : Z)
| ReqImage (url : string) (pageEl : nat)
| ReqSearch (doc : string) (words : string)
| ReqUpload.

(** The rest of an [async] function after an [await] (or the callback of a
    [then]), with the variables it still uses and the promise [ret] that the
    function returned to its caller. *)
Inductive frame :=
| KSafeEnsure (pageNum : Z) (ret : nat)
| KFollow (ret : nat)
| KEnsureFinally (pageNum : Z) (ret : nat)
| KLoadFetched (pageNum : Z) (ret : nat)
| KLoadImage (pageNum : Z) (pageEl : nat) (ret : nat)
| KActivate (p : Z) (ret : nat)
| KThenHighlight (p : Z) (ret : nat)
| KAll (rest : list nat) (ret : nat)
| KPreload (ret : nat)
| KSelect (pageNum : Z) (preserveHighlights skipScroll : bool) (ret : nat)
| KClickLoaded (token : Z) (r : SearchResult) (idx : nat) (ret : nat)
| KClickPreloaded (token : Z) (r : SearchResult) (idx : nat) (ret : nat)
| KClickSelected (token : Z) (r : SearchResult) (ret : nat)
| KSearchResponse (ret : nat)
| KSearchFirst (firstPage : Z) (ret : nat)
| KSearchPreloaded (firstPage : Z) (ret : nat)
| KUploadResponse (ret : nat)
| KUploadRendered (ret : nat)
| KAutoRender (p toLoad total : Z) (ret : nat)
| KLoadAll (p : Z) (ret : nat).

(** *** The state: the script's variables, the document, the runtime *)

Record State := mkState {
  currentDoc : option Doc;
  currentWords : list string;
  searchResults : list SearchResult;
  currentSelectedPage : option Z;
  pageCache : gmap Z PageRecord;
  currentScale : Q;
  pageLoadPromises : gmap Z nat;
  matchPageSet : list Z;
  seamlessHighlightActive : bool;
  currentCenterPage : option Z;
  highlightedPages : list Z;
  scrollDirection : Z;
  programmaticScrollInProgress : bool;
  pageObserver : option (list nat);
  currentJumpToken : Z;
  pagesDiv : list (nat * Z);
  hlBoxes : gmap nat (list Box);
  nextEl : nat;
  statusMsg : string;
  pageText : string;
  resultRows : list SearchResult;
  activeRow : option nat;
  promises : gmap nat pstate;
  nextPid : nat;
  tasks : list (nat * frame);
  requests : list (request * nat);
  scrollLog : list Z;
  paintLog : list Z;
  timers : nat;
  disconnected : list (list nat)
}.

(** Assignment to one variable of the state. *)
Definition with_currentDoc (v : option Doc) (s : State) : State :=
  mkState v (currentWords s) (searchResults s) (currentSelectedPage s)
    (pageCache s) (currentScale s) (pageLoadPromises s) (matchPageSet s)
    (seamlessHighlightActive s) (currentCenterPage s) (highlightedPages s)
    (scrollDirection s) (programmaticScrollInProgress s) (pageObserver s)
    (currentJumpToken s) (pagesDiv s) (hlBoxes s) (nextEl s) (statusMsg s)
    (pageText s) (resultRows s) (activeRow s) (promises s) (nextPid s)
    (tasks s) (requests s) (scrollLog s) (paintLog s) (timers s)
    (disconnected s).
Definition with_currentWords (v : list string) (s : State) : State :=
  mkState (currentDoc s) v (searchResults s) (currentSelectedPage s)
    (pageCache s) (currentScale s) (pageLoadPromises s) (matchPageSet s)
    (seamlessHighlightActive s) (currentCenterPage s) (highlightedPages s)
    (scrollDirection s) (programmaticScrollInProgress s) (pageObserver s)
    (currentJumpToken s) (pagesDiv s) (hlBoxes s) (nextEl s) (statusMsg s)
    (pageText s) (resultRows s) (activeRow s) (promises s) (nextPid s)
    (tasks s) (requests s) (scrollLog s) (paintLog s) (timers s)
    (disconnected s).
Definition with_searchResults (v : list SearchResult) (s : State) : State :=
  mkState (currentDoc s) (currentWords s) v (currentSelectedPage s)
    (pageCache s) (currentScale s) (pageLoadPromises s) (matchPageSet s)
    (seamlessHighlightActive s) (currentCenterPage s) (highlightedPages s)
    (scrollDirection s) (programmaticScrollInProgress s) (pageObserver s)
    (currentJumpToken s) (pagesDiv s) (hlBoxes s) (nextEl s) (statusMsg s)
    (pageText s) (resultRows s) (activeRow s) (promises s) (nextPid s)
    (tasks s) (requests s) (scrollLog s) (paintLog s) (timers s)
    (disconnected s).
Definition with_currentSelectedPage (v : option Z) (s : State) : State :=
  mkState (currentDoc s) (currentWords s) (searchResults s) v (pageCache s)
    (currentScale s) (pageLoadPromises s) (matchPageSet s)
    (seamlessHighlightActive s) (currentCenterPage s) (highlightedPages s)
    (scrollDirection s) (programmaticScrollInProgress s) (pageObserver s)
    (currentJumpToken s) (pagesDiv s) (hlBoxes s) (nextEl s) (statusMsg s)
    (pageText s) (resultRows s) (activeRow s) (promises s) (nextPid s)
    (tasks s) (requests s) (scrollLog s) (paintLog s) (timers s)
    (disconnected s).
Definition with_pageCache (v : gmap Z PageRecord) (s : State) : State :=
  mkState (currentDoc s) (currentWords s) (searchResults s)
    (currentSelectedPage s) v (currentScale s) (pageLoadPromises s)
    (matchPageSet s) (seamlessHighlightActive s) (currentCenterPage s)
    (highlightedPages s) (scrollDirection s) (programmaticScrollInProgress
    s) (pageObserver s) (currentJumpToken s) (pagesDiv s) (hlBoxes s)
    (nextEl s) (statusMsg s) (pageText s) (resultRows s) (activeRow s)
    (promises s) (nextPid s) (tasks s) (requests s) (scrollLog s) (paintLog
    s) (timers s) (disconnected s).
Definition with_currentScale (v : Q) (s : State) : State :=
  mkState (currentDoc s) (currentWords s) (searchResults s)
    (currentSelectedPage s) (pageCache s) v (pageLoadPromises s)
    (matchPageSet s) (seamlessHighlightActive s) (currentCenterPage s)
    (highlightedPages s) (scrollDirection s) (programmaticScrollInProgress
    s) (pageObserver s) (currentJumpToken s) (pagesDiv s) (hlBoxes s)
    (nextEl s) (statusMsg s) (pageText s) (resultRows s) (activeRow s)
    (promises s) (nextPid s) (tasks s) (requests s) (scrollLog s) (paintLog
    s) (timers s) (disconnected s).
Definition with_pageLoadPromises (v : gmap Z nat) (s : State) : State :=
  mkState (currentDoc s) (currentWords s) (searchResults s)
    (currentSelectedPage s) (pageCache s) (currentScale s) v (matchPageSet
    s) (seamlessHighlightActive s) (currentCenterPage s) (highlightedPages
    s) (scrollDirection s) (programmaticScrollInProgress s) (pageObserver s)
    (currentJumpToken s) (pagesDiv s) (hlBoxes s) (nextEl s) (statusMsg s)
    (pageText s) (resultRows s) (activeRow s) (promises s) (nextPid s)
    (tasks s) (requests s) (scrollLog s) (paintLog s) (timers s)
    (disconnected s).
Definition with_matchPageSet (v : list Z) (s : State) : State :=
  mkState (currentDoc s) (currentWords s) (searchResults s)
    (currentSelectedPage s) (pageCache s) (currentScale s) (pageLoadPromises
    s) v (seamlessHighlightActive s) (currentCenterPage s) (highlightedPages
    s) (scrollDirection s) (programmaticScrollInProgress s) (pageObserver s)
    (currentJumpToken s) (pagesDiv s) (hlBoxes s) (nextEl s) (statusMsg s)
    (pageText s) (resultRows s) (activeRow s) (promises s) (nextPid s)
    (tasks s) (requests s) (scrollLog s) (paintLog s) (timers s)
    (disconnected s).
Definition with_seamlessHighlightActive (v : bool) (s : State) : State :=
  mkState (currentDoc s) (currentWords s) (searchResults s)
    (currentSelectedPage s) (pageCache s) (currentScale s) (pageLoadPromises
    s) (matchPageSet s) v (currentCenterPage s) (highlightedPages s)
    (scrollDirection s) (programmaticScrollInProgress s) (pageObserver s)
    (currentJumpToken s) (pagesDiv s) (hlBoxes s) (nextEl s) (statusMsg s)
    (pageText s) (resultRows s) (activeRow s) (promises s) (nextPid s)
    (tasks s) (requests s) (scrollLog s) (paintLog s) (timers s)
    (disconnected s).
Definition with_currentCenterPage (v : option Z) (s : State) : State :=
  mkState (currentDoc s) (currentWords s) (searchResults s)
    (currentSelectedPage s) (pageCache s) (currentScale s) (pageLoadPromises
    s) (matchPageSet s) (seamlessHighlightActive s) v (highlightedPages s)
    (scrollDirection s) (programmaticScrollInProgress s) (pageObserver s)
    (currentJumpToken s) (pagesDiv s) (hlBoxes s) (nextEl s) (statusMsg s)
    (pageText s) (resultRows s) (activeRow s) (promises s) (nextPid s)
    (tasks s) (requests s) (scrollLog s) (paintLog s) (timers s)
    (disconnected s).
Definition with_highlightedPages (v : list Z) (s : State) : State :=
  mkState (currentDoc s) (currentWords s) (searchResults s)
    (currentSelectedPage s) (pageCache s) (currentScale s) (pageLoadPromises
    s) (matchPageSet s) (seamlessHighlightActive s) (currentCenterPage s) v
    (scrollDirection s) (programmaticScrollInProgress s) (pageObserver s)
    (currentJumpToken s) (pagesDiv s) (hlBoxes s) (nextEl s) (statusMsg s)
    (pageText s) (resultRows s) (activeRow s) (promises s) (nextPid s)
    (tasks s) (requests s) (scrollLog s) (paintLog s) (timers s)
    (disconnected s).
Definition with_scrollDirection (v : Z) (s : State) : State :=
  mkState (currentDoc s) (currentWords s) (searchResults s)
    (currentSelectedPage s) (pageCache s) (currentScale s) (pageLoadPromises
    s) (matchPageSet s) (seamlessHighlightActive s) (currentCenterPage s)
    (highlightedPages s) v (programmaticScrollInProgress s) (pageObserver s)
    (currentJumpToken s) (pagesDiv s) (hlBoxes s) (nextEl s) (statusMsg s)
    (pageText s) (resultRows s) (activeRow s) (promises s) (nextPid s)
    (tasks s) (requests s) (scrollLog s) (paintLog s) (timers s)
    (disconnected s).
Definition with_programmaticScrollInProgress (v : bool) (s : State) : State :=
  mkState (currentDoc s) (currentWords s) (searchResults s)
    (currentSelectedPage s) (pageCache s) (currentScale s) (pageLoadPromises
    s) (matchPageSet s) (seamlessHighlightActive s) (currentCenterPage s)
    (highlightedPages s) (scrollDirection s) v (pageObserver s)
    (currentJumpToken s) (pagesDiv s) (hlBoxes s) (nextEl s) (statusMsg s)
    (pageText s) (resultRows s) (activeRow s) (promises s) (nextPid s)
    (tasks s) (requests s) (scrollLog s) (paintLog s) (timers s)
    (disconnected s).
Definition with_pageObserver (v : option (list nat)) (s : State) : State :=
  mkState (currentDoc s) (currentWords s) (searchResults s)
    (currentSelectedPage s) (pageCache s) (currentScale s) (pageLoadPromises
    s) (matchPageSet s) (seamlessHighlightActive s) (currentCenterPage s)
    (highlightedPages s) (scrollDirection s) (programmaticScrollInProgress
    s) v (currentJumpToken s) (pagesDiv s) (hlBoxes s) (nextEl s) (statusMsg
    s) (pageText s) (resultRows s) (activeRow s) (promises s) (nextPid s)
    (tasks s) (requests s) (scrollLog s) (paintLog s) (timers s)
    (disconnected s).
Definition with_currentJumpToken (v : Z) (s : State) : State :=
  mkState (currentDoc s) (currentWords s) (searchResults s)
    (currentSelectedPage s) (pageCache s) (currentScale s) (pageLoadPromises
    s) (matchPageSet s) (seamlessHighlightActive s) (currentCenterPage s)
    (highlightedPages s) (scrollDirection s) (programmaticScrollInProgress
    s) (pageObserver s) v (pagesDiv s) (hlBoxes s) (nextEl s) (statusMsg s)
    (pageText s) (resultRows s) (activeRow s) (promises s) (nextPid s)
    (tasks s) (requests s) (scrollLog s) (paintLog s) (timers s)
    (disconnected s).
Definition with_pagesDiv (v : list (nat * Z)) (s : State) : State :=
  mkState (currentDoc s) (currentWords s) (searchResults s)
    (currentSelectedPage s) (pageCache s) (currentScale s) (pageLoadPromises
    s) (matchPageSet s) (seamlessHighlightActive s) (currentCenterPage s)
    (highlightedPages s) (scrollDirection s) (programmaticScrollInProgress
    s) (pageObserver s) (currentJumpToken s) v (hlBoxes s) (nextEl s)
    (statusMsg s) (pageText s) (resultRows s) (activeRow s) (promises s)
    (nextPid s) (tasks s) (requests s) (scrollLog s) (paintLog s) (timers s)
    (disconnected s).
Definition with_hlBoxes (v : gmap nat (list Box)) (s : State) : State :=
  mkState (currentDoc s) (currentWords s) (searchResults s)
    (currentSelectedPage s) (pageCache s) (currentScale s) (pageLoadPromises
    s) (matchPageSet s) (seamlessHighlightActive s) (currentCenterPage s)
    (highlightedPages s) (scrollDirection s) (programmaticScrollInProgress
    s) (pageObserver s) (currentJumpToken s) (pagesDiv s) v (nextEl s)
    (statusMsg s) (pageText s) (resultRows s) (activeRow s) (promises s)
    (nextPid s) (tasks s) (requests s) (scrollLog s) (paintLog s) (timers s)
    (disconnected s).
Definition with_nextEl (v : nat) (s : State) : State :=
  mkState (currentDoc s) (currentWords s) (searchResults s)
    (currentSelectedPage s) (pageCache s) (currentScale s) (pageLoadPromises
    s) (matchPageSet s) (seamlessHighlightActive s) (currentCenterPage s)
    (highlightedPages s) (scrollDirection s) (programmaticScrollInProgress
    s) (pageObserver s) (currentJumpToken s) (pagesDiv s) (hlBoxes s) v
    (statusMsg s) (pageText s) (resultRows s) (activeRow s) (promises s)
    (nextPid s) (tasks s) (requests s) (scrollLog s) (paintLog s) (timers s)
    (disconnected s).
Definition with_statusMsg (v : string) (s : State) : State :=
  mkState (currentDoc s) (currentWords s) (searchResults s)
    (currentSelectedPage s) (pageCache s) (currentScale s) (pageLoadPromises
    s) (matchPageSet s) (seamlessHighlightActive s) (currentCenterPage s)
    (highlightedPages s) (scrollDirection s) (programmaticScrollInProgress
    s) (pageObserver s) (currentJumpToken s) (pagesDiv s) (hlBoxes s)
    (nextEl s) v (pageText s) (resultRows s) (activeRow s) (promises s)
    (nextPid s) (tasks s) (requests s) (scrollLog s) (paintLog s) (timers s)
    (disconnected s).
Definition with_pageText (v : string) (s : State) : State :=
  mkState (currentDoc s) (currentWords s) (searchResults s)
    (currentSelectedPage s) (pageCache s) (currentScale s) (pageLoadPromises
    s) (matchPageSet s) (seamlessHighlightActive s) (currentCenterPage s)
    (highlightedPages s) (scrollDirection s) (programmaticScrollInProgress
    s) (pageObserver s) (currentJumpToken s) (pagesDiv s) (hlBoxes s)
    (nextEl s) (statusMsg s) v (resultRows s) (activeRow s) (promises s)
    (nextPid s) (tasks s) (requests s) (scrollLog s) (paintLog s) (timers s)
    (disconnected s).
Definition with_resultRows (v : list SearchResult) (s : State) : State :=
  mkState (currentDoc s) (currentWords s) (searchResults s)
    (currentSelectedPage s) (pageCache s) (currentScale s) (pageLoadPromises
    s) (matchPageSet s) (seamlessHighlightActive s) (currentCenterPage s)
    (highlightedPages s) (scrollDirection s) (programmaticScrollInProgress
    s) (pageObserver s) (currentJumpToken s) (pagesDiv s) (hlBoxes s)
    (nextEl s) (statusMsg s) (pageText s) v (activeRow s) (promises s)
    (nextPid s) (tasks s) (requests s) (scrollLog s) (paintLog s) (timers s)
    (disconnected s).
Definition with_activeRow (v : option nat) (s : State) : State :=
  mkState (currentDoc s) (currentWords s) (searchResults s)
    (currentSelectedPage s) (pageCache s) (currentScale s) (pageLoadPromises
    s) (matchPageSet s) (seamlessHighlightActive s) (currentCenterPage s)
    (highlightedPages s) (scrollDirection s) (programmaticScrollInProgress
    s) (pageObserver s) (currentJumpToken s) (pagesDiv s) (hlBoxes s)
    (nextEl s) (statusMsg s) (pageText s) (resultRows s) v (promises s)
    (nextPid s) (tasks s) (requests s) (scrollLog s) (paintLog s) (timers s)
    (disconnected s).
Definition with_promises (v : gmap nat pstate) (s : State) : State :=
  mkState (currentDoc s) (currentWords s) (searchResults s)
    (currentSelectedPage s) (pageCache s) (currentScale s) (pageLoadPromises
    s) (matchPageSet s) (seamlessHighlightActive s) (currentCenterPage s)
    (highlightedPages s) (scrollDirection s) (programmaticScrollInProgress
    s) (pageObserver s) (currentJumpToken s) (pagesDiv s) (hlBoxes s)
    (nextEl s) (statusMsg s) (pageText s) (resultRows s) (activeRow s) v
    (nextPid s) (tasks s) (requests s) (scrollLog s) (paintLog s) (timers s)
    (disconnected s).
Definition with_nextPid (v : nat) (s : State) : State :=
  mkState (currentDoc s) (currentWords s) (searchResults s)
    (currentSelectedPage s) (pageCache s) (currentScale s) (pageLoadPromises
    s) (matchPageSet s) (seamlessHighlightActive s) (currentCenterPage s)
    (highlightedPages s) (scrollDirection s) (programmaticScrollInProgress
    s) (pageObserver s) (currentJumpToken s) (pagesDiv s) (hlBoxes s)
    (nextEl s) (statusMsg s) (pageText s) (resultRows s) (activeRow s)
    (promises s) v (tasks s) (requests s) (scrollLog s) (paintLog s) (timers
    s) (disconnected s).
Definition with_tasks (v : list (nat * frame)) (s : State) : State :=
  mkState (currentDoc s) (currentWords s) (searchResults s)
    (currentSelectedPage s) (pageCache s) (currentScale s) (pageLoadPromises
    s) (matchPageSet s) (seamlessHighlightActive s) (currentCenterPage s)
    (highlightedPages s) (scrollDirection s) (programmaticScrollInProgress
    s) (pageObserver s) (currentJumpToken s) (pagesDiv s) (hlBoxes s)
    (nextEl s) (statusMsg s) (pageText s) (resultRows s) (activeRow s)
    (promises s) (nextPid s) v (requests s) (scrollLog s) (paintLog s)
    (timers s) (disconnected s).
Definition with_requests (v : list (request * nat)) (s : State) : State :=
  mkState (currentDoc s) (currentWords s) (searchResults s)
    (currentSelectedPage s) (pageCache s) (currentScale s) (pageLoadPromises
    s) (matchPageSet s) (seamlessHighlightActive s) (currentCenterPage s)
    (highlightedPages s) (scrollDirection s) (programmaticScrollInProgress
    s) (pageObserver s) (currentJumpToken s) (pagesDiv s) (hlBoxes s)
    (nextEl s) (statusMsg s) (pageText s) (resultRows s) (activeRow s)
    (promises s) (nextPid s) (tasks s) v (scrollLog s) (paintLog s) (timers
    s) (disconnected s).
Definition with_scrollLog (v : list Z) (s : State) : State :=
  mkState (currentDoc s) (currentWords s) (searchResults s)
    (currentSelectedPage s) (pageCache s) (currentScale s) (pageLoadPromises
    s) (matchPageSet s) (seamlessHighlightActive s) (currentCenterPage s)
    (highlightedPages s) (scrollDirection s) (programmaticScrollInProgress
    s) (pageObserver s) (currentJumpToken s) (pagesDiv s) (hlBoxes s)
    (nextEl s) (statusMsg s) (pageText s) (resultRows s) (activeRow s)
    (promises s) (nextPid s) (tasks s) (requests s) v (paintLog s) (timers
    s) (disconnected s).
Definition with_paintLog (v : list Z) (s : State) : State :=
  mkState (currentDoc s) (currentWords s) (searchResults s)
    (currentSelectedPage s) (pageCache s) (currentScale s) (pageLoadPromises
    s) (matchPageSet s) (seamlessHighlightActive s) (currentCenterPage s)
    (highlightedPages s) (scrollDirection s) (programmaticScrollInProgress
    s) (pageObserver s) (currentJumpToken s) (pagesDiv s) (hlBoxes s)
    (nextEl s) (statusMsg s) (pageText s) (resultRows s) (activeRow s)
    (promises s) (nextPid s) (tasks s) (requests s) (scrollLog s) v (timers
    s) (disconnected s).
Definition with_timers (v : nat) (s : State) : State :=
  mkState (currentDoc s) (currentWords s) (searchResults s)
    (currentSelectedPage s) (pageCache s) (currentScale s) (pageLoadPromises
    s) (matchPageSet s) (seamlessHighlightActive s) (currentCenterPage s)
    (highlightedPages s) (scrollDirection s) (programmaticScrollInProgress
    s) (pageObserver s) (currentJumpToken s) (pagesDiv s) (hlBoxes s)
    (nextEl s) (statusMsg s) (pageText s) (resultRows s) (activeRow s)
    (promises s) (nextPid s) (tasks s) (requests s) (scrollLog s) (paintLog
    s) v (disconnected s).
Definition with_disconnected (v : list (list nat)) (s : State) : State :=
  mkState (currentDoc s) (currentWords s) (searchResults s)
    (currentSelectedPage s) (pageCache s) (currentScale s) (pageLoadPromises
    s) (matchPageSet s) (seamlessHighlightActive s) (currentCenterPage s)
    (highlightedPages s) (scrollDirection s) (programmaticScrollInProgress
    s) (pageObserver s) (currentJumpToken s) (pagesDiv s) (hlBoxes s)
    (nextEl s) (statusMsg s) (pageText s) (resultRows s) (activeRow s)
    (promises s) (nextPid s) (tasks s) (requests s) (scrollLog s) (paintLog
    s) (timers s) v.

(** *** Constants of the script *)

Definition HIGHLIGHT_BUFFER_BEFORE : Z := 2.
Definition HIGHLIGHT_BUFFER_AFTER : Z := 2.
Definition PREFETCH_EXTRA_AHEAD : Z := 1.
Definition LARGE_DOC_THRESHOLD : Z := 80.
Definition AUTO_LOAD_PAGES_LARGE : Z := 10.

(** [let bufferedHighlightMode = true]; the script never assigns it. *)
Definition bufferedHighlightMode : bool := true.

(** The state in which the script starts. *)
Definition initial : State :=
  mkState None [] [] None ∅ 1%Q ∅ [] false None [] 0 false None 0
    [] ∅ 0%nat "Ready." "" [] None ∅ 0%nat [] [] [] [] 0%nat [].

(** *** Sets of page numbers ([Set]) *)

Definition set_has (x : Z) (l : list Z) : bool := bool_decide (x ∈ l).
Definition set_add (x : Z) (l : list Z) : list Z :=
  if set_has x l then l else l ++ [x].
Definition set_delete (x : Z) (l : list Z) : list Z := filter (λ y, y ≠ x) l.
(** [new Set(xs)] *)
Definition set_of (xs : list Z) : list Z := foldl (λ acc x, set_add x acc) [] xs.

(** [for (p = a; p <= b; p++)] and [for (p = a; p >= b; p--)]. *)
Definition range_up (a b : Z) : list Z := seqZ a (b - a + 1).
Definition range_down (a b : Z) : list Z := (λ i, a - i) <$> seqZ 0 (a - b + 1).

(** *** Promises *)

Definition newPromise (st : pstate) (s : State) : nat * State :=
  let q := nextPid s in
  (q, with_nextPid (S q) (with_promises (<[q := st]> (promises s)) s)).

Definition settle (q : nat) (st : pstate) (s : State) : State :=
  with_promises (<[q := st]> (promises s)) s.

(** [await q] followed by [k]: the function is parked until [q] is settled. *)
Definition await (q : nat) (k : frame) (s : State) : State :=
  with_tasks (tasks s ++ [(q, k)]) s.

(** A request goes out ([fetch], or the [src] of an image). *)
Definition send (r : request) (s : State) : nat * State :=
  let '(q, s) := newPromise Pending s in
  (q, with_requests (requests s ++ [(r, q)]) s).

(** [x || dflt] for an optional string. *)
Definition or_default (x : option string) (dflt : string) : string :=
  match x with
  | Some m => if Words.truthy m then m else dflt
  | None => dflt
  end.

(** *** The document *)

Definition setStatus (msg : string) (s : State) : State := with_statusMsg msg s.

(** [document.querySelector(`.page[data-page="${pageNum}"]`)]: the first page
    element of the document carrying that number. *)
Definition queryPage (pageNum : Z) (s : State) : option nat :=
  fst <$> List.find (λ e, e.2 =? pageNum) (pagesDiv s).

Definition boxesOf (el : nat) (s : State) : list Box := default [] (hlBoxes s !! el).

(** [scrollLog] keeps the calls of [scrollIntoView], [paintLog] the pages
    whose overlay [highlightPageMatches] wrote to. *)
Definition scrollPageIntoView (pageNum : Z) (s : State) : State :=
  match queryPage pageNum s with
  | Some _ => with_scrollLog (scrollLog s ++ [pageNum]) s
  | None => s
  end.

(** [insertPageInOrder(pageEl)], on the children of [pagesDiv]. *)
Fixpoint insertBeforeGreater (pageEl : nat * Z) (existing : list (nat * Z)) : list (nat * Z) :=
  match existing with
  | [] => [pageEl]
  | el :: rest =>
      if pageEl.2 <? el.2 then pageEl :: el :: rest
      else el :: insertBeforeGreater pageEl rest
  end.

Definition insertPageInOrder (pageEl : nat * Z) (s : State) : State :=
  match pagesDiv s with
  | [] => with_pagesDiv [pageEl] s
  | existing => with_pagesDiv (insertBeforeGreater pageEl existing) s
  end.

(** [dedupePageDom(pageNum)]: of several elements for one page number all
    but the last are removed. *)
Definition dedupePageDom (pageNum : Z) (s : State) : State :=
  let nodes := filter (λ e, e.2 = pageNum) (pagesDiv s) in
  if (length nodes <=? 1)%nat then s
  else
    let removed := fst <$> take (length nodes - 1) nodes in
    with_pagesDiv (filter (λ e, e.1 ∉ removed) (pagesDiv s)) s.

(** *** Highlighting *)

Definition clearAllHighlights (s : State) : State :=
  with_hlBoxes (foldl (λ m e, <[e.1 := []]> m) (hlBoxes s) (pagesDiv s)) s.

Definition clearHighlightsOnPage (pageNum : Z) (s : State) : State :=
  match queryPage pageNum s with
  | None => s
  | Some pageEl => with_hlBoxes (<[pageEl := []]> (hlBoxes s)) s
  end.

(** The box made for one token. *)
Definition boxOf (tok : Token) : Box :=
  let '(x0, y0, x1, y1) := bbox tok in
  {| box_left := x0 * 100; box_top := y0 * 100;
     box_width := (x1 - x0) * 100; box_height := (y1 - y0) * 100 |}%Q.

(** Is the lowercased text of the token one of the words? *)
Definition isTarget (targets : list string) (tok : Token) : Prop :=
  Words.toLowerCase (tok_text tok) ∈ targets.

Global Instance isTarget_dec targets tok : Decision (isTarget targets tok).
Proof. unfold isTarget. apply _. Defined.

Definition highlightPageMatches (pageNum : Z) (append : bool) (s : State) : State :=
  match pageCache s !! pageNum with
  | None => s
  | Some cache =>
      match currentWords s with
      | [] => s
      | targets =>
          let s := if append then s else clearHighlightsOnPage pageNum s in
          let frag := boxOf <$> filter (isTarget targets) (tokens cache) in
          let s := with_paintLog (paintLog s ++ [pageNum]) s in
          with_hlBoxes (<[overlay cache := boxesOf (overlay cache) s ++ frag]> (hlBoxes s)) s
      end
  end.

Definition addHighlighted (p : Z) (s : State) : State :=
  with_highlightedPages (set_add p (highlightedPages s)) s.

(** *** Loading a page *)

(** The body of the ticket up to its first [await]. *)
Definition loadPage (pageNum : Z) (s : State) : nat * State :=
  match currentDoc s with
  | None => newPromise (Fulfilled VUndefined) s
  | Some d =>
      let '(q, s) := send (ReqPage (doc_id d) pageNum) s in
      let '(ret, s) := newPromise Pending s in
      (ret, await q (KLoadFetched pageNum ret) s)
  end.

Definition ensurePageLoaded (pageNum : Z) (s : State) : nat * State :=
  match pageCache s !! pageNum with
  | Some _ => newPromise (Fulfilled VUndefined) s
  | None =>
      match pageLoadPromises s !! pageNum with
      | Some ticket =>
          let '(ret, s) := newPromise Pending s in
          (ret, await ticket (KFollow ret) s)
      | None =>
          let '(ticket, s) := loadPage pageNum s in
          let s := with_pageLoadPromises (<[pageNum := ticket]> (pageLoadPromises s)) s in
          let '(ret, s) := newPromise Pending s in
          (ret, await ticket (KEnsureFinally pageNum ret) s)
      end
  end.

Definition safeEnsurePage (pageNum : Z) (s : State) : nat * State :=
  let '(q, s) := ensurePageLoaded pageNum s in
  let '(ret, s) := newPromise Pending s in
  (ret, await q (KSafeEnsure pageNum ret) s).

(** [Promise.all(qs)] for a non-empty [qs]: fulfilled when all are, rejected
    with the first rejection met. *)
Definition promiseAll (qs : list nat) (s : State) : nat * State :=
  match qs with
  | [] => newPromise (Fulfilled VUndefined) s
  | q :: rest =>
      let '(ret, s) := newPromise Pending s in
      (ret, await q (KAll rest ret) s)
  end.

Definition preloadJumpWindow (centerPage : Z) (s : State) : nat * State :=
  match currentDoc s with
  | None => newPromise (Rejected "TypeError: currentDoc is null") s
  | Some d =>
      let start := Z.max 1 (centerPage - HIGHLIGHT_BUFFER_BEFORE) in
      let end_ := Z.min (pages d) (centerPage + HIGHLIGHT_BUFFER_AFTER) in
      let '(loads, s) :=
        foldl (λ '(loads, s) p,
                 match pageCache s !! p with
                 | Some _ => (loads, s)
                 | None => let '(q, s) := safeEnsurePage p s in (loads ++ [q], s)
                 end)
              ([], s) (range_up start end_) in
      match loads with
      | [] => newPromise (Fulfilled VUndefined) s
      | _ =>
          let '(q, s) := promiseAll loads s in
          let '(ret, s) := newPromise Pending s in
          (ret, await q (KPreload ret) s)
      end
  end.

(** *** The highlight window *)

Definition activatePage (p : Z) (s : State) : nat * State :=
  if negb (set_has p (matchPageSet s)) then newPromise (Fulfilled VUndefined) s
  else
    let '(q, s) := safeEnsurePage p s in
    let '(ret, s) := newPromise Pending s in
    (ret, await q (KActivate p ret) s).

(** One turn of the loop over the window. *)
Definition windowStep (s : State) (p : Z) : State :=
  if set_has p (matchPageSet s) && negb (set_has p (highlightedPages s)) then
    match pageCache s !! p with
    | Some _ => addHighlighted p (highlightPageMatches p false s)
    | None => (activatePage p s).2
    end
  else if bool_decide (pageCache s !! p = None) && set_has p (matchPageSet s) then
    let '(q, s) := safeEnsurePage p s in
    let '(ret, s) := newPromise Pending s in
    await q (KThenHighlight p ret) s
  else s.

(** One turn of the loop over the pages kept highlighted. *)
Definition evictStep (start end_ : Z) (s : State) (p : Z) : State :=
  if (p <? start) || (end_ <? p) then
    with_highlightedPages (set_delete p (highlightedPages s))
      (clearHighlightsOnPage p s)
  else s.

Definition prefetchStep (s : State) (p : Z) : State :=
  if set_has p (matchPageSet s) && bool_decide (pageCache s !! p = None)
  then (safeEnsurePage p s).2 else s.

(** [updateHighlightWindow()].  The closing
    [Promise.all(promises).catch(...)] only writes to the console. *)
Definition updateHighlightWindow (s : State) : State :=
  match currentDoc s with
  | None => s
  | Some d =>
      if negb bufferedHighlightMode then s else
      match currentCenterPage s with
      | None => s
      | Some c =>
          let start := Z.max 1 (c - HIGHLIGHT_BUFFER_BEFORE) in
          let end_ := Z.min (pages d) (c + HIGHLIGHT_BUFFER_AFTER) in
          let s := foldl (evictStep start end_) s (highlightedPages s) in
          let s := foldl windowStep s (range_up start end_) in
          let dir := scrollDirection s in
          if dir =? 0 then s
          else
            let aheadStart := if 0 <? dir then end_ + 1 else start - PREFETCH_EXTRA_AHEAD in
            let aheadEnd := if 0 <? dir then Z.min (pages d) (end_ + PREFETCH_EXTRA_AHEAD)
                            else Z.max 1 (start - 1) in
            foldl prefetchStep s
              (if 0 <? dir then range_up aheadStart aheadEnd
               else range_down aheadStart aheadEnd)
      end
  end.

(** [setCenterPage(pageNum, {fromClick})]; the timeout of 800 ms is a
    pending timer. *)
Definition setCenterPage (pageNum : Z) (fromClick : bool) (s : State) : State :=
  let s := with_currentCenterPage (Some pageNum) s in
  let s := updateHighlightWindow s in
  if fromClick
  then with_timers (S (timers s)) (with_programmaticScrollInProgress true s)
  else s.

(** The window of the specification, [start] and [end] of the source. *)
Definition highlightWindow (s : State) : option (Z * Z) :=
  match currentDoc s, currentCenterPage s with
  | Some d, Some c =>
      Some (Z.max 1 (c - HIGHLIGHT_BUFFER_BEFORE), Z.min (pages d) (c + HIGHLIGHT_BUFFER_AFTER))
  | _, _ => None
  end.

(** *** The page-text panel and the selection of a result *)

Definition endsWith (suffix x : string) : bool :=
  let n := String.length x in
  let m := String.length suffix in
  (m <=? n)%nat && String.eqb (substring (n - m) m x) suffix.

Fixpoint repeatString (x : string) (n : nat) : string :=
  match n with
  | O => ""
  | S n => x +:+ repeatString x n
  end.

Definition newline : string := String "010" "".

(** [entry.counts[w] || 0] *)
Definition countOf (entry : SearchResult) (w : string) : Z :=
  default 0 (counts entry !! w).

Definition showPageText (pageNum : Z) (s : State) : State :=
  match pageCache s !! pageNum with
  | None => s
  | Some cache =>
      let summary :=
        match List.find (λ r, page r =? pageNum) (searchResults s) with
        | Some entry =>
            let parts :=
              List.filter (λ x, negb (endsWith "=0" x))
                (map (λ w, w +:+ "=" +:+ pretty (countOf entry w)) (currentWords s)) in
            match parts with
            | [] => ""
            | _ => "Matches: " +:+ String.concat ", " parts +:+ newline
                   +:+ repeatString "-" 40 +:+ newline
            end
        | None => ""
        end in
      with_pageText (summary +:+ text cache) s
  end.

(** [selectResultIndex(idx, opts)] up to its [await]. *)
Definition selectResultIndex (idx : nat) (preserveHighlights skipScroll : bool)
    (s : State) : nat * State :=
  match searchResults s !! idx with
  | None => newPromise (Fulfilled VUndefined) s
  | Some r =>
      let s := with_activeRow (Some idx) s in
      let s := with_currentSelectedPage (Some (page r)) s in
      let '(q, s) := safeEnsurePage (page r) s in
      let '(ret, s) := newPromise Pending s in
      (ret, await q (KSelect (page r) preserveHighlights skipScroll ret) s)
  end.

(** *** Reset *)

(** [resetAll()].  Its last loop over [pageLoadPromises] has an empty body. *)
Definition resetAll (s : State) : State :=
  let s := with_currentDoc None s in
  let s := with_currentWords [] s in
  let s := with_searchResults [] s in
  let s := with_currentSelectedPage None s in
  let s := with_pageCache ∅ s in
  let s := with_matchPageSet [] s in
  let s := with_seamlessHighlightActive false s in
  let s := with_highlightedPages [] s in
  let s := with_currentCenterPage None s in
  let s := with_activeRow None (with_resultRows [] s) in
  let s := with_pageText "" s in
  let s := with_pagesDiv [] s in
  let s := with_currentScale 1%Q s in
  let s := setStatus "Ready." s in
  match pageObserver s with
  | Some observed =>
      with_pageObserver None (with_disconnected (disconnected s ++ [observed]) s)
  | None => s
  end.

(** *** Initial pages, the whole document, search *)

(** The end of [autoRenderInitialPages], after its loop. *)
Definition autoRenderFinish (toLoad total : Z) (ret : nat) (s : State) : State :=
  let s :=
    if toLoad <? total
    then setStatus ("Preview loaded (" +:+ pretty toLoad +:+ "/" +:+ pretty total
                    +:+ "). Load All Pages or search.") s
    else s in
  settle ret (Fulfilled VUndefined) s.

Definition autoRenderInitialPages (s : State) : nat * State :=
  match currentDoc s with
  | None => newPromise (Fulfilled VUndefined) s
  | Some d =>
      let total := pages d in
      let toLoad := if LARGE_DOC_THRESHOLD <? total
                    then Z.min AUTO_LOAD_PAGES_LARGE total else total in
      let '(ret, s) := newPromise Pending s in
      if 1 <=? toLoad then
        let '(q, s) := safeEnsurePage 1 s in
        (ret, await q (KAutoRender 1 toLoad total ret) s)
      else (ret, autoRenderFinish toLoad total ret s)
  end.

(** [runSearch()] up to its first [await]; [raw] is the content of the input
    field. *)
Definition runSearch (raw : string) (s : State) : nat * State :=
  match currentDoc s with
  | None => newPromise (Fulfilled VUndefined) (setStatus "Upload a PDF first." s)
  | Some d =>
      let words := Words.parseWords raw in
      let s := with_currentWords words s in
      let s := clearAllHighlights s in
      let s := with_seamlessHighlightActive false s in
      let s := with_matchPageSet [] s in
      let s := with_highlightedPages [] s in
      let s := with_currentCenterPage None s in
      match words with
      | [] =>
          let s := with_activeRow None (with_resultRows [] s) in
          let s := with_pageText "" s in
          newPromise (Fulfilled VUndefined) (setStatus "No words entered." s)
      | _ =>
          let s := setStatus "Searching..." s in
          let '(q, s) := send (ReqSearch (doc_id d) raw) s in
          let '(ret, s) := newPromise Pending s in
          (ret, await q (KSearchResponse ret) s)
      end
  end.

(** [handlePageIntersections(entries)]; an entry is the page number of its
    target, [isIntersecting] and [intersectionRatio]. *)
Definition bestEntry (entries : list (Z * bool * Q)) : option (Z * bool * Q) :=
  foldl (λ best e,
           if negb e.1.2 then best
           else match best with
                | None => Some e
                | Some b => if negb (Qle_bool e.2 b.2) then Some e else best
                end)
        None entries.

Definition handlePageIntersections (entries : list (Z * bool * Q)) (s : State) : State :=
  if negb bufferedHighlightMode || (length entries =? 0)%nat then s
  else if programmaticScrollInProgress s then s
  else
    match bestEntry entries with
    | None => s
    | Some best =>
        let pageNum := best.1.1 in
        if bool_decide (currentCenterPage s = Some pageNum) then s
        else
          let s :=
            match currentCenterPage s with
            | Some c => with_scrollDirection (if c <? pageNum then 1 else -1) s
            | None => s
            end in
          setCenterPage pageNum false s
    end.

(** *** Resuming a suspended function *)

Definition return_ (ret : nat) (s : State) : State := settle ret (Fulfilled VUndefined) s.
Definition throw (ret : nat) (message : string) (s : State) : State :=
  settle ret (Rejected message) s.

(** The ticket's body once the page data is there: the page element is
    built and inserted, the record is stored, and the body waits for the
    image. *)
Definition renderPage (pageNum : Z) (data : PageData) (ret : nat) (s : State) : State :=
  let pageEl := nextEl s in
  let s := with_nextEl (S pageEl) s in
  let '(loaded, s) := send (ReqImage (image_url data) pageEl) s in
  let s := insertPageInOrder (pageEl, pageNum) s in
  let s := dedupePageDom pageNum s in
  let record := {| tokens := data_tokens data; text := data_text data;
                   imageLoadedPromise := loaded; overlay := pageEl |} in
  let s := with_pageCache (<[pageNum := record]> (pageCache s)) s in
  await loaded (KLoadImage pageNum pageEl ret) s.

(** The ticket's body once the image is settled. *)
Definition finishPage (pageNum : Z) (pageEl : nat) (ret : nat) (s : State) : State :=
  let observed := default [] (pageObserver s) in
  let s := with_pageObserver (Some (observed ++ [pageEl])) s in
  let s :=
    if bufferedHighlightMode && set_has pageNum (matchPageSet s) then
      let inWindow :=
        match currentCenterPage s with
        | None => false
        | Some c => (c - HIGHLIGHT_BUFFER_BEFORE <=? pageNum)
                    && (pageNum <=? c + HIGHLIGHT_BUFFER_AFTER)
        end in
      if inWindow then addHighlighted pageNum (highlightPageMatches pageNum false s)
      else s
    else if seamlessHighlightActive s && negb bufferedHighlightMode
            && set_has pageNum (matchPageSet s)
    then highlightPageMatches pageNum true s
    else s in
  return_ ret s.

Definition renderingStatus (p toLoad total : Z) : string :=
  "Rendering pages " +:+ pretty p +:+ "/" +:+ pretty toLoad
  +:+ (if toLoad <? total then " (preview)" else "") +:+ "...".

(** [resume k o s]: the function suspended as [k] goes on, the promise it
    awaited being settled as [o], until it returns, throws or awaits again. *)
Definition resume (k : frame) (o : pstate) (s : State) : State :=
  match k, o with
  | _, Pending => s
  (* safeEnsurePage: the catch clause reports and swallows the error *)
  | KSafeEnsure pageNum ret, Rejected m =>
      return_ ret (setStatus ("Page " +:+ pretty pageNum +:+ " load error: " +:+ m) s)
  | KSafeEnsure pageNum ret, Fulfilled _ => return_ ret s
  (* ensurePageLoaded returned the ticket itself *)
  | KFollow ret, o => settle ret o s
  (* ensurePageLoaded: finally { delete pageLoadPromises[pageNum] } *)
  | KEnsureFinally pageNum ret, o =>
      let s := with_pageLoadPromises (delete pageNum (pageLoadPromises s)) s in
      match o with
      | Rejected m => throw ret m s
      | _ => return_ ret s
      end
  (* the ticket's body after fetch and json *)
  | KLoadFetched pageNum ret, Rejected m => throw ret m s
  | KLoadFetched pageNum ret, Fulfilled (VPage data) => renderPage pageNum data ret s
  | KLoadFetched pageNum ret, Fulfilled (VNotOk e) =>
      throw ret (or_default e ("Failed to load page " +:+ pretty pageNum)) s
  | KLoadFetched pageNum ret, Fulfilled _ => throw ret "TypeError" s
  | KLoadImage pageNum pageEl ret, Rejected m => throw ret m s
  | KLoadImage pageNum pageEl ret, Fulfilled _ => finishPage pageNum pageEl ret s
  (* activatePage, and the callback of then in updateHighlightWindow *)
  | KActivate p ret, Rejected m => throw ret m s
  | KActivate p ret, Fulfilled _ =>
      return_ ret (addHighlighted p (highlightPageMatches p false s))
  | KThenHighlight p ret, Rejected m => throw ret m s
  | KThenHighlight p ret, Fulfilled _ =>
      return_ ret (addHighlighted p (highlightPageMatches p false s))
  (* Promise.all *)
  | KAll _ ret, Rejected m => throw ret m s
  | KAll [] ret, Fulfilled _ => return_ ret s
  | KAll (q :: rest) ret, Fulfilled _ => await q (KAll rest ret) s
  | KPreload ret, Rejected m => throw ret m s
  | KPreload ret, Fulfilled _ => return_ ret s
  (* selectResultIndex *)
  | KSelect pageNum preserveHighlights skipScroll ret, Rejected m => throw ret m s
  | KSelect pageNum preserveHighlights skipScroll ret, Fulfilled _ =>
      let s := showPageText pageNum s in
      let s :=
        if negb bufferedHighlightMode then
          if seamlessHighlightActive s then highlightPageMatches pageNum true s
          else if negb preserveHighlights
               then highlightPageMatches pageNum false (clearAllHighlights s)
               else s
        else s in
      let s := if negb skipScroll then scrollPageIntoView pageNum s else s in
      return_ ret s
  (* the click handler of a result row *)
  | KClickLoaded token r idx ret, Rejected m => throw ret m s
  | KClickLoaded token r idx ret, Fulfilled _ =>
      let '(q, s) := preloadJumpWindow (page r) s in
      await q (KClickPreloaded token r idx ret) s
  | KClickPreloaded token r idx ret, Rejected m => throw ret m s
  | KClickPreloaded token r idx ret, Fulfilled _ =>
      if bool_decide (token ≠ currentJumpToken s) then return_ ret s
      else
        let '(q, s) := selectResultIndex idx true true s in
        await q (KClickSelected token r ret) s
  | KClickSelected token r ret, Rejected m => throw ret m s
  | KClickSelected token r ret, Fulfilled _ =>
      let s := setCenterPage (page r) true s in
      let s := scrollPageIntoView (page r) s in
      return_ ret (setStatus ("Centered on page " +:+ pretty (page r) +:+ ".") s)
  (* runSearch *)
  | KSearchResponse ret, Rejected m => return_ ret (setStatus m s)
  | KSearchResponse ret, Fulfilled (VNotOk e) =>
      return_ ret (setStatus (or_default e "Search failed") s)
  | KSearchResponse ret, Fulfilled (VResults rs) =>
      let s := with_searchResults rs s in
      let s := with_activeRow None (with_resultRows rs s) in
      match rs with
      | [] => return_ ret (with_pageText "" (setStatus "No pages found." s))
      | first :: _ =>
          let s := with_matchPageSet (set_of (page <$> rs)) s in
          let '(q, s) := safeEnsurePage (page first) s in
          await q (KSearchFirst (page first) ret) s
      end
  | KSearchResponse ret, Fulfilled _ => return_ ret (setStatus "TypeError" s)
  | KSearchFirst firstPage ret, Rejected m => throw ret m s
  | KSearchFirst firstPage ret, Fulfilled _ =>
      let s := with_currentJumpToken (currentJumpToken s + 1) s in
      let '(q, s) := preloadJumpWindow firstPage s in
      await q (KSearchPreloaded firstPage ret) s
  | KSearchPreloaded firstPage ret, Rejected m => throw ret m s
  | KSearchPreloaded firstPage ret, Fulfilled _ =>
      let s := setCenterPage firstPage true s in
      let s := with_seamlessHighlightActive true s in
      let s := (selectResultIndex 0 true true s).2 in
      let s := scrollPageIntoView firstPage s in
      return_ ret
        (setStatus ("Ready. Highlight window centered at page " +:+ pretty firstPage +:+ ".") s)
  (* the upload handler, from the response on *)
  | KUploadResponse ret, Rejected m => return_ ret (setStatus m s)
  | KUploadResponse ret, Fulfilled (VDoc d) =>
      let s := with_currentDoc (Some d) s in
      let s := setStatus "Rendering pages..." s in
      let '(q, s) := autoRenderInitialPages s in
      await q (KUploadRendered ret) s
  | KUploadResponse ret, Fulfilled (VNotOk e) =>
      return_ ret (setStatus (or_default e "Upload / processing failed") s)
  | KUploadResponse ret, Fulfilled _ => return_ ret (setStatus "TypeError" s)
  | KUploadRendered ret, Rejected m => return_ ret (setStatus ("Render error: " +:+ m) s)
  | KUploadRendered ret, Fulfilled _ =>
      return_ ret (setStatus "Pages ready. Enter words & press Search." s)
  (* autoRenderInitialPages and the Load All handler: one turn of the loop *)
  | KAutoRender p toLoad total ret, Rejected m => throw ret m s
  | KAutoRender p toLoad total ret, Fulfilled _ =>
      let s := if (p `mod` 3 =? 0) || (p =? toLoad)
               then setStatus (renderingStatus p toLoad total) s else s in
      if p + 1 <=? toLoad then
        let '(q, s) := safeEnsurePage (p + 1) s in
        await q (KAutoRender (p + 1) toLoad total ret) s
      else autoRenderFinish toLoad total ret s
  | KLoadAll p ret, Rejected m => throw ret m s
  | KLoadAll p ret, Fulfilled _ =>
      match currentDoc s with
      | None => throw ret "TypeError: currentDoc is null" s
      | Some d =>
          let s := if p `mod` 5 =? 0
                   then setStatus ("Loading remaining pages " +:+ pretty p +:+ "/"
                                   +:+ pretty (pages d) +:+ "...") s
                   else s in
          if p + 1 <=? pages d then
            let '(q, s) := safeEnsurePage (p + 1) s in
            await q (KLoadAll (p + 1) ret) s
          else return_ ret (setStatus "All pages loaded." s)
      end
  end.

(** *** The event loop *)

(** What the environment does: the user acts, the viewport reports
    intersections, a timer fires, a request is answered. *)
Inductive event :=
| EvUpload
| EvLoadAll
| EvSearch (raw : string)
| EvClickRow (idx : nat)
| EvIntersections (entries : list (Z * bool * Q))
| EvTimeout
| EvSettle (q : nat) (o : pstate).

(** The answers a request can get. *)
Definition answers (r : request) (o : pstate) : bool :=
  match r, o with
  | _, Pending => false
  | _, Rejected _ => match r with ReqImage _ _ => false | _ => true end
  | _, Fulfilled (VNotOk _) => match r with ReqImage _ _ => false | _ => true end
  | ReqPage _ _, Fulfilled (VPage _) => true
  | ReqImage _ _, Fulfilled VUndefined => true
  | ReqSearch _ _, Fulfilled (VResults _) => true
  | ReqUpload, Fulfilled (VDoc _) => true
  | _, _ => false
  end.

Definition requestOf (q : nat) (s : State) : option request :=
  fst <$> List.find (λ e, (e.2 =? q)%nat) (requests s).

Definition handle (e : event) (s : State) : option State :=
  match e with
  | EvUpload =>
      let s := setStatus "Uploading..." (resetAll s) in
      let '(q, s) := send ReqUpload s in
      let '(ret, s) := newPromise Pending s in
      Some (await q (KUploadResponse ret) s)
  | EvLoadAll =>
      match currentDoc s with
      | None => Some s
      | Some d =>
          let s := setStatus "Loading remaining pages..." s in
          let '(ret, s) := newPromise Pending s in
          if 1 <=? pages d then
            let '(q, s) := safeEnsurePage 1 s in
            Some (await q (KLoadAll 1 ret) s)
          else Some (return_ ret (setStatus "All pages loaded." s))
      end
  | EvSearch raw => Some (runSearch raw s).2
  | EvClickRow idx =>
      match resultRows s !! idx with
      | None => None
      | Some r =>
          let token := currentJumpToken s + 1 in
          let s := with_currentJumpToken token s in
          let s := setStatus ("Jumping to page " +:+ pretty (page r) +:+ "...") s in
          let '(q, s) := safeEnsurePage (page r) s in
          let '(ret, s) := newPromise Pending s in
          Some (await q (KClickLoaded token r idx ret) s)
      end
  | EvIntersections entries => Some (handlePageIntersections entries s)
  | EvTimeout =>
      match timers s with
      | O => None
      | S n => Some (with_timers n (with_programmaticScrollInProgress false s))
      end
  | EvSettle q o =>
      match requestOf q s, promises s !! q with
      | Some r, Some Pending => if answers r o then Some (settle q o s) else None
      | _, _ => None
      end
  end.

(** The task at position [i] is resumed, if the promise it awaits is settled. *)
Definition runTask (i : nat) (s : State) : option State :=
  match tasks s !! i with
  | Some (q, k) =>
      match promises s !! q with
      | Some Pending | None => None
      | Some o => Some (resume k o (with_tasks (delete i (tasks s)) s))
      end
  | None => None
  end.

Inductive action :=
| Env (e : event)
| Resume (i : nat).

Definition perform (a : action) (s : State) : option State :=
  match a with
  | Env e => handle e s
  | Resume i => runTask i s
  end.

Fixpoint run (acts : list action) (s : State) : option State :=
  match acts with
  | [] => Some s
  | a :: rest => match perform a s with Some s' => run rest s' | None => None end
  end.

(** The microtask queue: the ready tasks run, oldest first, until none is
    ready. *)
Definition isReady (s : State) (t : nat * frame) : bool :=
  match promises s !! t.1 with
  | Some Pending | None => false
  | Some _ => true
  end.

Fixpoint firstReady (s : State) (i : nat) (ts : list (nat * frame)) : option nat :=
  match ts with
  | [] => None
  | t :: rest => if isReady s t then Some i else firstReady s (S i) rest
  end.

Fixpoint drain (fuel : nat) (s : State) : option State :=
  match firstReady s 0 (tasks s) with
  | None => Some s
  | Some i =>
      match fuel with
      | O => None
      | S fuel => match runTask i s with Some s' => drain fuel s' | None => None end
      end
  end.

(** An event, then the microtasks it made ready. *)
Definition dispatch (fuel : nat) (e : event) (s : State) : option State :=
  match handle e s with Some s' => drain fuel s' | None => None end.

Fixpoint dispatchAll (fuel : nat) (es : list event) (s : State) : option State :=
  match es with
  | [] => Some s
  | e :: rest =>
      match dispatch fuel e s with Some s' => dispatchAll fuel rest s' | None => None end
  end.

End Engine.

Import Words Engine.

(** ** Notions used to state the properties *)

(** The first piece with [frag] put in front of it. *)
Definition prefixed (frag : string) (ps : list string) : list string :=
  match ps with
  | f :: fs => (frag +:+ f) :: fs
  | [] => [frag]
  end.

(** [plumbing s] forgets the promises, the parked functions, the requests and
    the tickets.  An operation [f] with [plumbing (f s) = plumbing s] touches
    nothing else. *)
Definition plumbing (s : State) : State :=
  with_promises ∅ (with_nextPid 0%nat (with_tasks [] (with_requests []
    (with_pageLoadPromises ∅ s)))).

(** The part of the state that only the rendering of a page, a search, a
    jump or a reset change. *)
Definition skeleton (s : State) : list (nat * Z) * nat * gmap Z PageRecord * list string * Z :=
  (pagesDiv s, nextEl s, pageCache s, currentWords s, currentJumpToken s).

(** One turn of the loop of [preloadJumpWindow]. *)
Definition preloadStep : list nat * State → Z → list nat * State :=
  λ '(loads, s) p,
    match pageCache s !! p with
    | Some _ => (loads, s)
    | None => let '(q, s) := safeEnsurePage p s in (loads ++ [q], s)
    end.

(** Pages in strictly ascending order of their numbers. *)
Definition before (a b : nat * Z) : Prop := a.2 < b.2.

(** The document is in order, and the identifiers of its page elements have
    been handed out already. *)
Definition orderedDoc (s : State) : Prop :=
  StronglySorted before (pagesDiv s) ∧ Forall (λ e, (e.1 < nextEl s)%nat) (pagesDiv s).

(** [dedupePageDom] on the list of children. *)
Definition dedupeList (pageNum : Z) (l : list (nat * Z)) : list (nat * Z) :=
  let nodes := filter (λ e, e.2 = pageNum) l in
  if (length nodes <=? 1)%nat then l
  else filter (λ e, e.1 ∉ (take (length nodes - 1) nodes).*1) l.

(** The states the viewer can be in: those a sequence of events and
    resumptions leads to from the initial one. *)
Inductive reachable : State → Prop :=
| reachable_initial : reachable initial
| reachable_step s a s' : reachable s → perform a s = Some s' → reachable s'.

(** The message of the error that the body of a ticket throws when the answer
    to its request is [o]: the request failed or the body could not be decoded
    (the promise is rejected), or the response was not [ok]. *)
Definition failureMessage (pageNum : Z) (o : pstate) : option string :=
  match o with
  | Rejected m => Some m
  | Fulfilled (VNotOk e) => Some (or_default e ("Failed to load page " +:+ pretty pageNum))
  | _ => None
  end.








(** [unboxed s] forgets the boxes and the log of the paintings;
    [painting s] forgets the set of highlighted pages and the plumbing as
    well. *)
Definition unboxed (s : State) : State := with_hlBoxes ∅ (with_paintLog [] s).

Definition painting (s : State) : State :=
  with_highlightedPages [] (unboxed (plumbing s)).

(** The page has a record or a ticket. *)
Definition covered (s : State) (p : Z) : Prop :=
  is_Some (pageCache s !! p) ∨ is_Some (pageLoadPromises s !! p).

(** [s'] differs from [s] in promises and parked functions only. *)
Definition quiet (s s' : State) : Prop :=
  plumbing s' = plumbing s ∧ requests s' = requests s
  ∧ pageLoadPromises s' = pageLoadPromises s.

(** The pages of [ps] that are in the match set have a record or a ticket;
    those that have a record are highlighted. *)
Definition allCovered (s : State) (ps : list Z) : Prop :=
  ∀ p, p ∈ ps → p ∈ matchPageSet s → covered s p.

Definition allShown (s : State) (ps : list Z) : Prop :=
  ∀ p, p ∈ ps → p ∈ matchPageSet s → is_Some (pageCache s !! p) →
       p ∈ highlightedPages s.

(** The pages of the window and the pages prefetched beyond it, for a
    document, a center page and a scroll direction. *)
Definition windowStart (c : Z) : Z := Z.max 1 (c - HIGHLIGHT_BUFFER_BEFORE).
Definition windowEnd (d : Doc) (c : Z) : Z := Z.min (pages d) (c + HIGHLIGHT_BUFFER_AFTER).

Definition windowPages (d : Doc) (c : Z) : list Z :=
  range_up (windowStart c) (windowEnd d c).

Definition prefetchPages (d : Doc) (c dir : Z) : list Z :=
  if dir =? 0 then []
  else if 0 <? dir
       then range_up (windowEnd d c + 1)
                     (Z.min (pages d) (windowEnd d c + PREFETCH_EXTRA_AHEAD))
       else range_down (windowStart c - PREFETCH_EXTRA_AHEAD)
                       (Z.max 1 (windowStart c - 1)).

(** ** The scenarios of the specification *)

(** A document of ten pages; every page carries the same two tokens. *)
Definition doc10 : Doc := {| doc_id := "doc"; pages := 10 |}.

Definition samplePage : PageData :=
  {| image_url := "/img"; data_text := "Alpha beta";
     data_tokens := [ {| tok_text := "Alpha"; bbox := (1 # 10, 1 # 10, 3 # 10, 2 # 10)%Q |};
                      {| tok_text := "beta"; bbox := (4 # 10, 1 # 10, 6 # 10, 2 # 10)%Q |} ] |}.

(** The document is open, the search for "alpha" has matched the pages 2,
    4 and 9, and no page is loaded yet. *)
Definition searched (matches : list Z) : State :=
  with_matchPageSet matches
    (with_currentWords ["alpha"] (with_currentDoc (Some doc10) initial)).

(** The page numbers of the page requests sent so far. *)
Definition requestedPages (s : State) : list Z :=
  omap (λ e, match e.1 with ReqPage _ p => Some p | _ => None end) (requests s).

(** The promise of the request for page [p] that is still to be answered,
    and the promise of the image of page element [el]. *)
Definition pagePromise (p : Z) (s : State) : nat :=
  default 0%nat (snd <$> List.find (λ e, match e.1 with
                                      | ReqPage _ p' => p' =? p
                                      | _ => false end) (reverse (requests s))).

Definition imagePromise (p : Z) (s : State) : nat :=
  default 0%nat (imageLoadedPromise <$> pageCache s !! p).

(** The request for page [p] is answered with [o]; if the page is rendered,
    its image loads. *)
Definition answerPage (fuel : nat) (p : Z) (o : pstate) (s : State) : option State :=
  s ← dispatch fuel (EvSettle (pagePromise p s) o) s;
  match pageCache s !! p with
  | Some record =>
      dispatch fuel (EvSettle (imageLoadedPromise record) (Fulfilled VUndefined)) s
  | None => Some s
  end.

(** The boxes painted on page [p]. *)
Definition boxesOnPage (p : Z) (s : State) : list Box :=
  match queryPage p s with
  | Some el => boxesOf el s
  | None => []
  end.

(** "For all pages p1 < p2 present in the document, p1's render target
    precedes p2's in document order." *)
Definition inOrder (l : list (nat * Z)) : Prop :=
  ∀ i j e1 e2, l !! i = Some e1 → l !! j = Some e2 → e1.2 < e2.2 → (i < j)%nat.

(** A session: a document of ten pages is uploaded and its first pages
    arrive, one after the other. *)
Definition uploaded : option State :=
  dispatchAll 20 [EvUpload; EvSettle 0 (Fulfilled (VDoc doc10))] initial.

Definition twoPages : option State :=
  s ← uploaded;
  s ← answerPage 20 1 (Fulfilled (VPage samplePage)) s;
  answerPage 20 2 (Fulfilled (VPage samplePage)) s.




(** The scenario of the window: center page 4, and its two pages arrive;
    then center page 9 with a scroll direction, and page 9 arrives. *)
Definition windowAt4 : option State :=
  s ← answerPage 20 2 (Fulfilled (VPage samplePage))
        (setCenterPage 4 false (searched [2; 4; 9]));
  answerPage 20 4 (Fulfilled (VPage samplePage)) s.

Definition windowAt9 (dir : Z) : option State :=
  s ← windowAt4;
  answerPage 20 9 (Fulfilled (VPage samplePage))
    (setCenterPage 9 false (with_scrollDirection dir s)).

(** "setCenter(9) prefetches page [p]", for a scroll direction. *)
Definition prefetches (dir p : Z) : Prop :=
  ∃ s, windowAt9 dir = Some s ∧ p ∈ requestedPages s.

(** A session, told by its events and by the answers to the page requests. *)
Inductive move :=
  | Event (e : event)
  | Answer (p : Z) (o : pstate).

Definition play1 (m : move) (s : State) : option State :=
  match m with
  | Event e => dispatch 60 e s
  | Answer p o => answerPage 60 p o s
  end.

Fixpoint play (ms : list move) (s : State) : option State :=
  match ms with
  | [] => Some s
  | m :: rest => match play1 m s with Some s' => play rest s' | None => None end
  end.

Definition hit (p : Z) : SearchResult := {| page := p; counts := ∅ |}.
Definition arrives : pstate := Fulfilled (VPage samplePage).
Definition fails : pstate := Rejected "network error".

(** A document of ten pages is uploaded and searched for "alpha"; page 4
    is the only match, and no request for a page succeeds: the one for the
    first result, the five of the jump window, and the one that [setCenter(4)]
    starts for page 4. *)
Definition failedLoad : option State :=
  play [Event EvUpload; Event (EvSettle 0 (Fulfilled (VDoc doc10)));
        Event (EvSearch "alpha");
        Event (EvSettle 7 (Fulfilled (VResults [hit 4])));
        Answer 4 fails;
        Answer 2 fails; Answer 3 fails; Answer 4 fails; Answer 5 fails; Answer 6 fails;
        Answer 4 fails] initial.

(** The pages 4, 5 and 9 match.  The jump to page 4 loads its window, page
    5 failing; [setCenter(4)] asks for page 5 again.  The row of page 9 is
    clicked and the window moves to 9 while page 5 loads; then page 5 arrives. *)
Definition movedWindow : option State :=
  play [Event EvUpload; Event (EvSettle 0 (Fulfilled (VDoc doc10)));
        Event (EvSearch "alpha");
        Event (EvSettle 7 (Fulfilled (VResults [hit 4; hit 5; hit 9])));
        Answer 4 arrives;
        Answer 2 arrives; Answer 3 arrives; Answer 5 fails; Answer 6 arrives;
        Event (EvClickRow 2);
        Answer 9 arrives;
        Answer 7 arrives; Answer 8 arrives; Answer 10 arrives;
        Answer 5 arrives] initial.

(** Pages 2 and 4 are asked for together and page 4 arrives first. *)
Definition outOfOrder : option State :=
  s ← answerPage 20 4 (Fulfilled (VPage samplePage))
        (setCenterPage 4 false (searched [2; 4; 9]));
  answerPage 20 2 (Fulfilled (VPage samplePage)) s.

(** "HighlightedPages == HighlightWindow ∩ MatchSet ∩ {pages with a
    PageRecord}" *)
Definition windowInvariant (s : State) : Prop :=
  ∀ p, p ∈ highlightedPages s ↔
       (∃ a b, highlightWindow s = Some (a, b) ∧ a ≤ p ≤ b)
       ∧ p ∈ matchPageSet s ∧ is_Some (pageCache s !! p).

(** ** The page elements, their boxes and the records *)

(** The record of a page points to the page's element in the document. *)
Definition recordsLinked (s : State) : Prop :=
  ∀ p record, pageCache s !! p = Some record → queryPage p s = Some (overlay record).

(** Without words no page of the document carries a box. *)
Definition noStaleBoxes (s : State) : Prop :=
  currentWords s = [] → ∀ e, e ∈ pagesDiv s → boxesOf e.1 s = [].

(** No boxes are kept for elements that do not exist yet. *)
Definition freshUnboxed (s : State) : Prop :=
  ∀ el, (nextEl s ≤ el)%nat → hlBoxes s !! el = None.

Definition domInv (s : State) : Prop :=
  orderedDoc s ∧ NoDup (pagesDiv s).*1 ∧ recordsLinked s
  ∧ noStaleBoxes s ∧ freshUnboxed s.

(** What the painting functions rely on. *)
Definition linked (s : State) : Prop :=
  recordsLinked s ∧ Forall (λ e, (e.1 < nextEl s)%nat) (pagesDiv s).

(** From [s] to [s'] the boxes of an element stay as they are, or they are
    the boxes of an existing element, emptied if there are no words. *)
Definition boxesRel (s s' : State) : Prop :=
  ∀ el, hlBoxes s' !! el = hlBoxes s !! el
        ∨ ((el < nextEl s)%nat ∧ (currentWords s = [] → hlBoxes s' !! el = Some [])).

(** [t] comes from [s] by operations that leave the document, the records
    and the words alone and only repaint existing pages. *)
Definition paints (s t : State) : Prop :=
  (skeleton t).1 = (skeleton s).1 ∧ (linked s → boxesRel s t).


(** What is observed of a state in the scenario of the window: the window,
    the highlighted pages, the pages requested so far, whether page 9 has a
    record, and the boxes on the pages 2, 4 and 9. *)
Definition observed (s : State) :=
  (highlightWindow s, highlightedPages s, requestedPages s,
   bool_decide (is_Some (pageCache s !! 9)),
   boxesOnPage 2 s, boxesOnPage 4 s, boxesOnPage 9 s).

Definition alphaBox : Box :=
  boxOf {| tok_text := "Alpha"; bbox := (1 # 10, 1 # 10, 3 # 10, 2 # 10)%Q |}.

(** *** The functions a pass over the window leaves parked *)

(** The function parked as [t] waits for the load of page [p]: it is parked
    on the ticket of the page by [ensurePageLoaded], or it is the rest of
    [safeEnsurePage(p)], of [activatePage(p)] or of the [then] callback of
    [updateHighlightWindow] for [p]. *)
Definition awaitsLoadOf (s : State) (p : Z) (t : nat * frame) : Prop :=
  match t.2 with
  | KFollow _ => pageLoadPromises s !! p = Some t.1
  | KSafeEnsure p' _ | KActivate p' _ | KThenHighlight p' _ => p' = p
  | _ => False
  end.

(** The function suspended as [k] paints page [p] when it goes on: the rest
    of [activatePage(p)], or the [then] callback for [p]. *)
Definition paintsLater (p : Z) (k : frame) : Prop :=
  match k with
  | KActivate p' _ | KThenHighlight p' _ => p' = p
  | _ => False
  end.

(** "The second call performs no re-paint": once the pages [arrivals] have
    arrived, the overlays have been written to as often after two calls of
    [setCenter(c)] in a row as after one. *)
Definition noRepaint (s : State) (c : Z) (arrivals : list Z) : Prop :=
  ∀ t1 t2,
    play ((λ p, Answer p arrives) <$> arrivals) (setCenterPage c false s) = Some t1 →
    play ((λ p, Answer p arrives) <$> arrivals)
         (setCenterPage c false (setCenterPage c false s)) = Some t2 →
    paintLog t2 = paintLog t1.

(** ** Further functions of the script *)

(** [a.join(sep)] *)
Fixpoint join (sep : string) (a : list string) : string :=
  match a with
  | [] => EmptyString
  | [w] => w
  | w :: rest => w +:+ sep +:+ join sep rest
  end.

(** [updateLegend(words)]: the legend holds the placeholder "No words", or
    the swatch and the words joined by [', ']. *)
Inductive Legend :=
| NoWords
| Swatch (txt : string).

Definition updateLegend (words : list string) : Legend :=
  match words with
  | [] => NoWords
  | _ => Swatch (join ", " words)
  end.

(** What typing the text of the legend into the search field searches for. *)
Definition legendWords (l : Legend) : list string :=
  match l with
  | NoWords => []
  | Swatch txt => parseWords txt
  end.

(** A proper word: not empty, free of separators, and in lower case. *)
Definition properWord (w : string) : Prop :=
  w ≠ EmptyString
  ∧ Forall (λ c, is_sep c = false) (list_ascii_of_string w)
  ∧ toLowerCase w = w.

(** Every page element of the document has the record of its page. *)
Definition elementsRecorded (s : State) : Prop :=
  ∀ e, e ∈ pagesDiv s → ∃ r, pageCache s !! e.2 = Some r ∧ overlay r = e.1.

(** From [s] to [t] nothing but loads are started: the requests added are
    page requests of the open document, for pages in [Q] that had neither a
    record nor a ticket and have a ticket now, no page asked for twice. *)
Definition asks (Q : Z → Prop) (s t : State) : Prop :=
  painting t = painting s
  ∧ (∀ p, covered s p → covered t p)
  ∧ ∃ new, requests t = requests s ++ new
      ∧ NoDup new.*1
      ∧ Forall (λ r, ∃ d p, currentDoc s = Some d ∧ r.1 = ReqPage (doc_id d) p
                        ∧ Q p ∧ ¬ covered s p ∧ covered t p) new.

(** *** Zoom

    The scale is a rational and the arithmetic on it is exact. *)

Definition MIN_SCALE : Q := 5 # 10.
Definition MAX_SCALE : Q := 25 # 10.
Definition SCALE_STEP : Q := 15 # 100.

(** [applyZoom(newScale)] *)
Definition applyZoom (newScale : Q) (s : State) : State :=
  match currentDoc s with
  | None => s
  | Some _ =>
      let newScale := Qmin MAX_SCALE (Qmax MIN_SCALE newScale) in
      if negb (Qle_bool (1 # 1000) (Qabs (newScale - currentScale s))) then s
      else with_currentScale newScale s
  end.

(** The click on [zoomIn] or on [zoomOut]. *)
Definition zoomClick (inward : bool) (s : State) : State :=
  applyZoom (if inward then currentScale s + SCALE_STEP
             else currentScale s - SCALE_STEP)%Q s.

(** [disableZoom()] *)
Definition disableZoom (s : State) : State := with_currentScale 1%Q s.

(** A document with two elements for page 3. *)
Definition duplicated : State :=
  with_pagesDiv [(0%nat, 3); (1%nat, 5); (2%nat, 3)] initial.

(** From [s] to [t] the boxes change on the pages in [P] only, the
    document staying as the viewer keeps it. *)
Definition keepsBoxes (P : Z → Prop) (s t : State) : Prop :=
  domInv t ∧ ∀ p, ¬ P p → boxesOnPage p t = boxesOnPage p s.

(** *** The counts shown for a result *)



(** Do the last two characters of the string spell [a], [b]? *)
Fixpoint endsWith2 (a b : ascii) (x : string) : bool :=
  match x with
  | EmptyString => false
  | String c EmptyString => false
  | String c (String d EmptyString) => Ascii.eqb c a && Ascii.eqb d b
  | String c r => endsWith2 a b r
  end.

(** *** The first pages of a document *)




(** The functions parked in [ts] all wait for a promise that is pending. *)
Definition parked (s : State) (ts : list (nat * frame)) : Prop :=
  Forall (λ t, promises s !! t.1 = Some Pending) ts.



(** *** An upload that fails *)


(** * Properties *)

(** ** [parseWords] *)

Section ParseWords.

Lemma append_cons (x : ascii) (a b : string) : String x a +:+ b = String x (a +:+ b).
Proof. reflexivity. Qed.

Lemma append_empty_l (b : string) : EmptyString +:+ b = b.
Proof. reflexivity. Qed.

Lemma append_snoc (a : string) (c : ascii) (b : string) :
  (a +:+ String c EmptyString) +:+ b = a +:+ String c b.
Proof.
  induction a as [|x a IH]; [reflexivity|].
  rewrite !append_cons. f_equal. exact IH.
Qed.

Lemma append_empty_r (a : string) : a +:+ EmptyString = a.
Proof.
  induction a as [|x a IH]; [reflexivity|].
  rewrite append_cons. f_equal. exact IH.
Qed.

Lemma pieces_nonempty (s : string) : pieces s ≠ [].
Proof.
  induction s as [|c r IH]; simpl; [discriminate|].
  destruct (is_sep c); [discriminate|].
  destruct (pieces r); [contradiction | discriminate].
Qed.

(** The scan of [split] yields the pieces, up to empty ones. *)
Lemma split_scan_pieces (s : string) :
  (∀ frag, List.filter truthy (split_scan false frag s)
           = List.filter truthy (prefixed frag (pieces s)))
  ∧ List.filter truthy (split_scan true EmptyString s) = List.filter truthy (pieces s).
Proof.
  induction s as [|c r [IH1 IH2]]; simpl.
  - split; [intros frag; now rewrite append_empty_r | reflexivity].
  - destruct (is_sep c) eqn:Hc; simpl.
    + split; [intros frag; rewrite append_empty_r, IH2; reflexivity | exact IH2].
    + split.
      * intros frag. rewrite IH1.
        pose proof (pieces_nonempty r) as Hne.
        destruct (pieces r) as [|f fs]; [contradiction|].
        simpl. now rewrite append_snoc.
      * rewrite IH1.
        pose proof (pieces_nonempty r) as Hne.
        destruct (pieces r) as [|f fs]; [contradiction|]. reflexivity.
Qed.

Lemma is_space_sep (c : ascii) : is_space c = true → is_sep c = true.
Proof. unfold is_sep. intros ->. reflexivity. Qed.

Lemma pieces_trimStart (s : string) :
  List.filter truthy (pieces (trimStart s)) = List.filter truthy (pieces s).
Proof.
  induction s as [|c r IH]; simpl; [reflexivity|].
  destruct (is_space c) eqn:Hc; [|reflexivity].
  rewrite (is_space_sep _ Hc). simpl. exact IH.
Qed.

(** White space alone has only empty pieces. *)
Lemma pieces_all_space (s : string) :
  all_space s = true → Forall (λ f, f = EmptyString) (pieces s).
Proof.
  induction s as [|c r IH]; simpl; intros H.
  - repeat constructor.
  - apply andb_true_iff in H as [Hc Hr].
    rewrite (is_space_sep _ Hc). constructor; auto.
Qed.

Lemma filter_truthy_empty (l : list string) :
  Forall (λ f, f = EmptyString) l → List.filter truthy l = [].
Proof. induction 1 as [|x l -> _ IH]; simpl; auto. Qed.

(** Cutting the trailing white space changes neither the first piece nor
    the non-empty pieces after it. *)
Lemma pieces_trimEnd (s : string) :
  head (pieces (trimEnd s)) = head (pieces s)
  ∧ List.filter truthy (tail (pieces (trimEnd s))) = List.filter truthy (tail (pieces s)).
Proof.
  induction s as [|c r [IHh IHt]]; [split; reflexivity|].
  cbn [trimEnd]. destruct (all_space (String c r)) eqn:Hall.
  - pose proof (pieces_all_space _ Hall) as Hf.
    destruct (pieces (String c r)) as [|f fs] eqn:Hp.
    + now apply pieces_nonempty in Hp.
    + inversion Hf; subst. simpl. split; [reflexivity|].
      symmetry. now apply filter_truthy_empty.
  - simpl. destruct (is_sep c); simpl.
    + split; [reflexivity|].
      pose proof (pieces_nonempty r) as N1. pose proof (pieces_nonempty (trimEnd r)) as N2.
      destruct (pieces r) as [|f fs]; [contradiction|].
      destruct (pieces (trimEnd r)) as [|f' fs']; [contradiction|].
      simpl in *. inversion IHh; subst.
      destruct (truthy f); [f_equal|]; exact IHt.
    + pose proof (pieces_nonempty r) as N1. pose proof (pieces_nonempty (trimEnd r)) as N2.
      destruct (pieces r) as [|f fs]; [contradiction|].
      destruct (pieces (trimEnd r)) as [|f' fs']; [contradiction|].
      simpl in *. inversion IHh; subst. split; [reflexivity | exact IHt].
Qed.

Lemma pieces_trim (s : string) :
  List.filter truthy (pieces (trim s)) = List.filter truthy (pieces s).
Proof.
  unfold trim. rewrite <- (pieces_trimStart s).
  destruct (pieces_trimEnd (trimStart s)) as [Hh Ht].
  pose proof (pieces_nonempty (trimStart s)) as N1.
  pose proof (pieces_nonempty (trimEnd (trimStart s))) as N2.
  destruct (pieces (trimStart s)) as [|f fs]; [contradiction|].
  destruct (pieces (trimEnd (trimStart s))) as [|f' fs']; [contradiction|].
  simpl in *. inversion Hh; subst.
  destruct (truthy f); [f_equal|]; exact Ht.
Qed.

Lemma split_pieces (raw : string) :
  List.filter truthy (split_seps (trim raw)) = List.filter truthy (pieces raw).
Proof.
  unfold split_seps. destruct (split_scan_pieces (trim raw)) as [H _].
  rewrite H. rewrite <- (pieces_trim raw).
  pose proof (pieces_nonempty (trim raw)) as N.
  destruct (pieces (trim raw)); [contradiction | reflexivity].
Qed.

(** [indexOf] finds the first occurrence. *)
Lemma indexOf_bounds (v : string) (a : list string) :
  -1 ≤ indexOf v a < Z.of_nat (length a).
Proof.
  induction a as [|x a IH]; simpl; [lia|].
  destruct (String.eqb x v); [lia|].
  destruct (Z.ltb_spec (indexOf v a) 0); lia.
Qed.

Lemma indexOf_fresh (v : string) (pre rest : list string) :
  v ∉ pre → indexOf v (pre ++ v :: rest) = Z.of_nat (length pre).
Proof.
  induction pre as [|x pre IH]; intros Hn; simpl.
  - now rewrite String.eqb_refl.
  - apply not_elem_of_cons in Hn as [Hne Hn].
    destruct (String.eqb_spec x v); [congruence|].
    rewrite (IH Hn). destruct (Z.ltb_spec (Z.of_nat (length pre)) 0); lia.
Qed.

Lemma indexOf_seen (v : string) (pre rest : list string) :
  v ∈ pre → indexOf v (pre ++ rest) < Z.of_nat (length pre).
Proof.
  induction pre as [|x pre IH]; intros Hin; simpl.
  - now apply elem_of_nil in Hin.
  - destruct (String.eqb_spec x v); [lia|].
    apply elem_of_cons in Hin as [->|Hin]; [congruence|].
    specialize (IH Hin). destruct (Z.ltb_spec (indexOf v (pre ++ rest)) 0); lia.
Qed.

Lemma existsb_eqb_elem (x : string) (seen : list string) :
  existsb (String.eqb x) seen = true ↔ x ∈ seen.
Proof.
  rewrite existsb_exists. split.
  - intros (y & Hy & E). apply String.eqb_eq in E as ->. now apply list_elem_of_In.
  - intros H. exists x. split; [now apply list_elem_of_In | apply String.eqb_refl].
Qed.

(** The filter on [indexOf] keeps the first occurrences. *)
Lemma filter_indexOf_keep_first (pre l seen : list string) :
  (∀ y, y ∈ seen ↔ y ∈ pre) →
  filter_indexed (λ v i, indexOf v (pre ++ l) =? i) (Z.of_nat (length pre)) l
  = keep_first seen l.
Proof.
  revert pre seen. induction l as [|x l IH]; intros pre seen Hs; simpl; [reflexivity|].
  assert (Hstep : pre ++ x :: l = (pre ++ [x]) ++ l) by now rewrite <- app_assoc.
  assert (Hlen : Z.of_nat (length pre) + 1 = Z.of_nat (length (pre ++ [x])))
    by (rewrite length_app; simpl; lia).
  destruct (existsb (String.eqb x) seen) eqn:Hex.
  - apply existsb_eqb_elem, Hs in Hex.
    pose proof (indexOf_seen x pre (x :: l) Hex) as Hlt.
    destruct (Z.eqb_spec (indexOf x (pre ++ x :: l)) (Z.of_nat (length pre))); [lia|].
    rewrite Hstep, Hlen. apply IH.
    intros y. rewrite elem_of_app, list_elem_of_singleton, Hs.
    split; [tauto | intros [?| ->]; tauto].
  - assert (Hn : x ∉ pre).
    { intros Hin. apply Hs, existsb_eqb_elem in Hin. congruence. }
    rewrite (indexOf_fresh x pre l Hn), Z.eqb_refl.
    f_equal. rewrite Hstep, Hlen. apply IH.
    intros y. rewrite elem_of_cons, elem_of_app, list_elem_of_singleton, Hs. tauto.
Qed.

Lemma pieces_all_sep (s : string) :
  (∀ c, In c (list_ascii_of_string s) → is_sep c = true) →
  Forall (λ f, f = EmptyString) (pieces s).
Proof.
  induction s as [|c r IH]; simpl; intros H.
  - repeat constructor.
  - rewrite (H c) by now left. constructor; auto.
Qed.

End ParseWords.

(** C9. For every input, [parseWords] returns the pieces between separator
    characters (commas, semicolons, white space) that are not empty,
    lowercased, each word kept at its first occurrence only and in the order of
    the input; an input made of separators only gives the empty list. *)
Theorem parseWords_correct (raw : string) :
  parseWords raw = spec_parseWords raw
  ∧ ((∀ c, In c (list_ascii_of_string raw) → is_sep c = true) → parseWords raw = []).
Proof.
  assert (E : parseWords raw = spec_parseWords raw).
  { unfold parseWords, spec_parseWords. rewrite split_pieces.
    apply (filter_indexOf_keep_first [] _ []). intros y; reflexivity. }
  split; [exact E|].
  intros Hsep. rewrite E. unfold spec_parseWords.
  now rewrite (filter_truthy_empty _ (pieces_all_sep raw Hsep)).
Qed.

Lemma parseWords_correct_witness :
  parseWords " ,;  , " = spec_parseWords " ,;  , " ∧ parseWords " ,;  , " = [].
Proof.
  destruct (parseWords_correct " ,;  , ") as [E H].
  split; [exact E|]. apply H.
  intros c Hc. simpl in Hc.
  repeat (destruct Hc as [<-|Hc]; [reflexivity|]). contradiction.
Defined.

(** ** What an operation leaves alone *)

(** [s1] is the state of a call that returned the pair [c]. *)
Ltac name_calls :=
  repeat match goal with
  | |- context [match ?c with _ => _ end] =>
      lazymatch type of c with
      | (_ * State)%type =>
          let q := fresh "q" in let s1 := fresh "s" in let E := fresh "E" in
          destruct c as [q s1] eqn:E; apply (f_equal snd) in E; cbn [snd] in E; subst s1
      end
  end.

Lemma plumbing_newPromise st s : plumbing (newPromise st s).2 = plumbing s.
Proof. reflexivity. Qed.
Lemma plumbing_settle q st s : plumbing (settle q st s) = plumbing s.
Proof. reflexivity. Qed.
Lemma plumbing_await q k s : plumbing (await q k s) = plumbing s.
Proof. reflexivity. Qed.
Lemma plumbing_send r s : plumbing (send r s).2 = plumbing s.
Proof. reflexivity. Qed.
Lemma plumbing_tickets m s : plumbing (with_pageLoadPromises m s) = plumbing s.
Proof. reflexivity. Qed.
Lemma plumbing_promises m s : plumbing (with_promises m s) = plumbing s.
Proof. reflexivity. Qed.
Lemma plumbing_nextPid n s : plumbing (with_nextPid n s) = plumbing s.
Proof. reflexivity. Qed.
Lemma plumbing_tasks t s : plumbing (with_tasks t s) = plumbing s.
Proof. reflexivity. Qed.
Lemma plumbing_requests r s : plumbing (with_requests r s) = plumbing s.
Proof. reflexivity. Qed.

Create Rewrite HintDb plumb.
Hint Rewrite plumbing_newPromise plumbing_settle plumbing_await plumbing_send
  plumbing_tickets plumbing_promises plumbing_nextPid plumbing_tasks
  plumbing_requests : plumb.

Lemma plumbing_loadPage p s : plumbing (loadPage p s).2 = plumbing s.
Proof.
  unfold loadPage. destruct (currentDoc s); [|reflexivity].
  name_calls. now autorewrite with plumb.
Qed.
Hint Rewrite plumbing_loadPage : plumb.

Lemma plumbing_ensurePageLoaded p s : plumbing (ensurePageLoaded p s).2 = plumbing s.
Proof.
  unfold ensurePageLoaded.
  destruct (pageCache s !! p); [reflexivity|].
  destruct (pageLoadPromises s !! p); name_calls; simpl; now autorewrite with plumb.
Qed.
Hint Rewrite plumbing_ensurePageLoaded : plumb.

Lemma plumbing_safeEnsurePage p s : plumbing (safeEnsurePage p s).2 = plumbing s.
Proof. unfold safeEnsurePage. name_calls. simpl. now autorewrite with plumb. Qed.
Hint Rewrite plumbing_safeEnsurePage : plumb.

Lemma plumbing_promiseAll qs s : plumbing (promiseAll qs s).2 = plumbing s.
Proof. destruct qs; reflexivity. Qed.
Hint Rewrite plumbing_promiseAll : plumb.

Lemma plumbing_activatePage p s : plumbing (activatePage p s).2 = plumbing s.
Proof.
  unfold activatePage. destruct (negb _); [reflexivity|].
  name_calls. simpl. now autorewrite with plumb.
Qed.
Hint Rewrite plumbing_activatePage : plumb.

Lemma plumbing_preloadStep ps acc :
  plumbing (foldl preloadStep acc ps).2 = plumbing acc.2.
Proof.
  revert acc. induction ps as [|p ps IH]; intros [loads s]; simpl; [reflexivity|].
  rewrite IH. destruct (pageCache s !! p); [reflexivity|].
  name_calls. simpl. now autorewrite with plumb.
Qed.

Lemma preloadJumpWindow_unfold c s :
  preloadJumpWindow c s =
  match currentDoc s with
  | None => newPromise (Rejected "TypeError: currentDoc is null") s
  | Some d =>
      let r := foldl preloadStep ([], s)
                 (range_up (Z.max 1 (c - HIGHLIGHT_BUFFER_BEFORE))
                           (Z.min (pages d) (c + HIGHLIGHT_BUFFER_AFTER))) in
      match r.1 with
      | [] => newPromise (Fulfilled VUndefined) r.2
      | _ =>
          let '(q, s) := promiseAll r.1 r.2 in
          let '(ret, s) := newPromise Pending s in
          (ret, await q (KPreload ret) s)
      end
  end.
Proof.
  unfold preloadJumpWindow. destruct (currentDoc s) as [d|]; [|reflexivity].
  fold preloadStep. cbv zeta.
  destruct (foldl preloadStep _ _) as [loads s1]. reflexivity.
Qed.

Lemma plumbing_preloadJumpWindow c s : plumbing (preloadJumpWindow c s).2 = plumbing s.
Proof.
  rewrite preloadJumpWindow_unfold. destruct (currentDoc s) as [d|]; [|reflexivity].
  cbv zeta.
  match goal with |- context [foldl preloadStep ?a ?l] =>
    pose proof (plumbing_preloadStep l a) as H; destruct (foldl preloadStep a l) as [loads s1] end.
  simpl in *. destruct loads; [exact H|].
  name_calls. simpl. now rewrite <- H.
Qed.
Hint Rewrite plumbing_preloadJumpWindow : plumb.
Create Rewrite HintDb skel.

Lemma skeleton_inv s a b c d e :
  skeleton s = (a, b, c, d, e) →
  pagesDiv s = a ∧ nextEl s = b ∧ pageCache s = c ∧ currentWords s = d
  ∧ currentJumpToken s = e.
Proof. unfold skeleton. intros H. injection H. intros. repeat split; assumption. Qed.
Lemma skeleton_currentDoc v s : skeleton (with_currentDoc v s) = skeleton s.
Proof. reflexivity. Qed.
Lemma skeleton_searchResults v s : skeleton (with_searchResults v s) = skeleton s.
Proof. reflexivity. Qed.
Lemma skeleton_currentSelectedPage v s : skeleton (with_currentSelectedPage v s) = skeleton s.
Proof. reflexivity. Qed.
Lemma skeleton_currentScale v s : skeleton (with_currentScale v s) = skeleton s.
Proof. reflexivity. Qed.
Lemma skeleton_pageLoadPromises v s : skeleton (with_pageLoadPromises v s) = skeleton s.
Proof. reflexivity. Qed.
Lemma skeleton_matchPageSet v s : skeleton (with_matchPageSet v s) = skeleton s.
Proof. reflexivity. Qed.
Lemma skeleton_seamlessHighlightActive v s : skeleton (with_seamlessHighlightActive v s) = skeleton s.
Proof. reflexivity. Qed.
Lemma skeleton_currentCenterPage v s : skeleton (with_currentCenterPage v s) = skeleton s.
Proof. reflexivity. Qed.
Lemma skeleton_highlightedPages v s : skeleton (with_highlightedPages v s) = skeleton s.
Proof. reflexivity. Qed.
Lemma skeleton_scrollDirection v s : skeleton (with_scrollDirection v s) = skeleton s.
Proof. reflexivity. Qed.
Lemma skeleton_programmaticScrollInProgress v s : skeleton (with_programmaticScrollInProgress v s) = skeleton s.
Proof. reflexivity. Qed.
Lemma skeleton_pageObserver v s : skeleton (with_pageObserver v s) = skeleton s.
Proof. reflexivity. Qed.
Lemma skeleton_hlBoxes v s : skeleton (with_hlBoxes v s) = skeleton s.
Proof. reflexivity. Qed.
Lemma skeleton_statusMsg v s : skeleton (with_statusMsg v s) = skeleton s.
Proof. reflexivity. Qed.
Lemma skeleton_pageText v s : skeleton (with_pageText v s) = skeleton s.
Proof. reflexivity. Qed.
Lemma skeleton_resultRows v s : skeleton (with_resultRows v s) = skeleton s.
Proof. reflexivity. Qed.
Lemma skeleton_activeRow v s : skeleton (with_activeRow v s) = skeleton s.
Proof. reflexivity. Qed.
Lemma skeleton_promises v s : skeleton (with_promises v s) = skeleton s.
Proof. reflexivity. Qed.
Lemma skeleton_nextPid v s : skeleton (with_nextPid v s) = skeleton s.
Proof. reflexivity. Qed.
Lemma skeleton_tasks v s : skeleton (with_tasks v s) = skeleton s.
Proof. reflexivity. Qed.
Lemma skeleton_requests v s : skeleton (with_requests v s) = skeleton s.
Proof. reflexivity. Qed.
Lemma skeleton_scrollLog v s : skeleton (with_scrollLog v s) = skeleton s.
Proof. reflexivity. Qed.
Lemma skeleton_paintLog v s : skeleton (with_paintLog v s) = skeleton s.
Proof. reflexivity. Qed.
Lemma skeleton_timers v s : skeleton (with_timers v s) = skeleton s.
Proof. reflexivity. Qed.
Lemma skeleton_disconnected v s : skeleton (with_disconnected v s) = skeleton s.
Proof. reflexivity. Qed.
Hint Rewrite skeleton_currentDoc skeleton_searchResults
  skeleton_currentSelectedPage skeleton_currentScale skeleton_pageLoadPromises
  skeleton_matchPageSet skeleton_seamlessHighlightActive
  skeleton_currentCenterPage skeleton_highlightedPages
  skeleton_scrollDirection skeleton_programmaticScrollInProgress
  skeleton_pageObserver skeleton_hlBoxes skeleton_statusMsg skeleton_pageText
  skeleton_resultRows skeleton_activeRow skeleton_promises skeleton_nextPid
  skeleton_tasks skeleton_requests skeleton_scrollLog skeleton_paintLog
  skeleton_timers skeleton_disconnected : skel.

Lemma skeleton_plumbing s s' : plumbing s' = plumbing s → skeleton s' = skeleton s.
Proof. intros H. exact (f_equal skeleton H). Qed.

Lemma skeleton_setStatus m s : skeleton (setStatus m s) = skeleton s.
Proof. reflexivity. Qed.
Lemma skeleton_newPromise st s : skeleton (newPromise st s).2 = skeleton s.
Proof. reflexivity. Qed.
Lemma skeleton_settle q st s : skeleton (settle q st s) = skeleton s.
Proof. reflexivity. Qed.
Lemma skeleton_return ret s : skeleton (return_ ret s) = skeleton s.
Proof. reflexivity. Qed.
Lemma skeleton_throw ret m s : skeleton (throw ret m s) = skeleton s.
Proof. reflexivity. Qed.
Lemma skeleton_await q k s : skeleton (await q k s) = skeleton s.
Proof. reflexivity. Qed.
Lemma skeleton_send r s : skeleton (send r s).2 = skeleton s.
Proof. reflexivity. Qed.
Lemma skeleton_ensurePageLoaded p s : skeleton (ensurePageLoaded p s).2 = skeleton s.
Proof. apply skeleton_plumbing, plumbing_ensurePageLoaded. Qed.
Lemma skeleton_safeEnsurePage p s : skeleton (safeEnsurePage p s).2 = skeleton s.
Proof. apply skeleton_plumbing, plumbing_safeEnsurePage. Qed.
Lemma skeleton_preloadJumpWindow c s : skeleton (preloadJumpWindow c s).2 = skeleton s.
Proof. apply skeleton_plumbing, plumbing_preloadJumpWindow. Qed.
Lemma skeleton_activatePage p s : skeleton (activatePage p s).2 = skeleton s.
Proof. apply skeleton_plumbing, plumbing_activatePage. Qed.
Hint Rewrite skeleton_setStatus skeleton_newPromise skeleton_settle skeleton_return
  skeleton_throw skeleton_await skeleton_send skeleton_ensurePageLoaded
  skeleton_safeEnsurePage skeleton_preloadJumpWindow skeleton_activatePage : skel.

Ltac skel := name_calls; cbv zeta; cbn [fst snd]; autorewrite with skel; try reflexivity.

Lemma skeleton_scrollPageIntoView p s : skeleton (scrollPageIntoView p s) = skeleton s.
Proof. unfold scrollPageIntoView. destruct (queryPage p s); reflexivity. Qed.
Lemma skeleton_clearHighlightsOnPage p s : skeleton (clearHighlightsOnPage p s) = skeleton s.
Proof. unfold clearHighlightsOnPage. destruct (queryPage p s); reflexivity. Qed.
Lemma skeleton_clearAllHighlights s : skeleton (clearAllHighlights s) = skeleton s.
Proof. reflexivity. Qed.
Hint Rewrite skeleton_scrollPageIntoView skeleton_clearHighlightsOnPage
  skeleton_clearAllHighlights : skel.

Lemma skeleton_highlightPageMatches p a s : skeleton (highlightPageMatches p a s) = skeleton s.
Proof.
  unfold highlightPageMatches. destruct (pageCache s !! p); [|reflexivity].
  destruct (currentWords s); [reflexivity|]. destruct a; skel.
Qed.
Lemma skeleton_addHighlighted p s : skeleton (addHighlighted p s) = skeleton s.
Proof. reflexivity. Qed.
Hint Rewrite skeleton_highlightPageMatches skeleton_addHighlighted : skel.

Lemma skeleton_showPageText p s : skeleton (showPageText p s) = skeleton s.
Proof. unfold showPageText. destruct (pageCache s !! p); reflexivity. Qed.
Hint Rewrite skeleton_showPageText : skel.

Lemma skeleton_selectResultIndex i a b s : skeleton (selectResultIndex i a b s).2 = skeleton s.
Proof. unfold selectResultIndex. destruct (searchResults s !! i); [skel | reflexivity]. Qed.
Hint Rewrite skeleton_selectResultIndex : skel.

Lemma skeleton_evictStep a b s p : skeleton (evictStep a b s p) = skeleton s.
Proof. unfold evictStep. destruct (_ || _); skel. Qed.
Lemma skeleton_windowStep s p : skeleton (windowStep s p) = skeleton s.
Proof.
  unfold windowStep. destruct (_ && _).
  - destruct (pageCache s !! p); skel.
  - destruct (_ && _); skel.
Qed.
Lemma skeleton_prefetchStep s p : skeleton (prefetchStep s p) = skeleton s.
Proof. unfold prefetchStep. destruct (_ && _); skel. Qed.

Lemma skeleton_foldl (f : State → Z → State) (l : list Z) s :
  (∀ s p, skeleton (f s p) = skeleton s) → skeleton (foldl f s l) = skeleton s.
Proof.
  intros Hf. revert s. induction l as [|p l IH]; intros s; simpl; [reflexivity|].
  now rewrite IH, Hf.
Qed.

Lemma skeleton_updateHighlightWindow s : skeleton (updateHighlightWindow s) = skeleton s.
Proof.
  unfold updateHighlightWindow. destruct (currentDoc s) as [d|]; [|reflexivity].
  simpl. destruct (currentCenterPage s) as [c|]; [|reflexivity].
  cbv zeta. destruct (_ =? 0).
  - rewrite !skeleton_foldl; auto using skeleton_windowStep, skeleton_evictStep.
  - rewrite !skeleton_foldl;
      auto using skeleton_windowStep, skeleton_evictStep, skeleton_prefetchStep.
Qed.
Hint Rewrite skeleton_updateHighlightWindow : skel.

Lemma skeleton_setCenterPage p b s : skeleton (setCenterPage p b s) = skeleton s.
Proof. unfold setCenterPage. destruct b; skel. Qed.
Hint Rewrite skeleton_setCenterPage : skel.

Lemma skeleton_finishPage p el ret s : skeleton (finishPage p el ret s) = skeleton s.
Proof.
  unfold finishPage. cbv zeta. rewrite skeleton_return.
  destruct (_ && _); [|destruct (_ && _); skel].
  match goal with |- context [if ?b then _ else _] => destruct b end; skel.
Qed.
Hint Rewrite skeleton_finishPage : skel.

Lemma skeleton_autoRenderFinish a b ret s : skeleton (autoRenderFinish a b ret s) = skeleton s.
Proof. unfold autoRenderFinish. destruct (_ <? _); skel. Qed.
Hint Rewrite skeleton_autoRenderFinish : skel.

Lemma skeleton_autoRenderInitialPages s : skeleton (autoRenderInitialPages s).2 = skeleton s.
Proof.
  unfold autoRenderInitialPages. destruct (currentDoc s); [|reflexivity].
  name_calls. destruct (1 <=? _); skel.
Qed.
Hint Rewrite skeleton_autoRenderInitialPages : skel.

Lemma skeleton_handlePageIntersections es s :
  skeleton (handlePageIntersections es s) = skeleton s.
Proof.
  unfold handlePageIntersections. destruct (_ || _); [reflexivity|].
  destruct (programmaticScrollInProgress s); [reflexivity|].
  destruct (bestEntry es); [|reflexivity].
  destruct (bool_decide _); [reflexivity|]. destruct (currentCenterPage s); skel.
Qed.

(** ** The order of the page elements *)

Lemma insertPageInOrder_eq e s :
  insertPageInOrder e s = with_pagesDiv (insertBeforeGreater e (pagesDiv s)) s.
Proof. unfold insertPageInOrder. destruct (pagesDiv s); reflexivity. Qed.

Lemma dedupePageDom_eq p s :
  dedupePageDom p s = with_pagesDiv (dedupeList p (pagesDiv s)) s.
Proof.
  unfold dedupePageDom, dedupeList. cbv zeta.
  destruct (_ <=? _)%nat; [destruct s|]; reflexivity.
Qed.

Lemma Forall_filter_keep {A} (Q P : A → Prop) `{∀ x, Decision (P x)} l :
  Forall Q l → Forall Q (filter P l).
Proof.
  rewrite !Forall_forall. intros HQ x Hx.
  apply list_elem_of_filter in Hx as [_ Hx]. now apply HQ.
Qed.

Lemma filter_empty_iff {A} (P : A → Prop) `{∀ x, Decision (P x)} l :
  filter P l = [] ↔ Forall (λ x, ¬ P x) l.
Proof.
  induction l as [|x l IH]; [split; [constructor | reflexivity]|].
  rewrite filter_cons, Forall_cons. destruct (decide (P x)).
  - split; [discriminate | tauto].
  - rewrite IH. tauto.
Qed.

Lemma StronglySorted_filter {A} (R : A → A → Prop) (P : A → Prop) `{∀ x, Decision (P x)} l :
  StronglySorted R l → StronglySorted R (filter P l).
Proof.
  induction 1 as [|x l Hs IH Hx]; [constructor|].
  rewrite filter_cons. destruct (decide (P x)); [|exact IH].
  constructor; [exact IH|]. now apply Forall_filter_keep.
Qed.

(** The new element goes behind the pages up to its number and in front of
    the higher ones. *)
Lemma insertBeforeGreater_split e l :
  StronglySorted before l →
  ∃ l1 l2, l = l1 ++ l2 ∧ insertBeforeGreater e l = l1 ++ e :: l2
           ∧ Forall (λ x, x.2 ≤ e.2) l1 ∧ Forall (λ x, e.2 < x.2) l2.
Proof.
  induction 1 as [|x l Hs IH Hx]; simpl.
  - exists [], []. repeat split; constructor.
  - destruct (Z.ltb_spec e.2 x.2) as [Hlt|Hge].
    + exists [], (x :: l). repeat split; [constructor|].
      constructor; [exact Hlt|]. eapply Forall_impl; [exact Hx|].
      unfold before. simpl. intros y Hy. lia.
    + destruct IH as (l1 & l2 & -> & E & H1 & H2).
      exists (x :: l1), l2. rewrite E. repeat split; [|exact H2].
      constructor; [lia | exact H1].
Qed.

Lemma render_ordered n p l :
  StronglySorted before l → Forall (λ e, (e.1 < n)%nat) l →
  StronglySorted before (dedupeList p (insertBeforeGreater (n, p) l))
  ∧ Forall (λ e, (e.1 < S n)%nat) (dedupeList p (insertBeforeGreater (n, p) l)).
Proof.
  intros Hs Hid.
  destruct (insertBeforeGreater_split (n, p) l Hs) as (l1 & l2 & -> & -> & H1 & H2).
  simpl in H1, H2.
  apply StronglySorted_app in Hs as (Hcross & Hs1 & Hs2).
  apply Forall_app in Hid as [Hid1 Hid2].
  assert (Hids : Forall (λ e, (e.1 < S n)%nat) (l1 ++ (n, p) :: l2)).
  { apply Forall_app; split; [|constructor; [simpl; lia|]].
    - eapply Forall_impl; [exact Hid1|]. simpl; intros; lia.
    - eapply Forall_impl; [exact Hid2|]. simpl; intros; lia. }
  assert (Hno2 : filter (λ e : nat * Z, e.2 = p) l2 = []).
  { apply filter_empty_iff. eapply Forall_impl; [exact H2|]. simpl. intros; lia. }
  set (old := filter (λ e : nat * Z, e.2 = p) l1).
  assert (Hnodes : filter (λ e : nat * Z, e.2 = p) (l1 ++ (n, p) :: l2) = old ++ [(n, p)]).
  { rewrite filter_app, filter_cons. simpl. rewrite decide_True by reflexivity.
    now rewrite Hno2. }
  unfold dedupeList. cbv zeta. rewrite Hnodes, length_app. simpl.
  destruct (Nat.leb_spec (length old + 1) 1) as [Hle|Hgt].
  - (* no other element for this page *)
    split; [|exact Hids].
    assert (Hold : old = []) by (apply length_zero_iff_nil; lia).
    apply filter_empty_iff in Hold.
    apply StronglySorted_app. split; [|split; [exact Hs1|]].
    + intros x1 x2 Hx1 Hx2. unfold before.
      rewrite Forall_forall in H1, H2, Hold.
      specialize (H1 _ Hx1). specialize (Hold _ Hx1).
      apply elem_of_cons in Hx2 as [->|Hx2]; simpl; [lia|].
      specialize (H2 _ Hx2). lia.
    + constructor; [exact Hs2|]. exact H2.
  - (* the older elements for this page go *)
    replace (length old + 1 - 1)%nat with (length old) by lia.
    rewrite take_app_length.
    split; [|now apply Forall_filter_keep].
    rewrite filter_app, filter_cons.
    assert (Hfresh : (n, p).1 ∉ old.*1).
    { simpl. intros Hin. apply list_elem_of_fmap in Hin as (x & Hx & Hin).
      apply list_elem_of_filter in Hin as [_ Hin].
      rewrite Forall_forall in Hid1. specialize (Hid1 _ Hin). lia. }
    rewrite decide_True by exact Hfresh.
    apply StronglySorted_app. split; [|split].
    + intros x1 x2 Hx1 Hx2. unfold before.
      apply list_elem_of_filter in Hx1 as [Hx1 Hin1].
      rewrite Forall_forall in H1, H2. specialize (H1 _ Hin1).
      assert (x1.2 ≠ p).
      { intros Hp. apply Hx1. apply list_elem_of_fmap. exists x1. split; [reflexivity|].
        apply list_elem_of_filter. split; [exact Hp | exact Hin1]. }
      apply elem_of_cons in Hx2 as [->|Hx2]; simpl; [lia|].
      apply list_elem_of_filter in Hx2 as [_ Hx2]. specialize (H2 _ Hx2). lia.
    + now apply StronglySorted_filter.
    + constructor; [now apply StronglySorted_filter|]. now apply Forall_filter_keep.
Qed.

Lemma renderPage_skeleton p data ret s :
  skeleton (renderPage p data ret s)
  = (dedupeList p (insertBeforeGreater (nextEl s, p) (pagesDiv s)), S (nextEl s),
     <[p := {| tokens := data_tokens data; text := data_text data;
               imageLoadedPromise := nextPid s; overlay := nextEl s |}]> (pageCache s),
     currentWords s, currentJumpToken s).
Proof.
  unfold renderPage. cbv zeta. unfold send, newPromise. cbn [fst snd].
  rewrite dedupePageDom_eq, insertPageInOrder_eq. reflexivity.
Qed.

Lemma pagesDiv_renderPage p data ret s :
  pagesDiv (renderPage p data ret s)
  = dedupeList p (insertBeforeGreater (nextEl s, p) (pagesDiv s)).
Proof. exact (proj1 (skeleton_inv _ _ _ _ _ _ (renderPage_skeleton p data ret s))). Qed.

Lemma nextEl_renderPage p data ret s : nextEl (renderPage p data ret s) = S (nextEl s).
Proof.
  exact (proj1 (proj2 (skeleton_inv _ _ _ _ _ _ (renderPage_skeleton p data ret s)))).
Qed.

Lemma renderPage_ordered p data ret s : orderedDoc s → orderedDoc (renderPage p data ret s).
Proof.
  intros [Hs Hid]. unfold orderedDoc.
  rewrite pagesDiv_renderPage, nextEl_renderPage. now apply render_ordered.
Qed.

(** ** [resetAll] *)

(** C10. After [resetAll] the page cache, the match set and the set of
    highlighted pages are empty, the center page, the document and the
    selected page are null, the results and the words are empty, the zoom scale
    is 1.0 and the page observer is disconnected and dropped.  The tickets of
    [pageLoadPromises] are all kept: a load in flight stays parked with its
    ticket, which is deleted only when the function that created it is resumed,
    whatever the ticket was settled with. *)
Theorem resetAll_spec (s : State) :
  let s' := resetAll s in
  pageCache s' = ∅ ∧ matchPageSet s' = [] ∧ highlightedPages s' = []
  ∧ currentCenterPage s' = None ∧ currentDoc s' = None ∧ currentSelectedPage s' = None
  ∧ searchResults s' = [] ∧ currentWords s' = [] ∧ currentScale s' = 1%Q
  ∧ pageObserver s' = None
  ∧ disconnected s' = disconnected s ++ option_list (pageObserver s)
  ∧ pageLoadPromises s' = pageLoadPromises s
  ∧ tasks s' = tasks s ∧ promises s' = promises s
  ∧ (∀ pageNum ret v,
       pageLoadPromises (resume (KEnsureFinally pageNum ret) (Fulfilled v) s') !! pageNum = None)
  ∧ (∀ pageNum ret m,
       pageLoadPromises (resume (KEnsureFinally pageNum ret) (Rejected m) s') !! pageNum = None).
Proof.
  unfold resetAll. simpl.
  destruct (pageObserver s) as [observed|] eqn:Hobs; simpl;
    repeat split; intros; try apply lookup_delete_eq;
    rewrite ?app_nil_r; try reflexivity; try exact Hobs.
Qed.

(** ** One step of the event loop *)

Lemma resetAll_skeleton s :
  skeleton (resetAll s) = ([], nextEl s, ∅, [], currentJumpToken s).
Proof. unfold resetAll. simpl. destruct (pageObserver s); reflexivity. Qed.

Lemma runSearch_skeleton raw s :
  skeleton (runSearch raw s).2 =
  match currentDoc s with
  | Some _ => (pagesDiv s, nextEl s, pageCache s, parseWords raw, currentJumpToken s)
  | None => skeleton s
  end.
Proof.
  unfold runSearch. destruct (currentDoc s); [|reflexivity].
  cbv zeta. destruct (parseWords raw); skel.
Qed.

Local Opaque with_currentDoc with_currentWords with_searchResults
  with_currentSelectedPage with_pageCache with_currentScale
  with_pageLoadPromises with_matchPageSet with_seamlessHighlightActive
  with_currentCenterPage with_highlightedPages with_scrollDirection
  with_programmaticScrollInProgress with_pageObserver with_currentJumpToken
  with_pagesDiv with_hlBoxes with_nextEl with_statusMsg with_pageText
  with_resultRows with_activeRow with_promises with_nextPid with_tasks
  with_requests with_scrollLog with_paintLog with_timers with_disconnected.

(** Case analysis on the tests of an operation, calls left alone. *)
Ltac crack :=
  repeat match goal with
  | |- context [if ?b then _ else _] => destruct b
  | |- context [match ?x with _ => _ end] =>
      lazymatch type of x with
      | (_ * State)%type => fail
      | _ => destruct x
      end
  end.

Lemma resume_skeleton k o s :
  skeleton (resume k o s) =
  match k, o with
  | _, Pending => skeleton s
  | KLoadFetched p ret, Fulfilled (VPage data) => skeleton (renderPage p data ret s)
  | KSearchFirst _ _, Fulfilled _ =>
      (pagesDiv s, nextEl s, pageCache s, currentWords s, currentJumpToken s + 1)
  | _, _ => skeleton s
  end.
Proof.
  destruct k, o as [|v|m]; try reflexivity; try destruct v;
    lazy beta iota delta [resume]; try reflexivity.
  all: cbv zeta; unfold bufferedHighlightMode; cbn [negb andb].
  all: try (crack; skel; fail).
  all: name_calls; cbn [fst snd]; rewrite skeleton_await, skeleton_preloadJumpWindow;
    reflexivity.
Qed.

Lemma handle_skeleton e s s' :
  handle e s = Some s' →
  skeleton s' =
  match e with
  | EvUpload => ([], nextEl s, ∅, [], currentJumpToken s)
  | EvSearch raw =>
      match currentDoc s with
      | Some _ => (pagesDiv s, nextEl s, pageCache s, parseWords raw, currentJumpToken s)
      | None => skeleton s
      end
  | EvClickRow _ =>
      (pagesDiv s, nextEl s, pageCache s, currentWords s, currentJumpToken s + 1)
  | _ => skeleton s
  end.
Proof.
  destruct e; unfold handle; cbv zeta.
  - name_calls. intros H. injection H as <-. skel. apply resetAll_skeleton.
  - crack; name_calls; crack; intros H; injection H as <-; skel.
  - intros H. injection H as <-. apply runSearch_skeleton.
  - crack; name_calls; intros H; try discriminate. injection H as <-. skel.
  - intros H. injection H as <-. apply skeleton_handlePageIntersections.
  - crack; intros H; try discriminate. injection H as <-. skel.
  - crack; intros H; try discriminate. injection H as <-. skel.
Qed.

Lemma runTask_resume i s s' :
  runTask i s = Some s' →
  ∃ q k o, tasks s !! i = Some (q, k) ∧ promises s !! q = Some o ∧ o ≠ Pending
           ∧ s' = resume k o (with_tasks (delete i (tasks s)) s).
Proof.
  unfold runTask. destruct (tasks s !! i) as [[q k]|] eqn:Et; [|discriminate].
  destruct (promises s !! q) as [o|] eqn:Ep; [|discriminate].
  intros H. exists q, k, o.
  destruct o; [discriminate| |];
    (split; [reflexivity | split; [exact Ep | split; [discriminate | congruence]]]).
Qed.

(** The document stays in order. *)
Lemma ordered_of_skeleton s1 s2 a b c :
  skeleton s2 = (pagesDiv s1, nextEl s1, a, b, c) → orderedDoc s1 → orderedDoc s2.
Proof.
  intros E [Hs Hid].
  pose proof (f_equal (λ t, t.1.1.1.1) E) as E1.
  pose proof (f_equal (λ t, t.1.1.1.2) E) as E2.
  cbn [fst snd skeleton] in E1, E2. unfold orderedDoc. now rewrite E1, E2.
Qed.

Lemma ordered_of_empty s2 a b c d : skeleton s2 = ([], a, b, c, d) → orderedDoc s2.
Proof.
  intros E. pose proof (f_equal (λ t, t.1.1.1.1) E) as E1.
  cbn [fst snd skeleton] in E1. unfold orderedDoc. rewrite E1. split; constructor.
Qed.

Lemma perform_ordered a s s' : perform a s = Some s' → orderedDoc s → orderedDoc s'.
Proof.
  destruct a as [e|i]; cbn [perform]; intros H Hord.
  - pose proof (handle_skeleton _ _ _ H) as E. destruct e;
      try (exact (ordered_of_skeleton _ _ _ _ _ E Hord)).
    + exact (ordered_of_empty _ _ _ _ _ E).
    + destruct (currentDoc s); exact (ordered_of_skeleton _ _ _ _ _ E Hord).
  - apply runTask_resume in H as (q & k & o & _ & _ & Ho & ->).
    pose proof (resume_skeleton k o (with_tasks (delete i (tasks s)) s)) as E.
    set (s0 := with_tasks (delete i (tasks s)) s) in *.
    assert (Hord0 : orderedDoc s0) by exact Hord.
    clearbody s0.
    destruct k, o as [|v|m]; try contradiction;
      try (exact (ordered_of_skeleton _ _ _ _ _ E Hord0));
      destruct v; try (exact (ordered_of_skeleton _ _ _ _ _ E Hord0)).
    apply (ordered_of_skeleton (renderPage pageNum d ret s0) _ _ _ _ E).
    now apply renderPage_ordered.
Qed.

Lemma reachable_ordered s : reachable s → orderedDoc s.
Proof.
  induction 1 as [|s a s' _ IH Hstep].
  - split; constructor.
  - exact (perform_ordered _ _ _ Hstep IH).
Qed.

Lemma token_renderPage p data ret s :
  currentJumpToken (renderPage p data ret s) = currentJumpToken s.
Proof. apply (skeleton_inv _ _ _ _ _ _ (renderPage_skeleton p data ret s)). Qed.

(** The jump counter never goes down. *)
Lemma perform_token a s s' :
  perform a s = Some s' → currentJumpToken s ≤ currentJumpToken s'.
Proof.
  destruct a as [e|i]; cbn [perform]; intros H.
  - pose proof (f_equal snd (handle_skeleton _ _ _ H)) as E. cbn [snd skeleton] in E.
    rewrite E. destruct e; cbn [snd skeleton]; try lia.
    destruct (currentDoc s); cbn [snd skeleton]; lia.
  - apply runTask_resume in H as (q & k & o & _ & _ & Ho & ->).
    pose proof (f_equal snd (resume_skeleton k o (with_tasks (delete i (tasks s)) s))) as E.
    cbn [snd skeleton] in E. rewrite E.
    change (currentJumpToken s) with (skeleton (with_tasks (delete i (tasks s)) s)).2.
    destruct k, o as [|v|m]; cbn [snd skeleton]; try lia;
      destruct v; cbn [snd skeleton]; try lia.
    rewrite token_renderPage. cbn [currentJumpToken with_tasks]. lia.
Qed.

Lemma run_token acts s s' :
  run acts s = Some s' → currentJumpToken s ≤ currentJumpToken s'.
Proof.
  revert s. induction acts as [|a acts IH]; cbn [run]; intros s H.
  - injection H as <-. lia.
  - destruct (perform a s) as [s1|] eqn:E; [|discriminate].
    apply perform_token in E. apply IH in H. lia.
Qed.

Local Transparent with_currentDoc with_currentWords with_searchResults
  with_currentSelectedPage with_pageCache with_currentScale
  with_pageLoadPromises with_matchPageSet with_seamlessHighlightActive
  with_currentCenterPage with_highlightedPages with_scrollDirection
  with_programmaticScrollInProgress with_pageObserver with_currentJumpToken
  with_pagesDiv with_hlBoxes with_nextEl with_statusMsg with_pageText
  with_resultRows with_activeRow with_promises with_nextPid with_tasks
  with_requests with_scrollLog with_paintLog with_timers with_disconnected.

(** ** Loading a page: tickets, failure, retry *)

Lemma runTask_at pre q k post o s :
  tasks s = pre ++ (q, k) :: post → promises s !! q = Some o → o ≠ Pending →
  runTask (length pre) s = Some (resume k o (with_tasks (pre ++ post) s)).
Proof.
  intros Ht Hp Ho. unfold runTask. rewrite Ht.
  rewrite (list_lookup_middle pre post (q, k) (length pre) eq_refl). rewrite Hp.
  rewrite delete_middle. destruct o; [contradiction | reflexivity | reflexivity].
Qed.

(** The first call for a page that has neither a record nor a ticket. *)
Lemma ensurePageLoaded_first s d p :
  currentDoc s = Some d → pageCache s !! p = None → pageLoadPromises s !! p = None →
  let q := nextPid s in
  ensurePageLoaded p s =
  (S (S q),
   with_tasks (tasks s ++ [(q, KLoadFetched p (S q)); (S q, KEnsureFinally p (S (S q)))])
     (with_nextPid (S (S (S q)))
        (with_promises (<[S (S q) := Pending]> (<[S q := Pending]> (<[q := Pending]> (promises s))))
           (with_pageLoadPromises (<[p := S q]> (pageLoadPromises s))
              (with_requests (requests s ++ [(ReqPage (doc_id d) p, q)]) s))))).
Proof.
  intros Hd Hc Ht. unfold ensurePageLoaded, loadPage. rewrite Hc, Ht, Hd.
  unfold send, newPromise, await. cbn. rewrite <- app_assoc. reflexivity.
Qed.

(** A call while the page has no record but a ticket: the caller is parked
    on the ticket, and nothing is requested. *)
Lemma ensurePageLoaded_attach s p ticket :
  pageCache s !! p = None → pageLoadPromises s !! p = Some ticket →
  ensurePageLoaded p s =
  (nextPid s,
   with_tasks (tasks s ++ [(ticket, KFollow (nextPid s))])
     (with_nextPid (S (nextPid s))
        (with_promises (<[nextPid s := Pending]> (promises s)) s))).
Proof.
  intros Hc Ht. unfold ensurePageLoaded. rewrite Hc, Ht. reflexivity.
Qed.

(** A call for a page that has a record returns at once. *)
Lemma ensurePageLoaded_cached s p record :
  pageCache s !! p = Some record →
  ensurePageLoaded p s =
  (nextPid s,
   with_nextPid (S (nextPid s))
     (with_promises (<[nextPid s := Fulfilled VUndefined]> (promises s)) s)).
Proof. intros Hc. unfold ensurePageLoaded. rewrite Hc. reflexivity. Qed.

Lemma safeEnsurePage_first s d p :
  currentDoc s = Some d → pageCache s !! p = None → pageLoadPromises s !! p = None →
  let q := nextPid s in
  safeEnsurePage p s =
  (S (S (S q)),
   with_tasks (tasks s ++ [(q, KLoadFetched p (S q)); (S q, KEnsureFinally p (S (S q)));
                           (S (S q), KSafeEnsure p (S (S (S q))))])
     (with_nextPid (S (S (S (S q))))
        (with_promises (<[S (S (S q)) := Pending]> (<[S (S q) := Pending]>
                          (<[S q := Pending]> (<[q := Pending]> (promises s)))))
           (with_pageLoadPromises (<[p := S q]> (pageLoadPromises s))
              (with_requests (requests s ++ [(ReqPage (doc_id d) p, q)]) s))))).
Proof.
  intros Hd Hc Ht. unfold safeEnsurePage.
  rewrite (ensurePageLoaded_first s d p Hd Hc Ht).
  unfold newPromise, await. cbn. rewrite <- app_assoc. reflexivity.
Qed.

(** C7. When the request of a page load fails (the fetch or the decoding is
    rejected, or the response is not ok), no record is stored for the page, the
    ticket is removed all the same, the error is reported on the status line
    and no request is repeated; the next call for the page sends a new
    request. *)
Theorem load_failure s d p o m :
  currentDoc s = Some d → pageCache s !! p = None → pageLoadPromises s !! p = None →
  failureMessage p o = Some m →
  let q := nextPid s in
  let n := length (tasks s) in
  let call := safeEnsurePage p s in
  requests call.2 = requests s ++ [(ReqPage (doc_id d) p, q)]
  ∧ ∃ s', run [Resume n; Resume n; Resume n] (settle q o call.2) = Some s'
      ∧ pageCache s' = pageCache s
      ∧ pageLoadPromises s' !! p = None
      ∧ statusMsg s' = "Page " +:+ pretty p +:+ " load error: " +:+ m
      ∧ requests s' = requests call.2
      ∧ tasks s' = tasks s
      ∧ promises s' !! call.1 = Some (Fulfilled VUndefined)
      ∧ requests (ensurePageLoaded p s').2
        = requests s' ++ [(ReqPage (doc_id d) p, nextPid s')].
Proof.
  intros Hd Hc Ht Hm q n call. subst call n.
  rewrite (safeEnsurePage_first s d p Hd Hc Ht). fold q. cbn [fst snd].
  split; [reflexivity|].
  set (tF := (q, KLoadFetched p (S q))).
  set (tE := (S q, KEnsureFinally p (S (S q)))).
  set (tS := (S (S q), KSafeEnsure p (S (S (S q))))).
  match goal with |- context [settle q o ?s1] => set (s2 := settle q o s1) end.
  (* the body of the ticket throws *)
  assert (Ho : o ≠ Pending) by (intros ->; discriminate).
  assert (R1 : runTask (length (tasks s)) s2 = Some (throw (S q) m (with_tasks (tasks s ++ [tE; tS]) s2))).
  { rewrite (runTask_at (tasks s) q (KLoadFetched p (S q)) [tE; tS] o s2);
      [|reflexivity | apply lookup_insert_eq | exact Ho].
    f_equal. destruct o as [|[]|]; try discriminate; injection Hm as <-; reflexivity. }
  set (s3 := throw (S q) m (with_tasks (tasks s ++ [tE; tS]) s2)) in *.
  (* the creator of the ticket deletes it and rethrows *)
  assert (R2 : runTask (length (tasks s)) s3 =
    Some (throw (S (S q)) m
            (with_pageLoadPromises (delete p (pageLoadPromises s3))
               (with_tasks (tasks s ++ [tS]) s3)))).
  { rewrite (runTask_at (tasks s) (S q) (KEnsureFinally p (S (S q))) [tS] (Rejected m) s3);
      [reflexivity | reflexivity | apply lookup_insert_eq | discriminate]. }
  set (s4 := throw (S (S q)) m _) in *.
  (* safeEnsurePage catches and reports *)
  assert (R3 : runTask (length (tasks s)) s4 =
    Some (return_ (S (S (S q)))
            (setStatus ("Page " +:+ pretty p +:+ " load error: " +:+ m)
               (with_tasks (tasks s) s4)))).
  { rewrite (runTask_at (tasks s) (S (S q)) (KSafeEnsure p (S (S (S q)))) [] (Rejected m) s4);
      [rewrite app_nil_r; reflexivity | reflexivity | apply lookup_insert_eq | discriminate]. }
  set (sf := return_ (S (S (S q))) _) in R3.
  exists sf. split.
  { cbn [run perform]. rewrite R1, R2, R3. reflexivity. }
  repeat split.
  - cbn. apply lookup_delete_eq.
  - cbn. apply lookup_insert_eq.
  - assert (Hd' : currentDoc sf = Some d) by exact Hd.
    assert (Hc' : pageCache sf !! p = None) by exact Hc.
    assert (Ht' : pageLoadPromises sf !! p = None) by (cbn; apply lookup_delete_eq).
    rewrite (ensurePageLoaded_first sf d p Hd' Hc' Ht'). reflexivity.
Qed.

(** *** One request for concurrent calls *)




(** ** Jumps *)










(** ** The highlight window *)

Lemma quiet_refl s : quiet s s.
Proof. repeat split. Qed.

Lemma quiet_trans s1 s2 s3 : quiet s1 s2 → quiet s2 s3 → quiet s1 s3.
Proof. intros (A1 & B1 & C1) (A2 & B2 & C2). repeat split; congruence. Qed.

Lemma quiet_plumbing s s' :
  plumbing s' = plumbing s → requests s' = requests s →
  pageLoadPromises s' = pageLoadPromises s → quiet s s'.
Proof. now repeat split. Qed.

Lemma set_has_true x l : set_has x l = true ↔ x ∈ l.
Proof. unfold set_has. apply bool_decide_eq_true. Qed.

Lemma set_has_false x l : set_has x l = false ↔ x ∉ l.
Proof. unfold set_has. apply bool_decide_eq_false. Qed.

Lemma elem_of_set_add x y l : x ∈ set_add y l ↔ x = y ∨ x ∈ l.
Proof.
  unfold set_add. destruct (set_has y l) eqn:E.
  - apply set_has_true in E. split; [intros; now right | intros [->|]; assumption].
  - rewrite elem_of_app, list_elem_of_singleton. tauto.
Qed.

Lemma elem_of_set_delete x y l : x ∈ set_delete y l ↔ x ≠ y ∧ x ∈ l.
Proof. unfold set_delete. rewrite list_elem_of_filter. reflexivity. Qed.

(** A call for a covered page asks for nothing. *)
Lemma ensurePageLoaded_quiet p s : covered s p → quiet s (ensurePageLoaded p s).2.
Proof.
  intros Hcov. unfold ensurePageLoaded.
  destruct (pageCache s !! p) as [record|] eqn:Hc; [repeat split|].
  destruct (pageLoadPromises s !! p) as [ticket|] eqn:Ht; [repeat split|].
  destruct Hcov as [[? H]|[? H]]; congruence.
Qed.

Lemma safeEnsurePage_quiet p s : covered s p → quiet s (safeEnsurePage p s).2.
Proof.
  intros Hcov. unfold safeEnsurePage.
  pose proof (ensurePageLoaded_quiet p s Hcov) as (A & B & C).
  destruct (ensurePageLoaded p s) as [q s1]. cbn [fst snd] in *.
  apply quiet_plumbing; [exact A | exact B | exact C].
Qed.

Lemma loadPage_tickets p s :
  pageLoadPromises (loadPage p s).2 = pageLoadPromises s
  ∧ pageCache (loadPage p s).2 = pageCache s.
Proof. unfold loadPage. destruct (currentDoc s); split; reflexivity. Qed.

(** After a call the page is covered, and so is every page that was. *)
Lemma ensurePageLoaded_covers p s :
  covered (ensurePageLoaded p s).2 p
  ∧ ∀ p', covered s p' → covered (ensurePageLoaded p s).2 p'.
Proof.
  unfold ensurePageLoaded, covered.
  destruct (pageCache s !! p) as [record|] eqn:Hc.
  { cbn. rewrite Hc. split; [left; eauto | tauto]. }
  destruct (pageLoadPromises s !! p) as [ticket|] eqn:Ht.
  { cbn. rewrite Ht. split; [right; eauto | tauto]. }
  destruct (loadPage_tickets p s) as [Hlt Hlc].
  destruct (loadPage p s) as [ticket s1]. cbn [fst snd] in *. cbn. rewrite Hlc, Hlt.
  split.
  - right. rewrite lookup_insert_eq. eauto.
  - intros p' [H|H]; [now left|]. right.
    destruct (decide (p = p')) as [->|Hne].
    + rewrite lookup_insert_eq. eauto.
    + now rewrite lookup_insert_ne by exact Hne.
Qed.

Lemma safeEnsurePage_covers p s :
  covered (safeEnsurePage p s).2 p
  ∧ ∀ p', covered s p' → covered (safeEnsurePage p s).2 p'.
Proof.
  unfold safeEnsurePage. pose proof (ensurePageLoaded_covers p s) as H.
  destruct (ensurePageLoaded p s) as [q s1]. exact H.
Qed.

Lemma painting_plumbing s s' : plumbing s' = plumbing s → painting s' = painting s.
Proof. intros H. unfold painting. now rewrite H. Qed.

Lemma painting_unboxed s s' : unboxed s' = unboxed s → painting s' = painting s.
Proof. intros H. exact (f_equal (λ t, with_highlightedPages [] (plumbing t)) H). Qed.

Lemma unboxed_clearHighlightsOnPage p s :
  unboxed (clearHighlightsOnPage p s) = unboxed s.
Proof. unfold clearHighlightsOnPage. destruct (queryPage p s); reflexivity. Qed.

Lemma unboxed_highlightPageMatches p a s :
  unboxed (highlightPageMatches p a s) = unboxed s.
Proof.
  unfold highlightPageMatches. destruct (pageCache s !! p); [|reflexivity].
  destruct (currentWords s); [reflexivity|]. destruct a; [reflexivity|].
  cbv zeta. change (unboxed (clearHighlightsOnPage p s) = unboxed s).
  apply unboxed_clearHighlightsOnPage.
Qed.

(** One turn of the window loop, whatever the state. *)
Lemma windowStep_post s p :
  let s' := windowStep s p in
  painting s' = painting s
  ∧ (∀ x, x ∈ highlightedPages s' ↔
          x ∈ highlightedPages s
          ∨ (x = p ∧ p ∈ matchPageSet s ∧ is_Some (pageCache s !! p)))
  ∧ (∀ p', covered s p' → covered s' p')
  ∧ (p ∈ matchPageSet s → covered s' p).
Proof.
  unfold windowStep.
  destruct (set_has p (matchPageSet s)) eqn:Hm; cbn [andb].
  2: { apply set_has_false in Hm. destruct (bool_decide _); cbn [andb];
       repeat split; try tauto; intros; tauto. }
  apply set_has_true in Hm.
  destruct (set_has p (highlightedPages s)) eqn:Hh; cbn [negb].
  - (* already highlighted *)
    apply set_has_true in Hh.
    destruct (bool_decide (pageCache s !! p = None)) eqn:Hc; cbn [andb].
    + apply bool_decide_eq_true in Hc.
      pose proof (plumbing_safeEnsurePage p s) as Hp.
      pose proof (safeEnsurePage_covers p s) as [C1 C2].
      destruct (safeEnsurePage p s) as [q s1]. cbn [fst snd] in *.
      split; [now apply painting_plumbing|]. split; [|split].
      * intros x. change (x ∈ highlightedPages s1 ↔ x ∈ highlightedPages s
          ∨ x = p ∧ p ∈ matchPageSet s ∧ is_Some (pageCache s !! p)).
        rewrite (f_equal highlightedPages Hp : highlightedPages s1 = highlightedPages s).
        rewrite Hc. split; [tauto | intros [?|(_ & _ & [? ?])]; [assumption | discriminate]].
      * exact C2.
      * intros _. exact C1.
    + apply bool_decide_eq_false in Hc. repeat split; try tauto.
      * intros [?|(-> & _)]; assumption.
      * intros _. left. destruct (pageCache s !! p); [eauto | contradiction].
  - (* to be highlighted *)
    apply set_has_false in Hh.
    destruct (pageCache s !! p) as [record|] eqn:Hc.
    + pose proof (unboxed_highlightPageMatches p false s) as Hu.
      set (s1 := highlightPageMatches p false s) in *.
      assert (E1 : highlightedPages s1 = highlightedPages s)
        by exact (f_equal highlightedPages Hu).
      assert (E2 : pageCache s1 = pageCache s) by exact (f_equal pageCache Hu).
      assert (E3 : pageLoadPromises s1 = pageLoadPromises s)
        by exact (f_equal pageLoadPromises Hu).
      split; [exact (painting_unboxed _ _ Hu)|]. split; [|split].
      * intros x. change (x ∈ set_add p (highlightedPages s1) ↔ x ∈ highlightedPages s
          ∨ x = p ∧ p ∈ matchPageSet s ∧ is_Some (Some record)).
        rewrite elem_of_set_add, E1. split; [intros [->|?]; eauto | tauto].
      * intros p'. unfold covered. cbn. now rewrite E2, E3.
      * intros _. left. cbn. rewrite E2, Hc. eauto.
    + unfold activatePage. rewrite (proj2 (set_has_true _ _) Hm). cbn [negb].
      pose proof (plumbing_safeEnsurePage p s) as Hp.
      pose proof (safeEnsurePage_covers p s) as [C1 C2].
      destruct (safeEnsurePage p s) as [q s1]. cbn [fst snd] in *.
      split; [now apply painting_plumbing|]. split; [|split].
      * intros x. change (x ∈ highlightedPages s1 ↔ x ∈ highlightedPages s
          ∨ x = p ∧ p ∈ matchPageSet s ∧ is_Some (@None PageRecord)).
        rewrite (f_equal highlightedPages Hp : highlightedPages s1 = highlightedPages s).
        split; [tauto | intros [?|(_ & _ & [? ?])]; [assumption | discriminate]].
      * exact C2.
      * intros _. exact C1.
Qed.

(** One turn of the window loop for a page that is up to date. *)
Lemma windowStep_quiet s p :
  allCovered s [p] → allShown s [p] → quiet s (windowStep s p).
Proof.
  intros Hcov Hshown. unfold windowStep.
  destruct (set_has p (matchPageSet s)) eqn:Hm; cbn [andb].
  2: { destruct (bool_decide _); apply quiet_refl. }
  apply set_has_true in Hm.
  specialize (Hcov p (list_elem_of_here _ _) Hm).
  specialize (Hshown p (list_elem_of_here _ _) Hm).
  assert (Hsafe : ∀ k, quiet s
            (let '(q, s0) := safeEnsurePage p s in
             let '(ret, s1) := newPromise Pending s0 in await q (k ret) s1)).
  { intros k. pose proof (safeEnsurePage_quiet p s Hcov) as (A & B & C).
    destruct (safeEnsurePage p s) as [q s1]. now apply quiet_plumbing. }
  destruct (set_has p (highlightedPages s)) eqn:Hh; cbn [negb].
  - destruct (bool_decide _); cbn [andb]; [apply (Hsafe (KThenHighlight p)) | apply quiet_refl].
  - apply set_has_false in Hh.
    destruct (pageCache s !! p) as [record|] eqn:Hc.
    + exfalso. apply Hh, Hshown. eauto.
    + unfold activatePage. rewrite (proj2 (set_has_true _ _) Hm). cbn [negb].
      specialize (Hsafe (KActivate p)).
      destruct (safeEnsurePage p s) as [q s1]. exact Hsafe.
Qed.

Lemma quiet_fields s s' :
  quiet s s' →
  pageCache s' = pageCache s ∧ matchPageSet s' = matchPageSet s
  ∧ highlightedPages s' = highlightedPages s
  ∧ pageLoadPromises s' = pageLoadPromises s.
Proof.
  intros (A & B & C). repeat split; [| | |exact C].
  - exact (f_equal pageCache A).
  - exact (f_equal matchPageSet A).
  - exact (f_equal highlightedPages A).
Qed.

Lemma quiet_allCovered s s' ps : quiet s s' → allCovered s ps → allCovered s' ps.
Proof.
  intros Hq H p Hp Hm. apply quiet_fields in Hq as (E1 & E2 & E3 & E4).
  unfold covered. rewrite E1, E4. apply H; [exact Hp | now rewrite <- E2].
Qed.

Lemma quiet_allShown s s' ps : quiet s s' → allShown s ps → allShown s' ps.
Proof.
  intros Hq H p Hp Hm Hc. apply quiet_fields in Hq as (E1 & E2 & E3 & E4).
  rewrite E3. apply H; [exact Hp | now rewrite <- E2 | now rewrite <- E1].
Qed.

Lemma allCovered_cons s p ps :
  allCovered s (p :: ps) → allCovered s [p] ∧ allCovered s ps.
Proof.
  intros H. split; intros x Hx; apply H.
  - apply list_elem_of_singleton in Hx as ->. apply list_elem_of_here.
  - now apply list_elem_of_further.
Qed.

Lemma allShown_cons s p ps :
  allShown s (p :: ps) → allShown s [p] ∧ allShown s ps.
Proof.
  intros H. split; intros x Hx; apply H.
  - apply list_elem_of_singleton in Hx as ->. apply list_elem_of_here.
  - now apply list_elem_of_further.
Qed.

Lemma foldl_windowStep_quiet ps s :
  allCovered s ps → allShown s ps → quiet s (foldl windowStep s ps).
Proof.
  revert s. induction ps as [|p ps IH]; intros s Hcov Hshown; cbn [foldl].
  - apply quiet_refl.
  - apply allCovered_cons in Hcov as [Hc1 Hc2].
    apply allShown_cons in Hshown as [Hs1 Hs2].
    pose proof (windowStep_quiet s p Hc1 Hs1) as Hq.
    eapply quiet_trans; [exact Hq|].
    apply IH; [eapply quiet_allCovered | eapply quiet_allShown]; eassumption.
Qed.

Lemma painting_fields s s' :
  painting s' = painting s →
  pageCache s' = pageCache s ∧ matchPageSet s' = matchPageSet s
  ∧ currentDoc s' = currentDoc s ∧ currentCenterPage s' = currentCenterPage s
  ∧ scrollDirection s' = scrollDirection s.
Proof.
  intros H. repeat split.
  - exact (f_equal pageCache H).
  - exact (f_equal matchPageSet H).
  - exact (f_equal currentDoc H).
  - exact (f_equal currentCenterPage H).
  - exact (f_equal scrollDirection H).
Qed.

(** The window loop, whatever the state: afterwards the pages of the loop
    are up to date. *)
Lemma foldl_windowStep_post ps s :
  let s' := foldl windowStep s ps in
  painting s' = painting s
  ∧ (∀ x, x ∈ highlightedPages s' ↔
          x ∈ highlightedPages s
          ∨ (x ∈ ps ∧ x ∈ matchPageSet s ∧ is_Some (pageCache s !! x)))
  ∧ (∀ p', covered s p' → covered s' p')
  ∧ allCovered s' ps.
Proof.
  revert s. induction ps as [|p ps IH]; intros s; cbn [foldl].
  - repeat split; try tauto.
    + intros [?|(Hx & _)]; [assumption | now apply elem_of_nil in Hx].
    + intros p Hp. now apply elem_of_nil in Hp.
  - destruct (windowStep_post s p) as (P1 & H1 & C1 & K1).
    destruct (IH (windowStep s p)) as (P2 & H2 & C2 & K2).
    apply painting_fields in P1 as F1. destruct F1 as (Ec & Em & _).
    split; [congruence|]. split; [|split].
    + intros x. rewrite H2, H1, Ec, Em, elem_of_cons. split.
      * intros [[H|(-> & Hm' & Hc')]|(Hx & Hm' & Hc')];
          [now left | right; split; [now left | now split]
          | right; split; [now right | now split]].
      * intros [H|([->|Hx] & Hm' & Hc')];
          [left; now left | left; right; repeat split; assumption
          | right; repeat split; assumption].
    + intros p' Hp'. apply C2, C1, Hp'.
    + intros x Hx Hm. apply elem_of_cons in Hx as [->|Hx].
      * apply C2, K1. apply painting_fields in P2 as (_ & Em2 & _).
        now rewrite <- Em, <- Em2.
      * now apply K2.
Qed.

(** The pages highlighted outside the window lose their boxes and leave the
    set. *)
Lemma evictStep_post a b s p :
  let s' := evictStep a b s p in
  painting s' = painting s ∧ pageLoadPromises s' = pageLoadPromises s
  ∧ requests s' = requests s
  ∧ (∀ x, x ∈ highlightedPages s' ↔
          x ∈ highlightedPages s ∧ ¬ (x = p ∧ ¬ (a ≤ p ≤ b))).
Proof.
  unfold evictStep. cbv zeta. destruct ((p <? a) || (b <? p)) eqn:E.
  - assert (Hout : ¬ (a ≤ p ≤ b)).
    { apply orb_true_iff in E as [E|E]; apply Z.ltb_lt in E; lia. }
    pose proof (unboxed_clearHighlightsOnPage p s) as Hu.
    split; [exact (painting_unboxed _ _ Hu)|].
    split; [exact (f_equal pageLoadPromises Hu)|].
    split; [exact (f_equal requests Hu)|].
    intros x. cbn [highlightedPages with_highlightedPages].
    rewrite elem_of_set_delete.
    split.
    + intros [Hne Hx]. split; [exact Hx | intros [-> _]; congruence].
    + intros [Hx Hn]. split; [|exact Hx]. intros ->. apply Hn. now split.
  - assert (Hin : a ≤ p ≤ b).
    { apply orb_false_iff in E as [E1 E2].
      apply Z.ltb_ge in E1. apply Z.ltb_ge in E2. lia. }
    split; [reflexivity|]. split; [reflexivity|]. split; [reflexivity|].
    intros x. split; [|intros [Hx _]; exact Hx].
    intros Hx. split; [exact Hx | intros [_ Hn]; contradiction].
Qed.

Lemma evictStep_inside a b s p : a ≤ p ≤ b → evictStep a b s p = s.
Proof.
  intros H. unfold evictStep.
  destruct (Z.ltb_spec p a); [lia|]. destruct (Z.ltb_spec b p); [lia | reflexivity].
Qed.

Lemma foldl_evictStep_inside a b ps s :
  (∀ p, p ∈ ps → a ≤ p ≤ b) → foldl (evictStep a b) s ps = s.
Proof.
  induction ps as [|p ps IH]; intros H; cbn [foldl]; [reflexivity|].
  rewrite evictStep_inside by (apply H, list_elem_of_here).
  apply IH. intros x Hx. now apply H, list_elem_of_further.
Qed.

Lemma foldl_evictStep_post a b ps s :
  let s' := foldl (evictStep a b) s ps in
  painting s' = painting s ∧ pageLoadPromises s' = pageLoadPromises s
  ∧ requests s' = requests s
  ∧ (∀ x, x ∈ highlightedPages s' ↔
          x ∈ highlightedPages s ∧ ¬ (x ∈ ps ∧ ¬ (a ≤ x ≤ b))).
Proof.
  revert s. induction ps as [|p ps IH]; intros s; cbn [foldl].
  - repeat split; try tauto. intros [Hx _]. now apply elem_of_nil in Hx.
  - destruct (evictStep_post a b s p) as (P1 & T1 & R1 & H1).
    destruct (IH (evictStep a b s p)) as (P2 & T2 & R2 & H2).
    split; [congruence|]. split; [congruence|]. split; [congruence|].
    intros x. rewrite H2, H1, elem_of_cons. split.
    + intros [[Hx Hn1] Hn2]. split; [exact Hx|].
      intros [[->|Hin] Ho]; [apply Hn1 | apply Hn2]; now split.
    + intros [Hx Hn]. split; [split; [exact Hx|]|].
      * intros [-> Ho]. apply Hn. split; [now left | exact Ho].
      * intros [Hin Ho]. apply Hn. split; [now right | exact Ho].
Qed.

(** The prefetch loop. *)
Lemma prefetchStep_post s p :
  let s' := prefetchStep s p in
  plumbing s' = plumbing s
  ∧ (∀ p', covered s p' → covered s' p')
  ∧ (p ∈ matchPageSet s → covered s' p).
Proof.
  unfold prefetchStep.
  destruct (set_has p (matchPageSet s)) eqn:Hm; cbn [andb].
  2: { apply set_has_false in Hm. repeat split; tauto. }
  destruct (bool_decide (pageCache s !! p = None)) eqn:Hc.
  - pose proof (safeEnsurePage_covers p s) as [C1 C2].
    split; [apply plumbing_safeEnsurePage|]. split; [exact C2 | intros _; exact C1].
  - apply bool_decide_eq_false in Hc. repeat split; try tauto.
    intros _. left. destruct (pageCache s !! p); [eauto | contradiction].
Qed.

Lemma foldl_prefetchStep_post ps s :
  let s' := foldl prefetchStep s ps in
  plumbing s' = plumbing s
  ∧ (∀ p', covered s p' → covered s' p')
  ∧ allCovered s' ps.
Proof.
  revert s. induction ps as [|p ps IH]; intros s; cbn [foldl].
  - repeat split; try tauto. intros p Hp. now apply elem_of_nil in Hp.
  - destruct (prefetchStep_post s p) as (P1 & C1 & K1).
    destruct (IH (prefetchStep s p)) as (P2 & C2 & K2).
    split; [congruence|]. split.
    + intros p' Hp'. apply C2, C1, Hp'.
    + intros x Hx Hm. apply elem_of_cons in Hx as [->|Hx].
      * apply C2, K1.
        assert (E2 : matchPageSet (foldl prefetchStep (prefetchStep s p) ps)
                     = matchPageSet (prefetchStep s p)) by exact (f_equal matchPageSet P2).
        assert (E1 : matchPageSet (prefetchStep s p) = matchPageSet s)
          by exact (f_equal matchPageSet P1).
        now rewrite E2, E1 in Hm.
      * now apply K2.
Qed.

Lemma prefetchStep_quiet s p : allCovered s [p] → quiet s (prefetchStep s p).
Proof.
  intros Hcov. unfold prefetchStep.
  destruct (set_has p (matchPageSet s)) eqn:Hm; cbn [andb]; [|apply quiet_refl].
  apply set_has_true in Hm.
  destruct (bool_decide _); [|apply quiet_refl].
  apply safeEnsurePage_quiet, (Hcov p (list_elem_of_here _ _) Hm).
Qed.

Lemma foldl_prefetchStep_quiet ps s :
  allCovered s ps → quiet s (foldl prefetchStep s ps).
Proof.
  revert s. induction ps as [|p ps IH]; intros s Hcov; cbn [foldl].
  - apply quiet_refl.
  - apply allCovered_cons in Hcov as [Hc1 Hc2].
    pose proof (prefetchStep_quiet s p Hc1) as Hq.
    eapply quiet_trans; [exact Hq|]. apply IH. eapply quiet_allCovered; eassumption.
Qed.

Lemma updateHighlightWindow_eq s d c :
  currentDoc s = Some d → currentCenterPage s = Some c →
  updateHighlightWindow s =
  let s1 := foldl (evictStep (windowStart c) (windowEnd d c)) s (highlightedPages s) in
  let s2 := foldl windowStep s1 (windowPages d c) in
  foldl prefetchStep s2 (prefetchPages d c (scrollDirection s2)).
Proof.
  intros Hd Hc. unfold updateHighlightWindow. rewrite Hd, Hc.
  unfold bufferedHighlightMode. cbn [negb]. cbv zeta.
  fold (windowStart c). fold (windowEnd d c). fold (windowPages d c).
  unfold prefetchPages.
  destruct (_ =? 0); [reflexivity|]. destruct (0 <? _); reflexivity.
Qed.

Lemma elem_of_windowPages d c x :
  x ∈ windowPages d c ↔ windowStart c ≤ x ≤ windowEnd d c.
Proof. unfold windowPages, range_up. rewrite elem_of_seqZ. lia. Qed.

(** What a pass over the window establishes. *)
Lemma updateHighlightWindow_settles s d c :
  currentDoc s = Some d → currentCenterPage s = Some c →
  let u := updateHighlightWindow s in
  painting u = painting s
  ∧ (∀ x, x ∈ highlightedPages u → x ∈ windowPages d c)
  ∧ allCovered u (windowPages d c)
  ∧ allShown u (windowPages d c)
  ∧ allCovered u (prefetchPages d c (scrollDirection s)).
Proof.
  intros Hd Hc. rewrite (updateHighlightWindow_eq s d c Hd Hc). cbv zeta.
  set (a := windowStart c). set (b := windowEnd d c).
  destruct (foldl_evictStep_post a b (highlightedPages s) s) as (P1 & T1 & R1 & H1).
  set (s1 := foldl (evictStep a b) s (highlightedPages s)) in *.
  destruct (foldl_windowStep_post (windowPages d c) s1) as (P2 & H2 & C2 & K2).
  set (s2 := foldl windowStep s1 (windowPages d c)) in *.
  destruct (foldl_prefetchStep_post (prefetchPages d c (scrollDirection s2)) s2)
    as (P3 & C3 & K3).
  set (u := foldl prefetchStep s2 _) in *.
  apply painting_fields in P1 as F1. destruct F1 as (Ec1 & Em1 & _ & _ & Ed1).
  apply painting_fields in P2 as F2. destruct F2 as (Ec2 & Em2 & _ & _ & Ed2).
  assert (Eh3 : highlightedPages u = highlightedPages s2) by exact (f_equal highlightedPages P3).
  assert (Ec3 : pageCache u = pageCache s2) by exact (f_equal pageCache P3).
  assert (Em3 : matchPageSet u = matchPageSet s2) by exact (f_equal matchPageSet P3).
  split; [rewrite (painting_plumbing _ _ P3); congruence|]. split; [|split; [|split]].
  - intros x. rewrite Eh3, H2, H1. intros [[Hx Hn]|(Hx & _)]; [|exact Hx].
    apply elem_of_windowPages. fold a b.
    destruct (decide (a ≤ x ≤ b)) as [|Hout]; [assumption|]. exfalso. apply Hn. now split.
  - intros p Hp Hm. apply C3, K2; [exact Hp | now rewrite <- Em3].
  - intros p Hp Hm Hcached. rewrite Eh3. apply H2. right.
    rewrite Em3, Em2 in Hm. rewrite Ec3, Ec2 in Hcached. now repeat split.
  - rewrite <- Ed1, <- Ed2. exact K3.
Qed.

(** A pass over a window that is up to date changes nothing but promises. *)
Lemma updateHighlightWindow_quiet s d c :
  currentDoc s = Some d → currentCenterPage s = Some c →
  (∀ x, x ∈ highlightedPages s → x ∈ windowPages d c) →
  allCovered s (windowPages d c) → allShown s (windowPages d c) →
  allCovered s (prefetchPages d c (scrollDirection s)) →
  quiet s (updateHighlightWindow s).
Proof.
  intros Hd Hc Hin Hcov Hshown Hpre.
  rewrite (updateHighlightWindow_eq s d c Hd Hc). cbv zeta.
  rewrite foldl_evictStep_inside
    by (intros p Hp; apply elem_of_windowPages, Hin, Hp).
  pose proof (foldl_windowStep_quiet _ s Hcov Hshown) as Hq.
  set (s2 := foldl windowStep s (windowPages d c)) in *.
  eapply quiet_trans; [exact Hq|].
  apply foldl_prefetchStep_quiet.
  destruct Hq as (A & _). rewrite (f_equal scrollDirection A : scrollDirection s2 = _).
  eapply quiet_allCovered; [|exact Hpre].
  exact (foldl_windowStep_quiet _ s Hcov Hshown).
Qed.

(** ** Painting a page *)

Lemma boxOf_percent tok x0 y0 x1 y1 :
  bbox tok = (x0, y0, x1, y1) →
  boxOf tok = {| box_left := x0 * 100; box_top := y0 * 100;
                 box_width := (x1 - x0) * 100; box_height := (y1 - y0) * 100 |}%Q.
Proof. intros H. unfold boxOf. now rewrite H. Qed.

Lemma filter_isTarget_nil toks : filter (isTarget []) toks = [].
Proof.
  induction toks as [|t toks IH]; [reflexivity|].
  rewrite filter_cons. destruct (decide (isTarget [] t)) as [H|_]; [|exact IH].
  unfold isTarget in H. now apply elem_of_nil in H.
Qed.

Lemma boxesOf_insert el el' bs s :
  boxesOf el' (with_hlBoxes (<[el := bs]> (hlBoxes s)) s)
  = if decide (el = el') then bs else boxesOf el' s.
Proof.
  unfold boxesOf. cbn. rewrite lookup_insert. destruct (decide (el = el')); reflexivity.
Qed.

(** What [highlightPageMatches] does to the boxes, the record of the page
    pointing to the page's element. *)
Lemma highlightPageMatches_boxes s p cache append :
  pageCache s !! p = Some cache → queryPage p s = Some (overlay cache) →
  (currentWords s = [] → boxesOf (overlay cache) s = []) →
  let s' := highlightPageMatches p append s in
  boxesOf (overlay cache) s'
  = (if append then boxesOf (overlay cache) s else [])
    ++ (boxOf <$> filter (isTarget (currentWords s)) (tokens cache))
  ∧ ∀ el, el ≠ overlay cache → boxesOf el s' = boxesOf el s.
Proof.
  intros Hc Hq Hempty. unfold highlightPageMatches. rewrite Hc.
  destruct (currentWords s) as [|w ws] eqn:Hw.
  - cbv zeta. rewrite filter_isTarget_nil, app_nil_r.
    split; [|reflexivity]. rewrite (Hempty eq_refl). now destruct append.
  - cbv zeta. destruct append.
    + split.
      * unfold boxesOf at 1. cbn. rewrite lookup_insert_eq. reflexivity.
      * intros el Hne. unfold boxesOf. cbn. now rewrite lookup_insert_ne.
    + unfold clearHighlightsOnPage. rewrite Hq. split.
      * unfold boxesOf. cbn. rewrite !lookup_insert_eq. reflexivity.
      * intros el Hne. unfold boxesOf. cbn. now rewrite !lookup_insert_ne.
Qed.

(** ** Reachable states *)

Lemma drain_reachable fuel s s' : reachable s → drain fuel s = Some s' → reachable s'.
Proof.
  revert s. induction fuel as [|fuel IH]; intros s Hr; cbn [drain].
  - destruct (firstReady s 0 (tasks s)); [discriminate|]. now intros [= <-].
  - destruct (firstReady s 0 (tasks s)) as [i|]; [|now intros [= <-]].
    destruct (runTask i s) as [s1|] eqn:E; [|discriminate].
    apply IH. exact (reachable_step s (Resume i) s1 Hr E).
Qed.

Lemma dispatch_reachable fuel e s s' :
  reachable s → dispatch fuel e s = Some s' → reachable s'.
Proof.
  intros Hr. unfold dispatch. destruct (handle e s) as [s1|] eqn:E; [|discriminate].
  apply drain_reachable. exact (reachable_step s (Env e) s1 Hr E).
Qed.

Lemma dispatchAll_reachable fuel es s s' :
  reachable s → dispatchAll fuel es s = Some s' → reachable s'.
Proof.
  revert s. induction es as [|e es IH]; intros s Hr; cbn [dispatchAll].
  - now intros [= <-].
  - destruct (dispatch fuel e s) as [s1|] eqn:E; [|discriminate].
    apply IH. exact (dispatch_reachable _ _ _ _ Hr E).
Qed.

Lemma answerPage_reachable fuel p o s s' :
  reachable s → answerPage fuel p o s = Some s' → reachable s'.
Proof.
  intros Hr. unfold answerPage.
  destruct (dispatch fuel _ s) as [s1|] eqn:E; [|discriminate]. cbn.
  pose proof (dispatch_reachable _ _ _ _ Hr E) as Hr1.
  destruct (pageCache s1 !! p) as [record|]; [|now intros [= <-]].
  now apply dispatch_reachable.
Qed.

Lemma play_reachable ms s s' : reachable s → play ms s = Some s' → reachable s'.
Proof.
  revert s. induction ms as [|m ms IH]; intros s Hr; cbn [play].
  - intros E. injection E as <-. exact Hr.
  - destruct (play1 m s) as [s1|] eqn:E; [|discriminate].
    apply IH. destruct m as [e|p o]; cbn [play1] in E.
    + exact (dispatch_reachable _ _ _ _ Hr E).
    + exact (answerPage_reachable _ _ _ _ _ Hr E).
Qed.

Lemma uploaded_reachable s : uploaded = Some s → reachable s.
Proof. apply dispatchAll_reachable, reachable_initial. Qed.

Lemma twoPages_reachable s : twoPages = Some s → reachable s.
Proof.
  unfold twoPages. destruct uploaded as [s0|] eqn:E0; [|discriminate]. cbn.
  destruct (answerPage 20 1 _ s0) as [s1|] eqn:E1; [|discriminate]. cbn.
  intros E2. apply uploaded_reachable in E0.
  eapply answerPage_reachable; [|exact E2].
  eapply answerPage_reachable; [|exact E1]. exact E0.
Qed.

(** ** The order of the pages, in every state *)

Lemma sorted_lookup_lt (l : list (nat * Z)) i j a b :
  StronglySorted before l → l !! i = Some a → l !! j = Some b → (i < j)%nat → before a b.
Proof.
  intros Hs. revert i j. induction Hs as [|x l Hs IH Hx]; intros i j Ha Hb Hlt.
  - now rewrite lookup_nil in Ha.
  - destruct i as [|i], j as [|j]; try lia; cbn in Ha, Hb.
    + injection Ha as <-. rewrite Forall_forall in Hx. apply Hx.
      eapply list_elem_of_lookup_2. exact Hb.
    + apply (IH i j Ha Hb). lia.
Qed.

Lemma sorted_inOrder l : StronglySorted before l → inOrder l.
Proof.
  intros Hs i j e1 e2 H1 H2 Hlt.
  destruct (Nat.lt_trichotomy i j) as [?|[->|Hgt]]; [assumption| |].
  - rewrite H1 in H2. injection H2 as <-. lia.
  - pose proof (sorted_lookup_lt l j i e2 e1 Hs H2 H1 Hgt) as Hb. unfold before in Hb. lia.
Qed.

(** C4. In every state the viewer reaches, a page element with a smaller
    page number stands before one with a greater page number in the document,
    whatever the order in which the pages arrived; and the insertion of a page
    by [ensurePageLoaded] ([insertPageInOrder], then [dedupePageDom]) leaves
    the document in that order. *)
Theorem pages_in_order (s : State) :
  reachable s →
  inOrder (pagesDiv s)
  ∧ ∀ pageNum data ret, inOrder (pagesDiv (renderPage pageNum data ret s)).
Proof.
  intros Hr. pose proof (reachable_ordered s Hr) as Ho. split.
  - apply sorted_inOrder, Ho.
  - intros p data ret. apply sorted_inOrder.
    exact (proj1 (renderPage_ordered p data ret s Ho)).
Qed.

(** ** The scenarios *)

Example outOfOrder_pages :
  pagesDiv <$> outOfOrder = Some [(1%nat, 2); (0%nat, 4)].
Proof. vm_compute. reflexivity. Qed.

Lemma twoPages_pages : pagesDiv <$> twoPages = Some [(0%nat, 1); (1%nat, 2)].
Proof. vm_compute. reflexivity. Qed.

Lemma pages_in_order_witness :
  ∃ s, twoPages = Some s ∧ reachable s ∧ (0 < 1)%nat.
Proof.
  pose proof twoPages_pages as E.
  destruct twoPages as [s|] eqn:Es; [|discriminate].
  injection E as E. exists s. split; [reflexivity|].
  pose proof (twoPages_reachable s Es) as Hr. split; [exact Hr|].
  apply (proj1 (pages_in_order s Hr) 0%nat 1%nat (0%nat, 1) (1%nat, 2)).
  - now rewrite E.
  - now rewrite E.
  - cbn. lia.
Defined.

(** C6, as amended.  Ten pages, match set {2,4,9}, no page loaded:
    [setCenter(4)] gives the window [2,6] and, once the pages 2 and 4 have
    arrived, the highlighted pages {2,4}, page 9 neither requested nor loaded.
    [setCenter(9)] then gives the window [7,10], takes the boxes off the pages 2
    and 4 and the pages out of the set, and requests page 9, which is
    highlighted when it arrives.  No other page is requested, whether the scroll
    direction is +1 or -1: page 11 is beyond the document, and the pages 10 and
    6 are not in the match set. *)
Theorem window_scenario :
  observed <$> windowAt4
  = Some (Some (2, 6), [2; 4], [2; 4], false, [alphaBox], [alphaBox], [])
  ∧ observed <$> windowAt9 1
    = Some (Some (7, 10), [9], [2; 4; 9], true, [], [], [alphaBox])
  ∧ observed <$> windowAt9 (-1)
    = Some (Some (7, 10), [9], [2; 4; 9], true, [], [], [alphaBox]).
Proof. repeat split; vm_compute; reflexivity. Qed.

(** The claim C6 as stated fails: page 10 is not prefetched when the scroll
    direction is +1, and page 6 is not when it is -1. *)
Lemma window_scenario_no_prefetch : ¬ prefetches 1 10 ∧ ¬ prefetches (-1) 6.
Proof.
  assert (E1 : requestedPages <$> windowAt9 1 = Some [2; 4; 9]) by (vm_compute; reflexivity).
  assert (E2 : requestedPages <$> windowAt9 (-1) = Some [2; 4; 9])
    by (vm_compute; reflexivity).
  split; intros (s & Hs & Hin).
  - rewrite Hs in E1. injection E1 as Hreq. rewrite Hreq in Hin.
    repeat (apply elem_of_cons in Hin as [Hin|Hin]; [discriminate Hin|]).
    now apply elem_of_nil in Hin.
  - rewrite Hs in E2. injection E2 as Hreq. rewrite Hreq in Hin.
    repeat (apply elem_of_cons in Hin as [Hin|Hin]; [discriminate Hin|]).
    now apply elem_of_nil in Hin.
Qed.

Lemma failedLoad_reachable s : failedLoad = Some s → reachable s.
Proof. unfold failedLoad. apply play_reachable, reachable_initial. Qed.

Lemma movedWindow_reachable s : movedWindow = Some s → reachable s.
Proof. unfold movedWindow. apply play_reachable, reachable_initial. Qed.

(** C1 at its failing inputs, both reached by sessions of the viewer.  In
    the first every load of page 4 fails: once the load that [setCenter(4)]
    started is over, page 4 is in the set of highlighted pages and has no
    record.  In the second the window moves to [7,10] while page 5 loads: once
    the page is there it is painted and highlighted outside the window.  In
    both states no load of the page is left, and the invariant of the window
    is broken. *)
Theorem window_invariant_broken :
  (∃ s, failedLoad = Some s ∧ reachable s
        ∧ highlightWindow s = Some (2, 6) ∧ highlightedPages s = [4]
        ∧ pageCache s !! 4 = None ∧ pageLoadPromises s !! 4 = None
        ∧ statusMsg s = "Page 4 load error: network error"%string
        ∧ ¬ windowInvariant s)
  ∧ (∃ s, movedWindow = Some s ∧ reachable s
          ∧ highlightWindow s = Some (7, 10) ∧ highlightedPages s = [9; 5]
          ∧ boxesOnPage 5 s = [alphaBox] ∧ pageLoadPromises s !! 5 = None
          ∧ ¬ windowInvariant s).
Proof.
  assert (E1 : (λ s, (highlightWindow s, highlightedPages s, pageCache s !! 4,
                      pageLoadPromises s !! 4, statusMsg s)) <$> failedLoad
               = Some (Some (2, 6), [4], None, None,
                       "Page 4 load error: network error"%string))
    by (vm_compute; reflexivity).
  assert (E2 : (λ s, (highlightWindow s, highlightedPages s, boxesOnPage 5 s,
                      pageLoadPromises s !! 5)) <$> movedWindow
               = Some (Some (7, 10), [9; 5], [alphaBox], None))
    by (vm_compute; reflexivity).
  pose proof failedLoad_reachable as R1. pose proof movedWindow_reachable as R2.
  split.
  - destruct failedLoad as [s|]; [|discriminate E1].
    injection E1 as Hw Hh Hc Ht Hm. exists s.
    split; [reflexivity|]. split; [exact (R1 s eq_refl)|].
    repeat (split; [assumption|]).
    intros Hinv. specialize (Hinv 4). rewrite Hh, Hc in Hinv.
    destruct (proj1 Hinv (list_elem_of_here _ _)) as (_ & _ & [? Hx]). discriminate Hx.
  - destruct movedWindow as [s|]; [|discriminate E2].
    injection E2 as Hw Hh Hb Ht. exists s.
    split; [reflexivity|]. split; [exact (R2 s eq_refl)|].
    repeat (split; [assumption|]).
    intros Hinv. specialize (Hinv 5). rewrite Hh, Hw in Hinv.
    assert (Hin : 5 ∈ [9; 5]) by (apply list_elem_of_further, list_elem_of_here).
    destruct (proj1 Hinv Hin) as ((a & b & Hab & Hle) & _).
    injection Hab as <- <-. lia.
Qed.




(** ** Records, page elements and boxes in every state *)

Lemma find_app_none {A} (f : A → bool) l1 l2 :
  List.find f l1 = None → List.find f (l1 ++ l2) = List.find f l2.
Proof.
  induction l1 as [|x l1 IH]; [reflexivity|]. cbn.
  destruct (f x); [discriminate | exact IH].
Qed.

Lemma find_none_forall {A} (f : A → bool) l :
  Forall (λ x, f x = false) l → List.find f l = None.
Proof. induction 1 as [|x l Hx _ IH]; [reflexivity|]. cbn. now rewrite Hx. Qed.

Lemma find_filter_keep {A} (f : A → bool) (P : A → Prop) `{∀ x, Decision (P x)} l :
  (∀ x, f x = true → P x) → List.find f (filter P l) = List.find f l.
Proof.
  intros Hf. induction l as [|x l IH]; [reflexivity|].
  rewrite filter_cons. cbn. destruct (decide (P x)) as [Hp|Hn]; cbn.
  - now rewrite IH.
  - destruct (f x) eqn:E; [exfalso; apply Hn, Hf, E | exact IH].
Qed.

Lemma find_app {A} (f : A → bool) l1 l2 :
  List.find f (l1 ++ l2)
  = match List.find f l1 with Some x => Some x | None => List.find f l2 end.
Proof.
  induction l1 as [|x l1 IH]; [reflexivity|]. cbn. destruct (f x); [reflexivity | exact IH].
Qed.

Lemma filter_ext_elem {A} (P Q : A → Prop) `{∀ x, Decision (P x)} `{∀ x, Decision (Q x)}
    (l : list A) :
  (∀ x, x ∈ l → (P x ↔ Q x)) → filter P l = filter Q l.
Proof.
  induction l as [|x l IH]; intros HPQ; [reflexivity|].
  rewrite !filter_cons.
  assert (Hl : filter P l = filter Q l).
  { apply IH. intros y Hy. apply HPQ. now apply list_elem_of_further. }
  pose proof (HPQ x (list_elem_of_here _ _)) as Hx.
  destruct (decide (P x)), (decide (Q x)); try tauto; now rewrite Hl.
Qed.

Lemma NoDup_fmap_elem {A B} (f : A → B) (l : list A) x y :
  NoDup (f <$> l) → x ∈ l → y ∈ l → f x = f y → x = y.
Proof.
  induction l as [|a l IH]; intros Hnd Hx Hy E.
  - now apply elem_of_nil in Hx.
  - cbn in Hnd. apply NoDup_cons in Hnd as [Hna Hnd].
    apply elem_of_cons in Hx as [->|Hx]; apply elem_of_cons in Hy as [->|Hy].
    + reflexivity.
    + exfalso. apply Hna. rewrite E. apply list_elem_of_fmap. now exists y.
    + exfalso. apply Hna. rewrite <- E. apply list_elem_of_fmap. now exists x.
    + now apply IH.
Qed.

(** The document after a page element is inserted and duplicates are
    removed, the identifiers being distinct: the elements of other pages stay,
    the new element is the only one of its page. *)
Lemma render_shape n p l :
  StronglySorted before l → Forall (λ e, (e.1 < n)%nat) l → NoDup l.*1 →
  ∃ l1 l2, l = l1 ++ l2
    ∧ dedupeList p (insertBeforeGreater (n, p) l)
      = filter (λ e, e.2 ≠ p) l1 ++ (n, p) :: l2
    ∧ Forall (λ e, p < e.2) l2.
Proof.
  intros Hs Hid Hnd.
  destruct (insertBeforeGreater_split (n, p) l Hs) as (l1 & l2 & -> & -> & H1 & H2).
  cbn in H1, H2. exists l1, l2. split; [reflexivity|]. split; [|exact H2].
  apply Forall_app in Hid as [Hid1 Hid2].
  assert (Hno2 : filter (λ e : nat * Z, e.2 = p) l2 = []).
  { apply filter_empty_iff. eapply Forall_impl; [exact H2|]. cbn. intros; lia. }
  set (old := filter (λ e : nat * Z, e.2 = p) l1).
  assert (Hnodes : filter (λ e : nat * Z, e.2 = p) (l1 ++ (n, p) :: l2) = old ++ [(n, p)]).
  { rewrite filter_app, filter_cons. cbn. rewrite decide_True by reflexivity.
    now rewrite Hno2. }
  unfold dedupeList. cbv zeta. rewrite Hnodes, length_app. cbn.
  destruct (Nat.leb_spec (length old + 1) 1) as [Hle|Hgt].
  - assert (Hold : old = []) by (apply length_zero_iff_nil; lia).
    apply filter_empty_iff in Hold. f_equal.
    symmetry. clear -Hold. induction Hold as [|x l Hx _ IH]; [reflexivity|].
    rewrite filter_cons, decide_True by exact Hx. now f_equal.
  - replace (length old + 1 - 1)%nat with (length old) by lia.
    rewrite take_app_length, filter_app, filter_cons.
    assert (Hfresh : (n, p).1 ∉ old.*1).
    { cbn. intros Hin. apply list_elem_of_fmap in Hin as (x & Hx & Hin).
      apply list_elem_of_filter in Hin as [_ Hin].
      rewrite Forall_forall in Hid1. specialize (Hid1 _ Hin). lia. }
    rewrite decide_True by exact Hfresh.
    rewrite fmap_app in Hnd. apply NoDup_app in Hnd as (Hnd1 & Hdis & Hnd2).
    f_equal; [|f_equal].
    + (* on the pages up to p, the identifiers of the old elements select them *)
      apply filter_ext_elem. intros x Hx. split.
      * intros Hk Hp. apply Hk. apply list_elem_of_fmap. exists x.
        split; [reflexivity|]. apply list_elem_of_filter. now split.
      * intros Hp Hk. apply list_elem_of_fmap in Hk as (y & Hy & Hin).
        apply list_elem_of_filter in Hin as [Hyp Hin].
        assert (x = y) by exact (NoDup_fmap_elem fst l1 x y Hnd1 Hx Hin Hy).
        congruence.
    + (* the pages beyond p keep their elements *)
      assert (Hall : Forall (λ e : nat * Z, e.1 ∉ old.*1) l2).
      { apply Forall_forall. intros x Hx Hk. apply (Hdis x.1).
        - apply list_elem_of_fmap in Hk as (y & Hy & Hin).
          apply list_elem_of_filter in Hin as [_ Hin].
          apply list_elem_of_fmap. now exists y.
        - apply list_elem_of_fmap. now exists x. }
      clear -Hall. induction Hall as [|x l Hx _ IH]; [reflexivity|].
      rewrite filter_cons, decide_True by exact Hx. now f_equal.
Qed.

Lemma hlBoxes_renderPage p data ret s : hlBoxes (renderPage p data ret s) = hlBoxes s.
Proof.
  unfold renderPage. cbv zeta. unfold send, newPromise. cbn [fst snd].
  rewrite dedupePageDom_eq, insertPageInOrder_eq. reflexivity.
Qed.

Lemma pageCache_renderPage p data ret s :
  pageCache (renderPage p data ret s)
  = <[p := {| tokens := data_tokens data; text := data_text data;
              imageLoadedPromise := nextPid s; overlay := nextEl s |}]> (pageCache s).
Proof. apply (skeleton_inv _ _ _ _ _ _ (renderPage_skeleton p data ret s)). Qed.

Lemma currentWords_renderPage p data ret s :
  currentWords (renderPage p data ret s) = currentWords s.
Proof. apply (skeleton_inv _ _ _ _ _ _ (renderPage_skeleton p data ret s)). Qed.

Lemma queryPage_find p s :
  queryPage p s = fst <$> List.find (λ e : nat * Z, e.2 =? p) (pagesDiv s).
Proof. reflexivity. Qed.

(** Rendering a page keeps records, elements and boxes together. *)
Lemma renderPage_domInv p data ret s : domInv s → domInv (renderPage p data ret s).
Proof.
  intros (Hord & Hnd & Hlink & Hstale & Hfresh).
  pose proof (renderPage_ordered p data ret s Hord) as Hord'.
  destruct Hord as [Hs Hid].
  destruct (render_shape (nextEl s) p (pagesDiv s) Hs Hid Hnd) as (l1 & l2 & El & Eshape & H2).
  pose proof (pagesDiv_renderPage p data ret s) as Ediv. rewrite Eshape in Ediv.
  assert (Hnone : List.find (λ e : nat * Z, e.2 =? p) (filter (λ e : nat * Z, e.2 ≠ p) l1) = None).
  { apply find_none_forall, Forall_forall. intros x Hx.
    apply list_elem_of_filter in Hx as [Hx _]. now apply Z.eqb_neq. }
  split; [exact Hord'|]. split; [|split; [|split]].
  - (* distinct identifiers *)
    rewrite Ediv, fmap_app, fmap_cons. rewrite El, fmap_app in Hnd.
    apply NoDup_app in Hnd as (Hnd1 & Hdis & Hnd2).
    rewrite El in Hid. apply Forall_app in Hid as [Hid1 Hid2].
    apply NoDup_app. split; [|split].
    + apply (sublist_NoDup _ l1.*1); [exact Hnd1|].
      apply fmap_sublist, sublist_filter.
    + intros x Hx Hin. apply list_elem_of_fmap in Hx as (y & -> & Hy).
      apply list_elem_of_filter in Hy as [_ Hy].
      apply elem_of_cons in Hin as [Hin|Hin].
      * rewrite Forall_forall in Hid1. specialize (Hid1 _ Hy). cbn in Hin. lia.
      * apply (Hdis y.1); [|exact Hin]. apply list_elem_of_fmap. now exists y.
    + apply NoDup_cons. split; [|exact Hnd2].
      intros Hin. apply list_elem_of_fmap in Hin as (y & Hy & Hin).
      rewrite Forall_forall in Hid2. specialize (Hid2 _ Hin). cbn in Hy. lia.
  - (* the records point to the elements *)
    intros q record. rewrite pageCache_renderPage, queryPage_find, Ediv, find_app.
    destruct (decide (p = q)) as [<-|Hne].
    + rewrite lookup_insert_eq. intros [= <-]. rewrite Hnone. cbn.
      now rewrite Z.eqb_refl.
    + rewrite lookup_insert_ne by exact Hne. intros Hq.
      specialize (Hlink q record Hq). rewrite queryPage_find, El, find_app in Hlink.
      rewrite find_filter_keep.
      2: { intros x Hx. apply Z.eqb_eq in Hx. congruence. }
      destruct (List.find _ l1); [exact Hlink|]. cbn.
      destruct (Z.eqb_spec p q); [contradiction | exact Hlink].
  - (* no boxes without words *)
    intros Hw e He. rewrite currentWords_renderPage in Hw.
    unfold boxesOf. rewrite hlBoxes_renderPage.
    rewrite Ediv in He. apply elem_of_app in He as [He|He].
    + apply list_elem_of_filter in He as [_ He].
      apply (Hstale Hw). rewrite El. apply elem_of_app. now left.
    + apply elem_of_cons in He as [->|He].
      * cbn. now rewrite (Hfresh (nextEl s)) by lia.
      * apply (Hstale Hw). rewrite El. apply elem_of_app. now right.
  - (* new elements come without boxes *)
    intros el Hel. rewrite nextEl_renderPage in Hel. rewrite hlBoxes_renderPage.
    apply Hfresh. lia.
Qed.

(** *** The painting functions *)

Lemma boxesRel_refl s : boxesRel s s.
Proof. intros el. now left. Qed.

Lemma boxesRel_same s s' : hlBoxes s' = hlBoxes s → boxesRel s s'.
Proof. intros E el. left. now rewrite E. Qed.

Lemma queryPage_elem p s el : queryPage p s = Some el → (el, p) ∈ pagesDiv s.
Proof.
  rewrite queryPage_find. destruct (List.find _ _) as [[el' p']|] eqn:E; [|discriminate].
  intros [= <-]. apply List.find_some in E as [Hin Hp]. cbn in Hp.
  apply Z.eqb_eq in Hp as ->. now apply list_elem_of_In.
Qed.

Lemma queryPage_lt p s el : linked s → queryPage p s = Some el → (el < nextEl s)%nat.
Proof.
  intros [_ Hid] Hq. apply queryPage_elem in Hq.
  rewrite Forall_forall in Hid. exact (Hid _ Hq).
Qed.

Lemma boxesRel_clearHighlightsOnPage p s :
  linked s → boxesRel s (clearHighlightsOnPage p s).
Proof.
  intros Hl. unfold clearHighlightsOnPage.
  destruct (queryPage p s) as [el|] eqn:Hq; [|apply boxesRel_refl].
  intros el'. cbn. destruct (decide (el = el')) as [<-|Hne].
  - right. split; [exact (queryPage_lt p s el Hl Hq)|]. intros _. apply lookup_insert_eq.
  - left. now apply lookup_insert_ne.
Qed.

Lemma boxesRel_clearAllHighlights s : linked s → boxesRel s (clearAllHighlights s).
Proof.
  intros [_ Hid]. unfold clearAllHighlights.
  assert (H : ∀ l (m : gmap nat (list Box)) el,
            Forall (λ e : nat * Z, (e.1 < nextEl s)%nat) l →
            foldl (λ m e, <[e.1 := []]> m) m l !! el = m !! el
            ∨ ((el < nextEl s)%nat ∧ foldl (λ m e, <[e.1 := []]> m) m l !! el = Some ([] : list Box))).
  { induction l as [|e l IH]; intros m el Hall; [now left|].
    apply Forall_cons in Hall as [He Hall]. cbn [foldl].
    destruct (IH (<[e.1 := []]> m) el Hall) as [E|[Hlt E]]; [|right; now split].
    rewrite E. destruct (decide (e.1 = el)) as [<-|Hne].
    - right. split; [exact He | apply lookup_insert_eq].
    - left. now apply lookup_insert_ne. }
  intros el. cbn. destruct (H (pagesDiv s) (hlBoxes s) el Hid) as [E|[Hlt E]].
  - now left.
  - right. split; [exact Hlt | intros _; exact E].
Qed.

Lemma boxesRel_highlightPageMatches p a s :
  linked s → boxesRel s (highlightPageMatches p a s).
Proof.
  intros Hl. unfold highlightPageMatches.
  destruct (pageCache s !! p) as [cache|] eqn:Hc; [|apply boxesRel_refl].
  destruct (currentWords s) as [|w ws] eqn:Hw; [apply boxesRel_refl|].
  cbv zeta. pose proof (proj1 Hl p cache Hc) as Hq.
  pose proof (queryPage_lt p s _ Hl Hq) as Hlt.
  intros el. destruct (decide (overlay cache = el)) as [<-|Hne].
  - right. split; [exact Hlt | intros Hw'; rewrite Hw in Hw'; discriminate Hw'].
  - left. destruct a; cbn.
    + now apply lookup_insert_ne.
    + rewrite lookup_insert_ne by exact Hne.
      unfold clearHighlightsOnPage. rewrite Hq. cbn. now apply lookup_insert_ne.
Qed.

(** *** Operations that only repaint *)

Create HintDb paint discriminated.

Lemma paints_refl s : paints s s.
Proof. split; [reflexivity | intros _; apply boxesRel_refl]. Qed.

Lemma linked_frame s t : (skeleton t).1 = (skeleton s).1 → linked s → linked t.
Proof.
  intros E [Hl Hid].
  assert (Ed : pagesDiv t = pagesDiv s) by exact (f_equal (λ x, x.1.1.1) E).
  assert (En : nextEl t = nextEl s) by exact (f_equal (λ x, x.1.1.2) E).
  assert (Ec : pageCache t = pageCache s) by exact (f_equal (λ x, x.1.2) E).
  split.
  - intros p record. rewrite Ec, queryPage_find, Ed. apply Hl.
  - now rewrite Ed, En.
Qed.

Lemma paints_trans s t u : paints s t → paints t u → paints s u.
Proof.
  intros [E1 H1] [E2 H2]. split; [congruence|]. intros Hl el.
  assert (En : nextEl t = nextEl s) by exact (f_equal (λ x, x.1.1.2) E1).
  assert (Ew : currentWords t = currentWords s) by exact (f_equal snd E1).
  destruct (H2 (linked_frame s t E1 Hl) el) as [E|[Hlt Hw]].
  - rewrite E. exact (H1 Hl el).
  - right. rewrite <- En, <- Ew. now split.
Qed.

Lemma paints_ext s t u :
  (skeleton u).1 = (skeleton t).1 → hlBoxes u = hlBoxes t → paints s t → paints s u.
Proof.
  intros E Eb H. apply (paints_trans s t u H).
  split; [exact E | intros _; now apply boxesRel_same].
Qed.

Lemma paints_plumbing s t u : plumbing u = plumbing t → paints s t → paints s u.
Proof.
  intros E. apply paints_ext.
  - exact (f_equal (λ x, (skeleton x).1) E).
  - exact (f_equal hlBoxes E).
Qed.

Hint Resolve paints_refl | 20 : paint.
Lemma paints_currentDoc v s t : paints s t → paints s (with_currentDoc v t).
Proof. apply paints_ext; reflexivity. Qed.
Lemma paints_searchResults v s t : paints s t → paints s (with_searchResults v t).
Proof. apply paints_ext; reflexivity. Qed.
Lemma paints_currentSelectedPage v s t : paints s t → paints s (with_currentSelectedPage v t).
Proof. apply paints_ext; reflexivity. Qed.
Lemma paints_currentScale v s t : paints s t → paints s (with_currentScale v t).
Proof. apply paints_ext; reflexivity. Qed.
Lemma paints_pageLoadPromises v s t : paints s t → paints s (with_pageLoadPromises v t).
Proof. apply paints_ext; reflexivity. Qed.
Lemma paints_matchPageSet v s t : paints s t → paints s (with_matchPageSet v t).
Proof. apply paints_ext; reflexivity. Qed.
Lemma paints_seamlessHighlightActive v s t : paints s t → paints s (with_seamlessHighlightActive v t).
Proof. apply paints_ext; reflexivity. Qed.
Lemma paints_currentCenterPage v s t : paints s t → paints s (with_currentCenterPage v t).
Proof. apply paints_ext; reflexivity. Qed.
Lemma paints_highlightedPages v s t : paints s t → paints s (with_highlightedPages v t).
Proof. apply paints_ext; reflexivity. Qed.
Lemma paints_scrollDirection v s t : paints s t → paints s (with_scrollDirection v t).
Proof. apply paints_ext; reflexivity. Qed.
Lemma paints_programmaticScrollInProgress v s t : paints s t → paints s (with_programmaticScrollInProgress v t).
Proof. apply paints_ext; reflexivity. Qed.
Lemma paints_pageObserver v s t : paints s t → paints s (with_pageObserver v t).
Proof. apply paints_ext; reflexivity. Qed.
Lemma paints_currentJumpToken v s t : paints s t → paints s (with_currentJumpToken v t).
Proof. apply paints_ext; reflexivity. Qed.
Lemma paints_statusMsg v s t : paints s t → paints s (with_statusMsg v t).
Proof. apply paints_ext; reflexivity. Qed.
Lemma paints_pageText v s t : paints s t → paints s (with_pageText v t).
Proof. apply paints_ext; reflexivity. Qed.
Lemma paints_resultRows v s t : paints s t → paints s (with_resultRows v t).
Proof. apply paints_ext; reflexivity. Qed.
Lemma paints_activeRow v s t : paints s t → paints s (with_activeRow v t).
Proof. apply paints_ext; reflexivity. Qed.
Lemma paints_promises v s t : paints s t → paints s (with_promises v t).
Proof. apply paints_ext; reflexivity. Qed.
Lemma paints_nextPid v s t : paints s t → paints s (with_nextPid v t).
Proof. apply paints_ext; reflexivity. Qed.
Lemma paints_tasks v s t : paints s t → paints s (with_tasks v t).
Proof. apply paints_ext; reflexivity. Qed.
Lemma paints_requests v s t : paints s t → paints s (with_requests v t).
Proof. apply paints_ext; reflexivity. Qed.
Lemma paints_scrollLog v s t : paints s t → paints s (with_scrollLog v t).
Proof. apply paints_ext; reflexivity. Qed.
Lemma paints_paintLog v s t : paints s t → paints s (with_paintLog v t).
Proof. apply paints_ext; reflexivity. Qed.
Lemma paints_timers v s t : paints s t → paints s (with_timers v t).
Proof. apply paints_ext; reflexivity. Qed.
Lemma paints_disconnected v s t : paints s t → paints s (with_disconnected v t).
Proof. apply paints_ext; reflexivity. Qed.
Hint Resolve paints_currentDoc paints_searchResults paints_currentSelectedPage
  paints_currentScale paints_pageLoadPromises paints_matchPageSet
  paints_seamlessHighlightActive paints_currentCenterPage
  paints_highlightedPages paints_scrollDirection
  paints_programmaticScrollInProgress paints_pageObserver
  paints_currentJumpToken paints_statusMsg paints_pageText paints_resultRows
  paints_activeRow paints_promises paints_nextPid paints_tasks paints_requests
  paints_scrollLog paints_paintLog paints_timers paints_disconnected : paint.

Lemma paints_setStatus m s t : paints s t → paints s (setStatus m t).
Proof. apply paints_ext; reflexivity. Qed.
Lemma paints_newPromise st s t : paints s t → paints s (newPromise st t).2.
Proof. apply paints_ext; reflexivity. Qed.
Lemma paints_settle q st s t : paints s t → paints s (settle q st t).
Proof. apply paints_ext; reflexivity. Qed.
Lemma paints_return ret s t : paints s t → paints s (return_ ret t).
Proof. apply paints_ext; reflexivity. Qed.
Lemma paints_throw ret m s t : paints s t → paints s (throw ret m t).
Proof. apply paints_ext; reflexivity. Qed.
Lemma paints_await q k s t : paints s t → paints s (await q k t).
Proof. apply paints_ext; reflexivity. Qed.
Lemma paints_send r s t : paints s t → paints s (send r t).2.
Proof. apply paints_ext; reflexivity. Qed.
Lemma paints_addHighlighted p s t : paints s t → paints s (addHighlighted p t).
Proof. apply paints_ext; reflexivity. Qed.
Lemma paints_ensurePageLoaded p s t : paints s t → paints s (ensurePageLoaded p t).2.
Proof. apply paints_plumbing, plumbing_ensurePageLoaded. Qed.
Lemma paints_safeEnsurePage p s t : paints s t → paints s (safeEnsurePage p t).2.
Proof. apply paints_plumbing, plumbing_safeEnsurePage. Qed.
Lemma paints_preloadJumpWindow c s t : paints s t → paints s (preloadJumpWindow c t).2.
Proof. apply paints_plumbing, plumbing_preloadJumpWindow. Qed.
Lemma paints_activatePage p s t : paints s t → paints s (activatePage p t).2.
Proof. apply paints_plumbing, plumbing_activatePage. Qed.
Lemma paints_scrollPageIntoView p s t : paints s t → paints s (scrollPageIntoView p t).
Proof.
  apply paints_ext; unfold scrollPageIntoView; destruct (queryPage p t); reflexivity.
Qed.
Lemma paints_showPageText p s t : paints s t → paints s (showPageText p t).
Proof.
  apply paints_ext; unfold showPageText; destruct (pageCache t !! p); reflexivity.
Qed.

Lemma paints_clearHighlightsOnPage p s t :
  paints s t → paints s (clearHighlightsOnPage p t).
Proof.
  intros H. apply (paints_trans _ _ _ H). split.
  - now rewrite skeleton_clearHighlightsOnPage.
  - apply boxesRel_clearHighlightsOnPage.
Qed.
Lemma paints_clearAllHighlights s t : paints s t → paints s (clearAllHighlights t).
Proof.
  intros H. apply (paints_trans _ _ _ H). split.
  - reflexivity.
  - apply boxesRel_clearAllHighlights.
Qed.
Lemma paints_highlightPageMatches p a s t :
  paints s t → paints s (highlightPageMatches p a t).
Proof.
  intros H. apply (paints_trans _ _ _ H). split.
  - now rewrite skeleton_highlightPageMatches.
  - apply boxesRel_highlightPageMatches.
Qed.

Hint Resolve paints_setStatus paints_newPromise paints_settle paints_return
  paints_throw paints_await paints_send paints_addHighlighted
  paints_ensurePageLoaded paints_safeEnsurePage paints_preloadJumpWindow
  paints_activatePage paints_scrollPageIntoView paints_showPageText
  paints_clearHighlightsOnPage paints_clearAllHighlights
  paints_highlightPageMatches : paint.

Local Opaque with_currentDoc with_currentWords with_searchResults
  with_currentSelectedPage with_pageCache with_currentScale
  with_pageLoadPromises with_matchPageSet with_seamlessHighlightActive
  with_currentCenterPage with_highlightedPages with_scrollDirection
  with_programmaticScrollInProgress with_pageObserver with_currentJumpToken
  with_pagesDiv with_hlBoxes with_nextEl with_statusMsg with_pageText
  with_resultRows with_activeRow with_promises with_nextPid with_tasks
  with_requests with_scrollLog with_paintLog with_timers with_disconnected.

(** The composite operations, by their structure. *)
Ltac paint :=
  intros; cbv zeta; crack; name_calls; cbn [fst snd]; auto 200 with paint nocore.

Lemma paints_selectResultIndex i a b s t :
  paints s t → paints s (selectResultIndex i a b t).2.
Proof. unfold selectResultIndex, bufferedHighlightMode. cbn [negb]. paint. Qed.
Hint Resolve paints_selectResultIndex : paint.

Lemma paints_evictStep a b s t p : paints s t → paints s (evictStep a b t p).
Proof. unfold evictStep. paint. Qed.
Lemma paints_windowStep s t p : paints s t → paints s (windowStep t p).
Proof. unfold windowStep. paint. Qed.
Lemma paints_prefetchStep s t p : paints s t → paints s (prefetchStep t p).
Proof. unfold prefetchStep. paint. Qed.
Hint Resolve paints_evictStep paints_windowStep paints_prefetchStep : paint.

Lemma paints_foldl (f : State → Z → State) (l : list Z) s t :
  (∀ s t p, paints s t → paints s (f t p)) → paints s t → paints s (foldl f t l).
Proof.
  intros Hf. revert t. induction l as [|p l IH]; intros t H; cbn [foldl]; [exact H|].
  apply IH, Hf, H.
Qed.
Hint Resolve paints_foldl : paint.

Lemma paints_updateHighlightWindow s t :
  paints s t → paints s (updateHighlightWindow t).
Proof. unfold updateHighlightWindow. paint. Qed.
Hint Resolve paints_updateHighlightWindow : paint.

Lemma paints_setCenterPage p b s t : paints s t → paints s (setCenterPage p b t).
Proof. unfold setCenterPage. paint. Qed.
Hint Resolve paints_setCenterPage : paint.

Lemma paints_finishPage p el ret s t : paints s t → paints s (finishPage p el ret t).
Proof. unfold finishPage, bufferedHighlightMode. cbn [negb andb]. paint. Qed.
Hint Resolve paints_finishPage : paint.

Lemma paints_autoRenderFinish a b ret s t :
  paints s t → paints s (autoRenderFinish a b ret t).
Proof. unfold autoRenderFinish. paint. Qed.
Hint Resolve paints_autoRenderFinish : paint.

Lemma paints_autoRenderInitialPages s t :
  paints s t → paints s (autoRenderInitialPages t).2.
Proof. unfold autoRenderInitialPages. paint. Qed.
Hint Resolve paints_autoRenderInitialPages : paint.

Lemma paints_handlePageIntersections es s t :
  paints s t → paints s (handlePageIntersections es t).
Proof. unfold handlePageIntersections. paint. Qed.
Hint Resolve paints_handlePageIntersections : paint.

(** A resumed function repaints, unless it is the ticket's body receiving
    the page. *)
Lemma resume_paints k o s :
  paints s (resume k o s) ∨ ∃ p data ret, resume k o s = renderPage p data ret s.
Proof.
  destruct k, o as [|v|m]; try destruct v;
    lazy beta iota delta [resume]; unfold bufferedHighlightMode; cbn [negb andb];
    try (right; eexists _, _, _; reflexivity); left; paint.
Qed.

Lemma runSearch_paints raw s :
  paints match currentDoc s with
         | Some _ => clearAllHighlights (with_currentWords (parseWords raw) s)
         | None => s
         end (runSearch raw s).2.
Proof.
  unfold runSearch. destruct (currentDoc s) as [d|]; [|paint].
  cbv zeta. set (s0 := clearAllHighlights _). clearbody s0. paint.
Qed.

Lemma handle_paints e s s' :
  handle e s = Some s' →
  paints match e with
         | EvUpload => resetAll s
         | EvSearch raw =>
             match currentDoc s with
             | Some _ => clearAllHighlights (with_currentWords (parseWords raw) s)
             | None => s
             end
         | _ => s
         end s'.
Proof.
  destruct e; unfold handle; cbv zeta.
  - set (s0 := resetAll s). clearbody s0. name_calls.
    intros H. injection H as <-. paint.
  - crack; name_calls; crack; intros H; injection H as <-; paint.
  - intros H. injection H as <-. apply runSearch_paints.
  - crack; name_calls; intros H; try discriminate H. injection H as <-. paint.
  - intros H. injection H as <-. paint.
  - crack; intros H; try discriminate H. injection H as <-. paint.
  - crack; intros H; try discriminate H. injection H as <-. paint.
Qed.

Local Transparent with_currentDoc with_currentWords with_searchResults
  with_currentSelectedPage with_pageCache with_currentScale
  with_pageLoadPromises with_matchPageSet with_seamlessHighlightActive
  with_currentCenterPage with_highlightedPages with_scrollDirection
  with_programmaticScrollInProgress with_pageObserver with_currentJumpToken
  with_pagesDiv with_hlBoxes with_nextEl with_statusMsg with_pageText
  with_resultRows with_activeRow with_promises with_nextPid with_tasks
  with_requests with_scrollLog with_paintLog with_timers with_disconnected.

(** *** The invariant of the document *)

Lemma domInv_linked s : domInv s → linked s.
Proof. intros ([_ Hid] & _ & Hl & _). now split. Qed.

Lemma domInv_paints s t : domInv s → paints s t → domInv t.
Proof.
  intros Hs [E Hb]. pose proof (Hb (domInv_linked s Hs)) as Hrel.
  pose proof (linked_frame s t E (domInv_linked s Hs)) as [Hl' Hid'].
  destruct Hs as ([Hsort Hid] & Hnd & Hl & Hstale & Hfresh).
  assert (Ed : pagesDiv t = pagesDiv s) by exact (f_equal (λ x, x.1.1.1) E).
  assert (En : nextEl t = nextEl s) by exact (f_equal (λ x, x.1.1.2) E).
  assert (Ew : currentWords t = currentWords s) by exact (f_equal snd E).
  split; [|split; [|split; [exact Hl'|split]]].
  - split; [now rewrite Ed | exact Hid'].
  - now rewrite Ed.
  - intros Hw e He. rewrite Ew in Hw. rewrite Ed in He. unfold boxesOf.
    destruct (Hrel e.1) as [Eb|[_ Eb]].
    + rewrite Eb. exact (Hstale Hw e He).
    + now rewrite (Eb Hw).
  - intros el Hel. rewrite En in Hel. destruct (Hrel el) as [Eb|[Hlt _]]; [|lia].
    rewrite Eb. now apply Hfresh.
Qed.

Lemma domInv_initial : domInv initial.
Proof.
  split; [split; constructor|]. split; [constructor|]. split; [|split].
  - intros p record H. discriminate H.
  - intros _ e He. now apply elem_of_nil in He.
  - intros el _. reflexivity.
Qed.

Lemma hlBoxes_resetAll s : hlBoxes (resetAll s) = hlBoxes s.
Proof. unfold resetAll. simpl. destruct (pageObserver s); reflexivity. Qed.

Lemma domInv_resetAll s : domInv s → domInv (resetAll s).
Proof.
  intros (_ & _ & _ & _ & Hfresh). pose proof (resetAll_skeleton s) as E.
  destruct (skeleton_inv _ _ _ _ _ _ E) as (Ed & En & Ec & _).
  split; [|split; [|split; [|split]]].
  - exact (ordered_of_empty _ _ _ _ _ E).
  - rewrite Ed. constructor.
  - intros p record. rewrite Ec. intros H. discriminate H.
  - intros _ e. rewrite Ed. intros He. now apply elem_of_nil in He.
  - intros el. rewrite En, hlBoxes_resetAll. apply Hfresh.
Qed.

Lemma foldl_cleared_keep (l : list (nat * Z)) (m : gmap nat (list Box)) el :
  m !! el = Some [] → foldl (λ m e, <[e.1 := []]> m) m l !! el = Some [].
Proof.
  revert m. induction l as [|x l IH]; intros m H; cbn [foldl]; [exact H|].
  apply IH. destruct (decide (x.1 = el)) as [<-|Hne].
  - apply lookup_insert_eq.
  - now rewrite lookup_insert_ne.
Qed.

Lemma foldl_cleared (l : list (nat * Z)) (m : gmap nat (list Box)) e :
  e ∈ l → foldl (λ m e, <[e.1 := []]> m) m l !! e.1 = Some [].
Proof.
  revert m. induction l as [|x l IH]; intros m He; [now apply elem_of_nil in He|].
  cbn [foldl]. apply elem_of_cons in He as [->|He].
  - apply foldl_cleared_keep, lookup_insert_eq.
  - now apply IH.
Qed.

(** New words come with all boxes cleared. *)
Lemma domInv_clear ws s :
  domInv s → domInv (clearAllHighlights (with_currentWords ws s)).
Proof.
  intros Hs. pose proof (domInv_linked s Hs) as Hlk.
  destruct Hs as (Hord & Hnd & Hl & _ & Hfresh).
  split; [exact Hord|]. split; [exact Hnd|]. split; [exact Hl|]. split.
  - intros _ e He. unfold boxesOf, clearAllHighlights. cbn.
    change (pagesDiv (with_currentWords ws s)) with (pagesDiv s) in He.
    now rewrite (foldl_cleared _ _ e He).
  - intros el Hel.
    destruct (boxesRel_clearAllHighlights (with_currentWords ws s) Hlk el) as [E|[Hlt _]].
    + rewrite E. now apply Hfresh.
    + change (nextEl (with_currentWords ws s)) with (nextEl s) in Hlt.
      change (nextEl (clearAllHighlights (with_currentWords ws s))) with (nextEl s) in Hel.
      lia.
Qed.

Lemma perform_domInv a s s' : perform a s = Some s' → domInv s → domInv s'.
Proof.
  destruct a as [e|i]; cbn [perform]; intros H Hs.
  - apply handle_paints in H. refine (domInv_paints _ _ _ H).
    destruct e; try exact Hs.
    + now apply domInv_resetAll.
    + destruct (currentDoc s); [now apply domInv_clear | exact Hs].
  - apply runTask_resume in H as (q & k & o & _ & _ & _ & ->).
    set (s0 := with_tasks (delete i (tasks s)) s).
    assert (Hs0 : domInv s0) by exact Hs. clearbody s0.
    destruct (resume_paints k o s0) as [Hp|(p & data & ret & ->)].
    + exact (domInv_paints _ _ Hs0 Hp).
    + now apply renderPage_domInv.
Qed.

(** In every reachable state the records point to the elements of their
    pages, and no page carries boxes when there are no words. *)
Lemma reachable_domInv s : reachable s → domInv s.
Proof.
  induction 1 as [|s a s' _ IH Hstep].
  - exact domInv_initial.
  - exact (perform_domInv _ _ _ Hstep IH).
Qed.

(** ** Painting a page, in every reachable state *)

Lemma queryPage_highlightPageMatches p q a s :
  queryPage q (highlightPageMatches p a s) = queryPage q s.
Proof.
  rewrite !queryPage_find.
  now rewrite (proj1 (skeleton_inv _ _ _ _ _ _
                       (eq_trans (skeleton_highlightPageMatches p a s) eq_refl))).
Qed.

(** C8.  In a reachable state, painting the highlights of a page that has a
    record leaves on the page's element the boxes that were there, if
    appending, and none of them otherwise, followed by one box for each token
    of the record whose lowercased text is among the current words, in the
    order of the tokens, and by no other box; the boxes of the other elements
    stay.  The box of a token has the token's bounding box times 100 as its
    left, top, width and height. *)
Theorem highlight_boxes s p cache append :
  reachable s → pageCache s !! p = Some cache →
  let s' := highlightPageMatches p append s in
  queryPage p s' = Some (overlay cache)
  ∧ boxesOnPage p s'
    = (if append then boxesOnPage p s else [])
      ++ (boxOf <$> filter (isTarget (currentWords s)) (tokens cache))
  ∧ (∀ el, el ≠ overlay cache → boxesOf el s' = boxesOf el s)
  ∧ (∀ tok x0 y0 x1 y1, bbox tok = (x0, y0, x1, y1) →
       boxOf tok = {| box_left := x0 * 100; box_top := y0 * 100;
                      box_width := (x1 - x0) * 100;
                      box_height := (y1 - y0) * 100 |}%Q).
Proof.
  intros Hr Hc s'. destruct (reachable_domInv s Hr) as (_ & _ & Hl & Hstale & _).
  pose proof (Hl p cache Hc) as Hq.
  assert (Hempty : currentWords s = [] → boxesOf (overlay cache) s = []).
  { intros Hw. exact (Hstale Hw (overlay cache, p) (queryPage_elem p s _ Hq)). }
  destruct (highlightPageMatches_boxes s p cache append Hc Hq Hempty) as [Hb Hother].
  assert (Hq' : queryPage p s' = Some (overlay cache))
    by (unfold s'; now rewrite queryPage_highlightPageMatches).
  split; [exact Hq'|]. split; [|split; [exact Hother|]].
  - unfold boxesOnPage. rewrite Hq', Hq. exact Hb.
  - intros tok x0 y0 x1 y1. apply boxOf_percent.
Qed.

(** ** The theorems at concrete inputs *)

Lemma load_failure_witness :
  currentDoc (searched [4]) = Some doc10
  ∧ pageCache (searched [4]) !! 4 = None
  ∧ pageLoadPromises (searched [4]) !! 4 = None
  ∧ failureMessage 4 fails = Some "network error"%string
  ∧ requests (safeEnsurePage 4 (searched [4])).2
    = requests (searched [4]) ++ [(ReqPage "doc" 4, nextPid (searched [4]))].
Proof.
  split; [reflexivity|]. split; [reflexivity|]. split; [reflexivity|].
  split; [reflexivity|].
  exact (proj1 (load_failure (searched [4]) doc10 4 fails "network error"
                  eq_refl eq_refl eq_refl eq_refl)).
Defined.



Lemma highlight_boxes_witness :
  ∃ s cache, movedWindow = Some s ∧ reachable s ∧ pageCache s !! 9 = Some cache
    ∧ queryPage 9 (highlightPageMatches 9 false s) = Some (overlay cache).
Proof.
  assert (E : (λ s, bool_decide (is_Some (pageCache s !! 9))) <$> movedWindow = Some true)
    by (vm_compute; reflexivity).
  pose proof movedWindow_reachable as R.
  destruct movedWindow as [s|]; [|discriminate E].
  injection E as E. apply bool_decide_eq_true in E as [cache Hc].
  pose proof (R s eq_refl) as Hr.
  exists s, cache. split; [reflexivity|]. split; [exact Hr|]. split; [exact Hc|].
  exact (proj1 (highlight_boxes s 9 cache false Hr Hc)).
Defined.

(** ** Two calls of [setCenter] in a row *)

(** A call of [safeEnsurePage] for a page that is loading parks two
    functions, one on the ticket and one on the other. *)
Lemma safeEnsurePage_parks s p ticket :
  pageCache s !! p = None → pageLoadPromises s !! p = Some ticket →
  let n := nextPid s in
  (safeEnsurePage p s).1 = S n
  ∧ tasks (safeEnsurePage p s).2
    = tasks s ++ [(ticket, KFollow n); (n, KSafeEnsure p (S n))]
  ∧ nextPid (safeEnsurePage p s).2 = S (S n).
Proof.
  intros Hc Ht n. unfold safeEnsurePage.
  rewrite (ensurePageLoaded_attach s p ticket Hc Ht). fold n.
  unfold newPromise, await. cbn. rewrite <- app_assoc. repeat split.
Qed.

Lemma covered_ticket s p :
  covered s p → pageCache s !! p = None → ∃ ticket, pageLoadPromises s !! p = Some ticket.
Proof. intros [[r Hr]|[t Ht]] Hc; [congruence | eauto]. Qed.

Lemma awaitsLoadOf_tickets s s' p t :
  pageLoadPromises s' = pageLoadPromises s → awaitsLoadOf s' p t → awaitsLoadOf s p t.
Proof. intros E. unfold awaitsLoadOf. now rewrite E. Qed.

(** One turn of the window loop for a page that is up to date: it parks
    functions for a match page without record, and only for such a page. *)
Lemma windowStep_reparks s p :
  allCovered s [p] → allShown s [p] →
  ∃ parked,
    tasks (windowStep s p) = tasks s ++ parked
    ∧ (∀ t, t ∈ parked →
         p ∈ matchPageSet s ∧ pageCache s !! p = None ∧ awaitsLoadOf s p t)
    ∧ (p ∈ matchPageSet s → pageCache s !! p = None →
       ∃ t, t ∈ parked ∧ paintsLater p t.2).
Proof.
  intros Hcov Hshown.
  assert (Hnone : ∀ s0 : State, ∃ parked : list (nat * frame),
             tasks s0 = tasks s0 ++ parked
             ∧ (∀ t, t ∈ parked →
                  p ∈ matchPageSet s ∧ pageCache s !! p = None ∧ awaitsLoadOf s p t)
             ∧ ∀ t, t ∈ parked → False).
  { intros s0. exists []. rewrite app_nil_r. split; [reflexivity|].
    split; intros t Ht; now apply elem_of_nil in Ht. }
  unfold windowStep.
  destruct (set_has p (matchPageSet s)) eqn:Hm; cbn [andb].
  2: { apply set_has_false in Hm. destruct (Hnone s) as (parked & E & F & _).
       exists parked. destruct (bool_decide _); cbn [andb];
         (split; [exact E|]; split; [exact F|]; intros; contradiction). }
  apply set_has_true in Hm.
  specialize (Hcov p (list_elem_of_here _ _) Hm).
  specialize (Hshown p (list_elem_of_here _ _) Hm).
  assert (Hpark : ∀ k : Z → nat → frame,
             (∀ ret, paintsLater p (k p ret)) →
             (∀ ret t, t.2 = k p ret → awaitsLoadOf s p t) →
             pageCache s !! p = None →
             ∃ parked,
               tasks (let '(q, s0) := safeEnsurePage p s in
                      let '(ret, s1) := newPromise Pending s0 in await q (k p ret) s1)
               = tasks s ++ parked
               ∧ (∀ t, t ∈ parked →
                    p ∈ matchPageSet s ∧ pageCache s !! p = None ∧ awaitsLoadOf s p t)
               ∧ (p ∈ matchPageSet s → pageCache s !! p = None →
                  ∃ t, t ∈ parked ∧ paintsLater p t.2)).
  { intros k Hk Hw Hc. destruct (covered_ticket s p Hcov Hc) as [ticket Ht].
    destruct (safeEnsurePage_parks s p ticket Hc Ht) as (E1 & E2 & E3).
    destruct (safeEnsurePage p s) as [q s0]. cbn [fst snd] in E1, E2, E3. subst q.
    unfold newPromise, await. cbn [fst snd tasks with_tasks with_nextPid with_promises].
    rewrite E2, E3, <- app_assoc. cbn [app].
    eexists. split; [reflexivity|]. split.
    - intros t Hin. split; [exact Hm|]. split; [exact Hc|].
      apply elem_of_cons in Hin as [->|Hin]; [exact Ht|].
      apply elem_of_cons in Hin as [->|Hin]; [reflexivity|].
      apply list_elem_of_singleton in Hin as ->. now apply (Hw (S (S (nextPid s)))).
    - intros _ _. eexists. split; [do 2 apply list_elem_of_further; apply list_elem_of_here|].
      apply Hk. }
  destruct (set_has p (highlightedPages s)) eqn:Hh; cbn [negb].
  - destruct (bool_decide (pageCache s !! p = None)) eqn:Hc; cbn [andb].
    + apply bool_decide_eq_true in Hc.
      apply (Hpark (λ p ret, KThenHighlight p ret)); [reflexivity | | exact Hc].
      intros ret t Ht. unfold awaitsLoadOf. now rewrite Ht.
    + apply bool_decide_eq_false in Hc. destruct (Hnone s) as (parked & E & F & _).
      exists parked. split; [exact E|]. split; [exact F|]. intros _ Hc'. contradiction.
  - apply set_has_false in Hh.
    destruct (pageCache s !! p) as [record|] eqn:Hc.
    + exfalso. apply Hh, Hshown. eauto.
    + unfold activatePage. rewrite (proj2 (set_has_true _ _) Hm). cbn [negb].
      destruct (Hpark (λ p ret, KActivate p ret)) as (parked & E & F & G);
        [reflexivity | | reflexivity |].
      { intros ret t Ht. unfold awaitsLoadOf. now rewrite Ht. }
      exists parked. split; [|split; [exact F | exact G]].
      rewrite <- E. destruct (safeEnsurePage p s) as [q s0]. reflexivity.
Qed.

Lemma foldl_windowStep_reparks ps s :
  allCovered s ps → allShown s ps →
  ∃ parked,
    tasks (foldl windowStep s ps) = tasks s ++ parked
    ∧ (∀ t, t ∈ parked →
         ∃ p, p ∈ matchPageSet s ∧ pageCache s !! p = None ∧ awaitsLoadOf s p t)
    ∧ (∀ p, p ∈ ps → p ∈ matchPageSet s → pageCache s !! p = None →
       ∃ t, t ∈ parked ∧ paintsLater p t.2).
Proof.
  revert s. induction ps as [|p ps IH]; intros s Hcov Hshown; cbn [foldl].
  - exists []. rewrite app_nil_r. split; [reflexivity|].
    split; [intros t Ht; now apply elem_of_nil in Ht | intros p Hp; now apply elem_of_nil in Hp].
  - apply allCovered_cons in Hcov as [Hc1 Hc2].
    apply allShown_cons in Hshown as [Hs1 Hs2].
    pose proof (windowStep_quiet s p Hc1 Hs1) as Hq.
    destruct (windowStep_reparks s p Hc1 Hs1) as (parked1 & E1 & F1 & G1).
    destruct (IH (windowStep s p) (quiet_allCovered _ _ _ Hq Hc2) (quiet_allShown _ _ _ Hq Hs2))
      as (parked2 & E2 & F2 & G2).
    apply quiet_fields in Hq as (Ec & Em & _ & Et).
    exists (parked1 ++ parked2). split; [rewrite E2, E1, app_assoc; reflexivity|]. split.
    + intros t Ht. apply elem_of_app in Ht as [Ht|Ht].
      * exists p. apply F1, Ht.
      * destruct (F2 t Ht) as (p' & Hm & Hc & Hw). exists p'.
        rewrite Em in Hm. rewrite Ec in Hc.
        split; [exact Hm|]. split; [exact Hc|]. exact (awaitsLoadOf_tickets _ _ _ _ Et Hw).
    + intros x Hx Hm Hc. apply elem_of_cons in Hx as [->|Hx].
      * destruct (G1 Hm Hc) as (t & Ht & Hp). exists t. split; [|exact Hp].
        apply elem_of_app. now left.
      * destruct (G2 x Hx) as (t & Ht & Hp); [now rewrite Em | now rewrite Ec|].
        exists t. split; [|exact Hp]. apply elem_of_app. now right.
Qed.

Lemma prefetchStep_reparks s p :
  allCovered s [p] →
  ∃ parked,
    tasks (prefetchStep s p) = tasks s ++ parked
    ∧ ∀ t, t ∈ parked → p ∈ matchPageSet s ∧ pageCache s !! p = None ∧ awaitsLoadOf s p t.
Proof.
  intros Hcov. unfold prefetchStep.
  assert (Hnone : ∃ parked : list (nat * frame),
             tasks s = tasks s ++ parked
             ∧ ∀ t, t ∈ parked →
                 p ∈ matchPageSet s ∧ pageCache s !! p = None ∧ awaitsLoadOf s p t).
  { exists []. rewrite app_nil_r. split; [reflexivity|].
    intros t Ht. now apply elem_of_nil in Ht. }
  destruct (set_has p (matchPageSet s)) eqn:Hm; cbn [andb]; [|exact Hnone].
  apply set_has_true in Hm.
  destruct (bool_decide (pageCache s !! p = None)) eqn:Hc; [|exact Hnone].
  apply bool_decide_eq_true in Hc.
  destruct (covered_ticket s p (Hcov p (list_elem_of_here _ _) Hm) Hc) as [ticket Ht].
  destruct (safeEnsurePage_parks s p ticket Hc Ht) as (_ & E2 & _).
  eexists. split; [exact E2|].
  intros t Hin. split; [exact Hm|]. split; [exact Hc|].
  apply elem_of_cons in Hin as [->|Hin]; [exact Ht|].
  apply list_elem_of_singleton in Hin as ->. reflexivity.
Qed.

Lemma foldl_prefetchStep_reparks ps s :
  allCovered s ps →
  ∃ parked,
    tasks (foldl prefetchStep s ps) = tasks s ++ parked
    ∧ ∀ t, t ∈ parked →
        ∃ p, p ∈ matchPageSet s ∧ pageCache s !! p = None ∧ awaitsLoadOf s p t.
Proof.
  revert s. induction ps as [|p ps IH]; intros s Hcov; cbn [foldl].
  - exists []. rewrite app_nil_r. split; [reflexivity|].
    intros t Ht. now apply elem_of_nil in Ht.
  - apply allCovered_cons in Hcov as [Hc1 Hc2].
    pose proof (prefetchStep_quiet s p Hc1) as Hq.
    destruct (prefetchStep_reparks s p Hc1) as (parked1 & E1 & F1).
    destruct (IH (prefetchStep s p) (quiet_allCovered _ _ _ Hq Hc2)) as (parked2 & E2 & F2).
    apply quiet_fields in Hq as (Ec & Em & _ & Et).
    exists (parked1 ++ parked2). split; [rewrite E2, E1, app_assoc; reflexivity|].
    intros t Ht. apply elem_of_app in Ht as [Ht|Ht].
    + exists p. apply F1, Ht.
    + destruct (F2 t Ht) as (p' & Hm & Hc & Hw). exists p'.
      rewrite Em in Hm. rewrite Ec in Hc.
      split; [exact Hm|]. split; [exact Hc|]. exact (awaitsLoadOf_tickets _ _ _ _ Et Hw).
Qed.

(** A pass over a window that is up to date parks functions for the match
    pages without record, and one that paints for each of them in the
    window. *)
Lemma updateHighlightWindow_reparks s d c :
  currentDoc s = Some d → currentCenterPage s = Some c →
  (∀ x, x ∈ highlightedPages s → x ∈ windowPages d c) →
  allCovered s (windowPages d c) → allShown s (windowPages d c) →
  allCovered s (prefetchPages d c (scrollDirection s)) →
  ∃ parked,
    tasks (updateHighlightWindow s) = tasks s ++ parked
    ∧ (∀ t, t ∈ parked →
         ∃ p, p ∈ matchPageSet s ∧ pageCache s !! p = None ∧ awaitsLoadOf s p t)
    ∧ (∀ p, p ∈ windowPages d c → p ∈ matchPageSet s → pageCache s !! p = None →
       ∃ t, t ∈ parked ∧ paintsLater p t.2).
Proof.
  intros Hd Hc Hin Hcov Hshown Hpre.
  rewrite (updateHighlightWindow_eq s d c Hd Hc). cbv zeta.
  rewrite foldl_evictStep_inside
    by (intros p Hp; apply elem_of_windowPages, Hin, Hp).
  pose proof (foldl_windowStep_quiet _ s Hcov Hshown) as Hq.
  destruct (foldl_windowStep_reparks _ s Hcov Hshown) as (parked1 & E1 & F1 & G1).
  set (s2 := foldl windowStep s (windowPages d c)) in *.
  assert (Hpre2 : allCovered s2 (prefetchPages d c (scrollDirection s2))).
  { destruct Hq as (A & _). rewrite (f_equal scrollDirection A : scrollDirection s2 = _).
    eapply quiet_allCovered; [|exact Hpre]. exact (foldl_windowStep_quiet _ s Hcov Hshown). }
  destruct (foldl_prefetchStep_reparks _ s2 Hpre2) as (parked2 & E2 & F2).
  apply quiet_fields in Hq as (Ec & Em & _ & Et).
  exists (parked1 ++ parked2). split; [rewrite E2, E1, app_assoc; reflexivity|]. split.
  - intros t Ht. apply elem_of_app in Ht as [Ht|Ht]; [exact (F1 t Ht)|].
    destruct (F2 t Ht) as (p' & Hm & Hc' & Hw). exists p'.
    rewrite Em in Hm. rewrite Ec in Hc'.
    split; [exact Hm|]. split; [exact Hc'|]. exact (awaitsLoadOf_tickets _ _ _ _ Et Hw).
  - intros p Hp Hm Hc'. destruct (G1 p Hp Hm Hc') as (t & Ht & Hk).
    exists t. split; [|exact Hk]. apply elem_of_app. now left.
Qed.

Lemma paintLog_clearHighlightsOnPage p s :
  paintLog (clearHighlightsOnPage p s) = paintLog s.
Proof. unfold clearHighlightsOnPage. destruct (queryPage p s); reflexivity. Qed.

(** A function that paints later does paint, once the page has its record
    and there are words. *)
Lemma paintsLater_paints k p v x :
  paintsLater p k → is_Some (pageCache x !! p) → currentWords x ≠ [] →
  paintLog (resume k (Fulfilled v) x) = paintLog x ++ [p].
Proof.
  intros Hk [record Hr] Hw.
  assert (E : paintLog (highlightPageMatches p false x) = paintLog x ++ [p]).
  { unfold highlightPageMatches. rewrite Hr.
    destruct (currentWords x) as [|w ws]; [contradiction|].
    cbn. now rewrite paintLog_clearHighlightsOnPage. }
  destruct k; cbn in Hk; try contradiction; subst; cbn [resume];
    unfold return_, settle, addHighlighted; cbn; exact E.
Qed.

(** C5, as amended.  Two calls of [setCenter] in a row with the same center page:
    the second leaves the set of highlighted pages as the first left it,
    changes no box and writes to no overlay while it runs, and sends no request;
    the cache and the tickets are those of the first call.  What it does is
    park functions, after those that were parked: each of them waits for the
    load of a match page that has no record, so that nothing is parked if every
    match page has its record; and for each match page of the window without
    record one of them paints the page, again, when the load has arrived. *)
Theorem setCenter_idempotent (s : State) (c : Z) (fromClick1 fromClick2 : bool) :
  let s1 := setCenterPage c fromClick1 s in
  let s2 := setCenterPage c fromClick2 s1 in
  highlightedPages s2 = highlightedPages s1
  ∧ hlBoxes s2 = hlBoxes s1 ∧ paintLog s2 = paintLog s1
  ∧ requests s2 = requests s1
  ∧ pageCache s2 = pageCache s1 ∧ pageLoadPromises s2 = pageLoadPromises s1
  ∧ matchPageSet s2 = matchPageSet s1
  ∧ currentCenterPage s2 = currentCenterPage s1
  ∧ ∃ parked,
      tasks s2 = tasks s1 ++ parked
      ∧ (∀ t, t ∈ parked →
           ∃ p, p ∈ matchPageSet s1 ∧ pageCache s1 !! p = None ∧ awaitsLoadOf s1 p t)
      ∧ ((∀ p, p ∈ matchPageSet s1 → is_Some (pageCache s1 !! p)) → parked = [])
      ∧ (∀ p a b, highlightWindow s1 = Some (a, b) → a ≤ p ≤ b →
           p ∈ matchPageSet s1 → pageCache s1 !! p = None →
           ∃ t, t ∈ parked ∧ paintsLater p t.2)
      ∧ (∀ t p v x, t ∈ parked → paintsLater p t.2 →
           is_Some (pageCache x !! p) → currentWords x ≠ [] →
           paintLog (resume t.2 (Fulfilled v) x) = paintLog x ++ [p]).
Proof.
  cbv zeta. unfold setCenterPage. cbv zeta.
  set (sc := with_currentCenterPage (Some c) s).
  set (u1 := updateHighlightWindow sc).
  destruct (currentDoc s) as [d|] eqn:Hd.
  - (* a document is open *)
    assert (Hdc : currentDoc sc = Some d) by exact Hd.
    destruct (updateHighlightWindow_settles sc d c Hdc eq_refl)
      as (P & Hin & Hcov & Hshown & Hpre).
    fold u1 in P, Hin, Hcov, Hshown, Hpre.
    apply painting_fields in P as (_ & _ & Ed & Ec & Edir).
    set (s1 := if fromClick1
               then with_timers (S (timers u1)) (with_programmaticScrollInProgress true u1)
               else u1).
    set (sc2 := with_currentCenterPage (Some c) s1).
    assert (Hd2 : currentDoc sc2 = Some d)
      by (subst sc2 s1; destruct fromClick1; cbn; congruence).
    assert (Hin2 : ∀ x, x ∈ highlightedPages sc2 → x ∈ windowPages d c)
      by (subst sc2 s1; destruct fromClick1; exact Hin).
    assert (Hcov2 : allCovered sc2 (windowPages d c))
      by (subst sc2 s1; destruct fromClick1; exact Hcov).
    assert (Hshown2 : allShown sc2 (windowPages d c))
      by (subst sc2 s1; destruct fromClick1; exact Hshown).
    assert (Hpre2 : allCovered sc2 (prefetchPages d c (scrollDirection sc2))).
    { assert (E : scrollDirection sc2 = scrollDirection sc)
        by (subst sc2 s1; destruct fromClick1; exact Edir).
      rewrite E. subst sc2 s1. destruct fromClick1; exact Hpre. }
    pose proof (updateHighlightWindow_quiet sc2 d c Hd2 eq_refl Hin2 Hcov2 Hshown2 Hpre2)
      as (A & B & C).
    destruct (updateHighlightWindow_reparks sc2 d c Hd2 eq_refl Hin2 Hcov2 Hshown2 Hpre2)
      as (parked & Et & Fw & Gp).
    set (u2 := updateHighlightWindow sc2) in *.
    assert (Em : matchPageSet sc2 = matchPageSet s1) by reflexivity.
    assert (Eca : pageCache sc2 = pageCache s1) by reflexivity.
    assert (Eti : pageLoadPromises sc2 = pageLoadPromises s1) by reflexivity.
    assert (Eta : tasks sc2 = tasks s1) by reflexivity.
    assert (Edo : currentDoc s1 = Some d)
      by (subst s1; destruct fromClick1; cbn; congruence).
    assert (Ece : currentCenterPage s1 = Some c)
      by (subst s1; destruct fromClick1; exact Ec).
    assert (F : highlightedPages u2 = highlightedPages s1 ∧ hlBoxes u2 = hlBoxes s1
                ∧ paintLog u2 = paintLog s1 ∧ requests u2 = requests s1
                ∧ pageCache u2 = pageCache s1 ∧ pageLoadPromises u2 = pageLoadPromises s1
                ∧ matchPageSet u2 = matchPageSet s1
                ∧ currentCenterPage u2 = currentCenterPage s1
                ∧ ∃ parked,
                    tasks u2 = tasks s1 ++ parked
                    ∧ (∀ t, t ∈ parked →
                         ∃ p, p ∈ matchPageSet s1 ∧ pageCache s1 !! p = None
                              ∧ awaitsLoadOf s1 p t)
                    ∧ ((∀ p, p ∈ matchPageSet s1 → is_Some (pageCache s1 !! p))
                       → parked = [])
                    ∧ (∀ p a b, highlightWindow s1 = Some (a, b) → a ≤ p ≤ b →
                         p ∈ matchPageSet s1 → pageCache s1 !! p = None →
                         ∃ t, t ∈ parked ∧ paintsLater p t.2)
                    ∧ (∀ t p v x, t ∈ parked → paintsLater p t.2 →
                         is_Some (pageCache x !! p) → currentWords x ≠ [] →
                         paintLog (resume t.2 (Fulfilled v) x) = paintLog x ++ [p])).
    { split; [exact (f_equal highlightedPages A)|].
      split; [exact (f_equal hlBoxes A)|].
      split; [exact (f_equal paintLog A)|].
      split; [exact B|].
      split; [exact (f_equal pageCache A)|].
      split; [exact C|].
      split; [exact (f_equal matchPageSet A)|].
      split; [transitivity (Some c); [exact (f_equal currentCenterPage A) | now symmetry]|].
      exists parked. rewrite <- Eta. split; [exact Et|].
      rewrite <- Em, <- Eca. split; [|split; [|split]].
      - intros t Ht. destruct (Fw t Ht) as (p & Hm & Hc & Hw). exists p.
        split; [exact Hm|]. split; [exact Hc|].
        exact (awaitsLoadOf_tickets _ _ _ _ (eq_sym Eti) Hw).
      - intros Hall. destruct parked as [|t parked]; [reflexivity|]. exfalso.
        destruct (Fw t (list_elem_of_here _ _)) as (p & Hm & Hc & _).
        destruct (Hall p Hm) as [record Hr]. congruence.
      - intros p a b Hw Hp Hm Hc. apply Gp; [|exact Hm | exact Hc].
        unfold highlightWindow in Hw. rewrite Edo, Ece in Hw. injection Hw as <- <-.
        apply elem_of_windowPages. exact Hp.
      - intros t p v x _ Hk Hr Hw. exact (paintsLater_paints t.2 p v x Hk Hr Hw). }
    destruct fromClick2; exact F.
  - (* no document: the window is not touched *)
    assert (Hid : ∀ s0 : State, currentDoc s0 = None → updateHighlightWindow s0 = s0).
    { intros s0 H0. unfold updateHighlightWindow. now rewrite H0. }
    assert (E1 : u1 = sc) by (apply Hid; exact Hd).
    rewrite E1. rewrite Hid by (destruct fromClick1; exact Hd).
    assert (Hw : ∀ a b, highlightWindow
                          (if fromClick1
                           then with_timers (S (timers sc))
                                  (with_programmaticScrollInProgress true sc)
                           else sc) = Some (a, b) → False).
    { intros a b. unfold highlightWindow.
      assert (E : currentDoc (if fromClick1
                              then with_timers (S (timers sc))
                                     (with_programmaticScrollInProgress true sc)
                              else sc) = None) by (destruct fromClick1; exact Hd).
      rewrite E. discriminate. }
    repeat (split; [destruct fromClick1, fromClick2; reflexivity|]).
    exists []. split; [destruct fromClick1, fromClick2; cbn; now rewrite app_nil_r|].
    split; [intros t Ht; now apply elem_of_nil in Ht|].
    split; [reflexivity|].
    split; [intros p a b H; destruct (Hw a b H)|].
    intros t p v x Ht. now apply elem_of_nil in Ht.
Qed.

(** The claim C5 as stated fails: with the pages 2 and 4 of the window
    loading, the second call parks a second painter for each, and when the
    pages have arrived their overlays are written to three times instead of
    twice; and in the state after the session [failedLoad], where page 4 is
    highlighted without a record, the second call parks a second [then]
    callback, and the overlay of page 4 is written to three times instead of
    twice. *)
Lemma setCenter_repaints :
  ¬ noRepaint (searched [2; 4; 9]) 4 [2; 4]
  ∧ ∃ s, failedLoad = Some s ∧ reachable s ∧ ¬ noRepaint s 4 [4].
Proof.
  split.
  - assert (F1 : paintLog <$> play ((λ p, Answer p arrives) <$> [2; 4])
                                   (setCenterPage 4 false (searched [2; 4; 9]))
                 = Some [2; 2; 4; 4]) by (vm_compute; reflexivity).
    assert (F2 : paintLog <$> play ((λ p, Answer p arrives) <$> [2; 4])
                   (setCenterPage 4 false (setCenterPage 4 false (searched [2; 4; 9])))
                 = Some [2; 2; 2; 4; 4; 4]) by (vm_compute; reflexivity).
    intros H. unfold noRepaint in H.
    destruct (play _ (setCenterPage 4 false (setCenterPage 4 false _))) as [t2|];
      [|discriminate F2].
    destruct (play _ (setCenterPage 4 false (searched [2; 4; 9]))) as [t1|];
      [|discriminate F1].
    specialize (H t1 t2 eq_refl eq_refl).
    injection F1 as F1. injection F2 as F2. rewrite F1, F2 in H. discriminate H.
  - assert (F1 : failedLoad ≫= (λ s, paintLog <$> play ((λ p, Answer p arrives) <$> [4])
                                                   (setCenterPage 4 false s))
                 = Some [4; 4]) by (vm_compute; reflexivity).
    assert (F2 : failedLoad ≫= (λ s, paintLog <$> play ((λ p, Answer p arrives) <$> [4])
                                       (setCenterPage 4 false (setCenterPage 4 false s)))
                 = Some [4; 4; 4]) by (vm_compute; reflexivity).
    pose proof failedLoad_reachable as R.
    destruct failedLoad as [s|]; [|discriminate F1].
    exists s. split; [reflexivity|]. split; [exact (R s eq_refl)|].
    change (paintLog <$> play ((λ p, Answer p arrives) <$> [4]) (setCenterPage 4 false s)
            = Some [4; 4]) in F1.
    change (paintLog <$> play ((λ p, Answer p arrives) <$> [4])
                              (setCenterPage 4 false (setCenterPage 4 false s))
            = Some [4; 4; 4]) in F2.
    intros H. unfold noRepaint in H.
    destruct (play _ (setCenterPage 4 false (setCenterPage 4 false s))) as [t2|];
      [|discriminate F2].
    destruct (play _ (setCenterPage 4 false s)) as [t1|]; [|discriminate F1].
    specialize (H t1 t2 eq_refl eq_refl).
    injection F1 as F1. injection F2 as F2. rewrite F1, F2 in H. discriminate H.
Qed.

(** * Further properties *)

(** ** The words of a search *)

Lemma parseWords_spec raw : parseWords raw = spec_parseWords raw.
Proof.
  unfold parseWords, spec_parseWords. rewrite split_pieces.
  apply (filter_indexOf_keep_first [] _ []). intros y; reflexivity.
Qed.

Lemma lower_char_sep c : is_sep c = false → is_sep (lower_char c) = false.
Proof. destruct c as [[] [] [] [] [] [] [] []]; vm_compute; intros H; exact H. Qed.

Lemma lower_char_idem c : lower_char (lower_char c) = lower_char c.
Proof. destruct c as [[] [] [] [] [] [] [] []]; vm_compute; reflexivity. Qed.

Lemma toLowerCase_idem w : toLowerCase (toLowerCase w) = toLowerCase w.
Proof.
  induction w as [|c w IH]; [reflexivity|]. cbn [toLowerCase].
  now rewrite lower_char_idem, IH.
Qed.

Lemma toLowerCase_sep w :
  Forall (λ c, is_sep c = false) (list_ascii_of_string w) →
  Forall (λ c, is_sep c = false) (list_ascii_of_string (toLowerCase w)).
Proof.
  induction w as [|c w IH]; cbn [toLowerCase list_ascii_of_string]; intros H.
  - constructor.
  - apply Forall_cons in H as [Hc H]. constructor; [now apply lower_char_sep | auto].
Qed.

Lemma pieces_no_sep s :
  Forall (λ f, Forall (λ c, is_sep c = false) (list_ascii_of_string f)) (pieces s).
Proof.
  induction s as [|c r IH]; cbn [pieces].
  - repeat constructor.
  - destruct (is_sep c) eqn:Hc.
    + constructor; [constructor | exact IH].
    + destruct (pieces r) as [|f fs].
      * repeat constructor. exact Hc.
      * apply Forall_cons in IH as [Hf Hfs]. constructor; [|exact Hfs].
        cbn [list_ascii_of_string]. now constructor.
Qed.

Lemma keep_first_sound seen l :
  NoDup (keep_first seen l)
  ∧ ∀ x, x ∈ keep_first seen l → x ∈ l ∧ x ∉ seen.
Proof.
  revert seen. induction l as [|y l IH]; intros seen; cbn [keep_first].
  - split; [constructor | intros x Hx; now apply elem_of_nil in Hx].
  - destruct (existsb (String.eqb y) seen) eqn:Hex.
    + destruct (IH seen) as [Hnd Hin]. split; [exact Hnd|].
      intros x Hx. destruct (Hin x Hx). split; [now apply list_elem_of_further | assumption].
    + assert (Hy : y ∉ seen).
      { intros Hin. apply existsb_eqb_elem in Hin. congruence. }
      destruct (IH (y :: seen)) as [Hnd Hin]. split.
      * apply NoDup_cons. split; [|exact Hnd].
        intros Hx. destruct (Hin y Hx) as [_ Hn]. apply Hn, list_elem_of_here.
      * intros x Hx. apply elem_of_cons in Hx as [->|Hx].
        -- split; [apply list_elem_of_here | exact Hy].
        -- destruct (Hin x Hx) as [H1 H2]. split; [now apply list_elem_of_further|].
           intros H. apply H2. now apply list_elem_of_further.
Qed.

Lemma keep_first_id seen l :
  NoDup l → (∀ x, x ∈ l → x ∉ seen) → keep_first seen l = l.
Proof.
  revert seen. induction l as [|y l IH]; intros seen Hnd Hs; [reflexivity|].
  cbn [keep_first]. apply NoDup_cons in Hnd as [Hy Hnd].
  destruct (existsb (String.eqb y) seen) eqn:Hex.
  - apply existsb_eqb_elem in Hex. destruct (Hs y (list_elem_of_here _ _) Hex).
  - f_equal. apply IH; [exact Hnd|].
    intros x Hx Hin. apply elem_of_cons in Hin as [->|Hin]; [contradiction|].
    exact (Hs x (list_elem_of_further _ _ _ Hx) Hin).
Qed.

Lemma spec_parseWords_shape raw :
  NoDup (spec_parseWords raw) ∧ Forall properWord (spec_parseWords raw).
Proof.
  unfold spec_parseWords.
  destruct (keep_first_sound [] (map toLowerCase (List.filter truthy (pieces raw))))
    as [Hnd Hin].
  split; [exact Hnd|]. apply Forall_forall. intros w Hw.
  destruct (Hin w Hw) as [Hl _]. apply list_elem_of_In, in_map_iff in Hl as (f & <- & Hf).
  apply filter_In in Hf as [Hf Ht].
  pose proof (pieces_no_sep raw) as Hsep. rewrite Forall_forall in Hsep.
  specialize (Hsep f (proj2 (list_elem_of_In _ _) Hf)).
  split; [|split].
  - destruct f; [discriminate Ht | discriminate].
  - now apply toLowerCase_sep.
  - apply toLowerCase_idem.
Qed.

(** X1.  The words [parseWords] returns are pairwise different, and each
    of them is a proper word: not empty, without a comma, a semicolon or white
    space in it, and in lower case. *)
Theorem parseWords_shape raw :
  NoDup (parseWords raw) ∧ Forall properWord (parseWords raw).
Proof.
  rewrite parseWords_spec. destruct (spec_parseWords_shape raw) as [Hnd Hp].
  split; [exact Hnd | exact Hp].
Qed.

Lemma pieces_word w rest :
  Forall (λ c, is_sep c = false) (list_ascii_of_string w) →
  pieces (w +:+ rest) = prefixed w (pieces rest).
Proof.
  induction w as [|c w IH]; cbn [list_ascii_of_string]; intros H.
  - rewrite append_empty_l. unfold prefixed.
    pose proof (pieces_nonempty rest). destruct (pieces rest); [contradiction | reflexivity].
  - apply Forall_cons in H as [Hc H]. rewrite append_cons. cbn [pieces].
    rewrite Hc, (IH H). unfold prefixed.
    pose proof (pieces_nonempty rest). destruct (pieces rest); [contradiction | reflexivity].
Qed.

Lemma pieces_join ws :
  Forall properWord ws → List.filter truthy (pieces (join ", " ws)) = ws.
Proof.
  induction ws as [|w ws IH]; intros H; [reflexivity|].
  apply Forall_cons in H as [(Hne & Hsep & _) H].
  assert (Hw : truthy w = true) by (destruct w; [contradiction | reflexivity]).
  cbn [join]. destruct ws as [|w' ws].
  - rewrite <- (append_empty_r w) at 1. rewrite (pieces_word w _ Hsep).
    change (pieces EmptyString) with [EmptyString]. unfold prefixed.
    rewrite append_empty_r. cbn [List.filter]. now rewrite Hw.
  - rewrite (pieces_word w _ Hsep).
    change (pieces (", " +:+ join ", " (w' :: ws)))
      with (EmptyString :: EmptyString :: pieces (join ", " (w' :: ws))).
    unfold prefixed. rewrite append_empty_r. cbn [List.filter truthy].
    rewrite Hw. f_equal. apply IH, H.
Qed.

(** X2.  The legend gives the words back: what [updateLegend] shows for the
    words of a search, typed into the search field again, is parsed into the
    same words. *)
Theorem legend_round_trip raw :
  legendWords (updateLegend (parseWords raw)) = parseWords raw.
Proof.
  pose proof (spec_parseWords_shape raw) as [Hnd Hp]. rewrite <- parseWords_spec in Hnd, Hp.
  destruct (parseWords raw) as [|w ws] eqn:E; [reflexivity|].
  unfold updateLegend, legendWords. rewrite parseWords_spec. unfold spec_parseWords.
  rewrite (pieces_join _ Hp).
  assert (Hl : map toLowerCase (w :: ws) = w :: ws).
  { clear -Hp. induction Hp as [|x l (_ & _ & Hx) _ IH]; [reflexivity|].
    cbn [map]. now rewrite Hx, IH. }
  rewrite Hl. apply keep_first_id; [exact Hnd|].
  intros x _ Hx. now apply elem_of_nil in Hx.
Qed.

(** ** The document and the cache *)

Lemma sorted_pages_NoDup (l : list (nat * Z)) : StronglySorted before l → NoDup l.*2.
Proof.
  induction 1 as [|x l _ IH Hx]; [constructor|].
  rewrite fmap_cons. apply NoDup_cons. split; [|exact IH].
  intros Hin. apply list_elem_of_fmap in Hin as (y & Hy & Hin).
  rewrite Forall_forall in Hx. specialize (Hx y Hin). unfold before in Hx. lia.
Qed.

Lemma elementsRecorded_frame s t :
  (skeleton t).1 = (skeleton s).1 → elementsRecorded s → elementsRecorded t.
Proof.
  intros E H e.
  assert (Ed : pagesDiv t = pagesDiv s) by exact (f_equal (λ x, x.1.1.1) E).
  assert (Ec : pageCache t = pageCache s) by exact (f_equal (λ x, x.1.2) E).
  rewrite Ed, Ec. apply H.
Qed.

Lemma elementsRecorded_renderPage p data ret s :
  domInv s → elementsRecorded s → elementsRecorded (renderPage p data ret s).
Proof.
  intros ([Hs Hid] & Hnd & _) H.
  destruct (render_shape (nextEl s) p (pagesDiv s) Hs Hid Hnd) as (l1 & l2 & El & Eshape & H2).
  intros e. rewrite pagesDiv_renderPage, Eshape, pageCache_renderPage.
  intros He. apply elem_of_app in He as [He|He].
  - apply list_elem_of_filter in He as [Hne He].
    rewrite lookup_insert_ne by congruence. apply H. rewrite El.
    apply elem_of_app. now left.
  - apply elem_of_cons in He as [->|He].
    + cbn [fst snd]. rewrite lookup_insert_eq. eexists. split; reflexivity.
    + rewrite Forall_forall in H2. specialize (H2 e He).
      rewrite lookup_insert_ne by lia. apply H. rewrite El. apply elem_of_app. now right.
Qed.

Lemma elementsRecorded_empty s : pagesDiv s = [] → elementsRecorded s.
Proof. intros E e. rewrite E. intros He. now apply elem_of_nil in He. Qed.

Lemma perform_elementsRecorded a s s' :
  perform a s = Some s' → domInv s → elementsRecorded s → elementsRecorded s'.
Proof.
  destruct a as [e|i]; cbn [perform]; intros H Hd Hs.
  - apply handle_paints in H as [E _]. refine (elementsRecorded_frame _ _ E _).
    destruct e; try exact Hs.
    + apply elementsRecorded_empty.
      exact (proj1 (skeleton_inv _ _ _ _ _ _ (resetAll_skeleton s))).
    + destruct (currentDoc s); exact Hs.
  - apply runTask_resume in H as (q & k & o & _ & _ & _ & ->).
    set (s0 := with_tasks (delete i (tasks s)) s).
    assert (Hd0 : domInv s0) by exact Hd.
    assert (Hs0 : elementsRecorded s0) by exact Hs. clearbody s0.
    destruct (resume_paints k o s0) as [[E _]|(p & data & ret & ->)].
    + exact (elementsRecorded_frame _ _ E Hs0).
    + now apply elementsRecorded_renderPage.
Qed.

Lemma reachable_elementsRecorded s : reachable s → elementsRecorded s.
Proof.
  induction 1 as [|s a s' Hr IH Hstep].
  - now apply elementsRecorded_empty.
  - exact (perform_elementsRecorded _ _ _ Hstep (reachable_domInv s Hr) IH).
Qed.

(** X3.  In every reachable state the page elements of the document and
    the records of the cache correspond one to one: no two elements share an
    identity or a page number, the record of a page points to the element of
    that page in the document, and every element of the document is the one
    its page's record points to. *)
Theorem document_matches_cache s :
  reachable s →
  NoDup (pagesDiv s).*1 ∧ NoDup (pagesDiv s).*2
  ∧ (∀ p r, pageCache s !! p = Some r →
       queryPage p s = Some (overlay r) ∧ (overlay r, p) ∈ pagesDiv s)
  ∧ (∀ el p, (el, p) ∈ pagesDiv s →
       ∃ r, pageCache s !! p = Some r ∧ overlay r = el).
Proof.
  intros Hr. destruct (reachable_domInv s Hr) as ([Hs _] & Hnd & Hl & _).
  split; [exact Hnd|]. split; [now apply sorted_pages_NoDup|]. split.
  - intros p r Hc. pose proof (Hl p r Hc) as Hq.
    split; [exact Hq | now apply queryPage_elem].
  - intros el p He. exact (reachable_elementsRecorded s Hr (el, p) He).
Qed.

Lemma document_matches_cache_witness :
  ∃ s, movedWindow = Some s ∧ NoDup (pagesDiv s).*2.
Proof.
  pose proof movedWindow_reachable as R.
  assert (E : is_Some movedWindow) by (vm_compute; eexists; reflexivity).
  destruct movedWindow as [s|]; [|destruct E as [? E]; discriminate E].
  exists s. split; [reflexivity|].
  exact (proj1 (proj2 (document_matches_cache s (R s eq_refl)))).
Defined.

(** ** What stays in the cache *)

Lemma perform_keeps_cache a s s' p :
  perform a s = Some s' → a ≠ Env EvUpload →
  is_Some (pageCache s !! p) → is_Some (pageCache s' !! p).
Proof.
  destruct a as [e|i]; cbn [perform]; intros H Ha Hp.
  - apply handle_paints in H as [E _].
    assert (Ec : pageCache s' = pageCache s); [|now rewrite Ec].
    rewrite (f_equal (λ x, x.1.2) E : pageCache s' = _).
    destruct e; try reflexivity; [congruence|].
    destruct (currentDoc s); reflexivity.
  - apply runTask_resume in H as (q & k & o & _ & _ & _ & ->).
    set (s0 := with_tasks (delete i (tasks s)) s).
    assert (Hp0 : is_Some (pageCache s0 !! p)) by exact Hp. clearbody s0.
    destruct (resume_paints k o s0) as [[E _]|(p' & data & ret & ->)].
    + now rewrite (f_equal (λ x, x.1.2) E : pageCache _ = pageCache s0).
    + rewrite pageCache_renderPage. destruct (decide (p' = p)) as [->|Hne].
      * rewrite lookup_insert_eq. eexists; reflexivity.
      * now rewrite lookup_insert_ne.
Qed.

(** X4.  A loaded page stays loaded until the next upload: along a run
    in which no file is chosen, whatever is searched, clicked or scrolled and
    whichever loads arrive or fail, a page that has a record keeps having
    one. *)
Theorem loaded_pages_stay acts s s' p :
  Forall (λ a, a ≠ Env EvUpload) acts → run acts s = Some s' →
  is_Some (pageCache s !! p) → is_Some (pageCache s' !! p).
Proof.
  intros Hacts. revert s. induction Hacts as [|a acts Ha _ IH]; cbn [run]; intros s H Hp.
  - injection H as <-. exact Hp.
  - destruct (perform a s) as [s1|] eqn:E; [|discriminate H].
    apply (IH s1 H). exact (perform_keeps_cache _ _ _ _ E Ha Hp).
Qed.

Lemma loaded_pages_stay_witness :
  ∃ s, twoPages = Some s ∧ is_Some (pageCache s !! 1)
       ∧ is_Some (pageCache (runSearch "alpha" s).2 !! 1).
Proof.
  assert (F : (λ s, bool_decide (is_Some (pageCache s !! 1))) <$> twoPages = Some true)
    by (vm_compute; reflexivity).
  destruct twoPages as [s|]; [|discriminate F].
  injection F as F. apply bool_decide_eq_true in F.
  exists s. split; [reflexivity|]. split; [exact F|].
  apply (loaded_pages_stay [Env (EvSearch "alpha")] s (runSearch "alpha" s).2 1).
  - repeat constructor. discriminate.
  - reflexivity.
  - exact F.
Defined.

(** ** The jump counter *)

(** X5.  One step changes the jump counter by at most one and never lowers
    it; the click on a result row raises it by exactly one, so that the token
    of a click is above the token of every earlier jump. *)
Theorem jump_token_steps a s s' :
  perform a s = Some s' →
  currentJumpToken s ≤ currentJumpToken s' ≤ currentJumpToken s + 1
  ∧ (∀ idx, a = Env (EvClickRow idx) → currentJumpToken s' = currentJumpToken s + 1)
  ∧ (∀ acts s'', run acts s' = Some s'' → currentJumpToken s ≤ currentJumpToken s'').
Proof.
  intros H.
  assert (Hstep : currentJumpToken s ≤ currentJumpToken s' ≤ currentJumpToken s + 1
                  ∧ (∀ idx, a = Env (EvClickRow idx) →
                       currentJumpToken s' = currentJumpToken s + 1)).
  { destruct a as [e|i]; cbn [perform] in H.
    - pose proof (f_equal snd (handle_skeleton _ _ _ H)) as E. cbn [snd skeleton] in E.
      rewrite E. destruct e; try destruct (currentDoc s); cbn [snd skeleton];
        (split; [lia|]); intros idx' Hidx; try discriminate Hidx; reflexivity.
    - apply runTask_resume in H as (q & k & o & _ & _ & _ & ->).
      split; [|intros idx Hidx; discriminate Hidx].
      pose proof (f_equal snd (resume_skeleton k o (with_tasks (delete i (tasks s)) s))) as E.
      cbn [snd skeleton] in E. rewrite E.
      change (currentJumpToken s) with (skeleton (with_tasks (delete i (tasks s)) s)).2.
      destruct k, o as [|v|m]; cbn [snd skeleton]; try lia;
        destruct v; cbn [snd skeleton]; try lia.
      rewrite token_renderPage. cbn [currentJumpToken with_tasks]. lia. }
  split; [exact (proj1 Hstep)|]. split; [exact (proj2 Hstep)|].
  intros acts s'' Hrun. pose proof (perform_token _ _ _ H).
  pose proof (run_token _ _ _ Hrun). lia.
Qed.

Lemma jump_token_steps_witness :
  ∃ s s', movedWindow = Some s ∧ perform (Env (EvClickRow 0)) s = Some s'
          ∧ currentJumpToken s' = currentJumpToken s + 1.
Proof.
  assert (F : (λ s, bool_decide (is_Some (perform (Env (EvClickRow 0)) s))) <$> movedWindow
              = Some true) by (vm_compute; reflexivity).
  destruct movedWindow as [s|]; [|discriminate F].
  injection F as F. apply bool_decide_eq_true in F as [s' Hs'].
  exists s, s'. split; [reflexivity|]. split; [exact Hs'|].
  exact (proj1 (proj2 (jump_token_steps (Env (EvClickRow 0)) s s' Hs')) 0%nat eq_refl).
Defined.

(** ** The requests of the highlight window and of the preload *)

Lemma asks_refl Q s : asks Q s s.
Proof.
  split; [reflexivity|]. split; [auto|]. exists [].
  split; [now rewrite app_nil_r|]. split; constructor.
Qed.

Lemma asks_weaken (Q Q' : Z → Prop) s t : (∀ p, Q p → Q' p) → asks Q s t → asks Q' s t.
Proof.
  intros HQ (Hp & Hc & new & E & Hnd & Hall). split; [exact Hp|]. split; [exact Hc|].
  exists new. split; [exact E|]. split; [exact Hnd|].
  eapply Forall_impl; [exact Hall|]. intros r (d & p & Hd & Hr & Hq & Hn).
  exists d, p. split; [exact Hd|]. split; [exact Hr|]. split; [now apply HQ | exact Hn].
Qed.

Lemma asks_trans Q s t u : asks Q s t → asks Q t u → asks Q s u.
Proof.
  intros (Hp1 & Hc1 & n1 & E1 & Hnd1 & H1) (Hp2 & Hc2 & n2 & E2 & Hnd2 & H2).
  destruct (painting_fields s t Hp1) as (_ & _ & Hdoc & _).
  split; [congruence|]. split; [auto|]. exists (n1 ++ n2).
  split; [now rewrite E2, E1, app_assoc|]. split.
  - rewrite fmap_app. apply NoDup_app. split; [exact Hnd1|]. split; [|exact Hnd2].
    intros r Hr1 Hr2.
    apply list_elem_of_fmap in Hr1 as (x1 & -> & Hx1).
    apply list_elem_of_fmap in Hr2 as (x2 & Hx & Hx2).
    rewrite Forall_forall in H1, H2.
    destruct (H1 x1 Hx1) as (d1 & p1 & _ & Er1 & _ & _ & Hcov).
    destruct (H2 x2 Hx2) as (d2 & p2 & _ & Er2 & _ & Hn & _).
    rewrite Hx, Er2 in Er1. injection Er1 as _ ->. contradiction.
  - apply Forall_app. split.
    + eapply Forall_impl; [exact H1|]. intros r (d & p & Hd & Hr & HQ & Hn & Hcov).
      exists d, p. split; [exact Hd|]. split; [exact Hr|]. split; [exact HQ|].
      split; [exact Hn | now apply Hc2].
    + eapply Forall_impl; [exact H2|]. intros r (d & p & Hd & Hr & HQ & Hn & Hcov).
      exists d, p. split; [congruence|]. split; [exact Hr|]. split; [exact HQ|].
      split; [|exact Hcov]. intros H. apply Hn, Hc1, H.
Qed.

Lemma asks_quiet Q s t u : asks Q s t → quiet t u → asks Q s u.
Proof.
  intros (Hp & Hc & new & E & Hnd & Hall) (A & B & C).
  assert (Hcov : ∀ p, covered t p → covered u p).
  { intros p. unfold covered. rewrite C.
    now rewrite (f_equal pageCache A : pageCache u = pageCache t). }
  split; [rewrite <- Hp; now apply painting_plumbing|]. split; [auto|].
  exists new. split; [congruence|]. split; [exact Hnd|].
  eapply Forall_impl; [exact Hall|]. intros r (d & p & Hd & Hr & HQ & Hn & Hcv).
  exists d, p. split; [exact Hd|]. split; [exact Hr|]. split; [exact HQ|].
  split; [exact Hn | now apply Hcov].
Qed.

Lemma ensurePageLoaded_asks p s : asks (λ q, q = p) s (ensurePageLoaded p s).2.
Proof.
  destruct (decide (covered s p)) as [Hcov|Hn].
  { apply (asks_quiet _ s s); [apply asks_refl | now apply ensurePageLoaded_quiet]. }
  destruct (ensurePageLoaded_covers p s) as [Hnew Hmono].
  split; [apply painting_plumbing, plumbing_ensurePageLoaded|]. split; [exact Hmono|].
  revert Hnew. unfold ensurePageLoaded.
  destruct (pageCache s !! p) as [record|] eqn:Hc.
  { destruct Hn. left. eauto. }
  destruct (pageLoadPromises s !! p) as [ticket|] eqn:Ht.
  { destruct Hn. right. eauto. }
  unfold loadPage. destruct (currentDoc s) as [d|] eqn:Hd.
  - intros Hnew. exists [(ReqPage (doc_id d) p, nextPid s)].
    split; [reflexivity|]. split; [repeat constructor; apply not_elem_of_nil|].
    repeat constructor. exists d, p. repeat split; auto.
  - intros _. exists []. split; [cbn; now rewrite app_nil_r|]. split; constructor.
Qed.

Lemma safeEnsurePage_asks p s : asks (λ q, q = p) s (safeEnsurePage p s).2.
Proof.
  unfold safeEnsurePage. pose proof (ensurePageLoaded_asks p s) as H.
  destruct (ensurePageLoaded p s) as [q s1]. cbn [fst snd] in *.
  apply (asks_quiet _ s s1); [exact H | repeat split].
Qed.

Lemma asks_same Q s t :
  painting t = painting s → requests t = requests s →
  pageLoadPromises t = pageLoadPromises s → asks Q s t.
Proof.
  intros Hp Hr Ht. destruct (painting_fields s t Hp) as (Hc & _).
  split; [exact Hp|]. split.
  - intros p. unfold covered. now rewrite Hc, Ht.
  - exists []. split; [now rewrite app_nil_r|]. split; constructor.
Qed.

Lemma activatePage_asks p s :
  asks (λ q, q = p ∧ p ∈ matchPageSet s) s (activatePage p s).2.
Proof.
  unfold activatePage. destruct (set_has p (matchPageSet s)) eqn:Hm; cbn [negb].
  - apply set_has_true in Hm. pose proof (safeEnsurePage_asks p s) as H.
    destruct (safeEnsurePage p s) as [q s1]. cbn [fst snd] in *.
    apply (asks_quiet _ s s1); [|repeat split].
    eapply asks_weaken; [|exact H]. intros x ->. now split.
  - now apply asks_same.
Qed.

Lemma requests_highlightPageMatches p a s :
  requests (highlightPageMatches p a s) = requests s
  ∧ pageLoadPromises (highlightPageMatches p a s) = pageLoadPromises s.
Proof.
  pose proof (unboxed_highlightPageMatches p a s) as E.
  split; [exact (f_equal requests E) | exact (f_equal pageLoadPromises E)].
Qed.

Lemma windowStep_asks s p :
  asks (λ q, q = p ∧ p ∈ matchPageSet s) s (windowStep s p).
Proof.
  destruct (windowStep_post s p) as (Hp & _ & Hmono & _). revert Hp Hmono.
  unfold windowStep.
  destruct (set_has p (matchPageSet s) && negb (set_has p (highlightedPages s))) eqn:B1.
  - destruct (pageCache s !! p) as [record|] eqn:Hc.
    + intros Hp _. destruct (requests_highlightPageMatches p false s) as [Hr Ht].
      apply asks_same; [exact Hp | exact Hr | exact Ht].
    + intros _ _. apply activatePage_asks.
  - destruct (bool_decide (pageCache s !! p = None) && set_has p (matchPageSet s)) eqn:B2.
    + intros _ _. apply andb_true_iff in B2 as [_ Hm]. apply set_has_true in Hm.
      pose proof (safeEnsurePage_asks p s) as H.
      destruct (safeEnsurePage p s) as [q s1]. cbn [fst snd] in *.
      apply (asks_quiet _ s s1); [|repeat split].
      eapply asks_weaken; [|exact H]. intros x ->. now split.
    + intros _ _. apply asks_refl.
Qed.

Lemma prefetchStep_asks s p :
  asks (λ q, q = p ∧ p ∈ matchPageSet s) s (prefetchStep s p).
Proof.
  unfold prefetchStep.
  destruct (set_has p (matchPageSet s) && bool_decide (pageCache s !! p = None)) eqn:B.
  - apply andb_true_iff in B as [Hm _]. apply set_has_true in Hm.
    eapply asks_weaken; [|apply safeEnsurePage_asks]. intros x ->. now split.
  - apply asks_refl.
Qed.

Lemma foldl_asks (f : State → Z → State) ps s :
  (∀ t p, asks (λ q, q = p ∧ p ∈ matchPageSet t) t (f t p)) →
  asks (λ q, q ∈ ps ∧ q ∈ matchPageSet s) s (foldl f s ps).
Proof.
  intros Hf. revert s. induction ps as [|p ps IH]; intros s; cbn [foldl].
  - apply asks_refl.
  - pose proof (Hf s p) as H1. pose proof (IH (f s p)) as H2.
    destruct (painting_fields s (f s p) (proj1 H1)) as (_ & Hm & _).
    eapply asks_trans.
    + eapply asks_weaken; [|exact H1]. intros x [-> Hx]. split; [apply list_elem_of_here | exact Hx].
    + eapply asks_weaken; [|exact H2]. intros x [Hx1 Hx2].
      split; [now apply list_elem_of_further | now rewrite <- Hm].
Qed.

Lemma updateHighlightWindow_asks s d c :
  currentDoc s = Some d → currentCenterPage s = Some c →
  asks (λ q, q ∈ matchPageSet s
             ∧ (q ∈ windowPages d c ∨ q ∈ prefetchPages d c (scrollDirection s)))
       s (updateHighlightWindow s).
Proof.
  intros Hd Hc. rewrite (updateHighlightWindow_eq s d c Hd Hc). cbv zeta.
  destruct (foldl_evictStep_post (windowStart c) (windowEnd d c) (highlightedPages s) s)
    as (P1 & T1 & R1 & _).
  set (s1 := foldl (evictStep (windowStart c) (windowEnd d c)) s (highlightedPages s)) in *.
  pose proof (foldl_asks windowStep (windowPages d c) s1 windowStep_asks) as A2.
  set (s2 := foldl windowStep s1 (windowPages d c)) in *.
  pose proof (foldl_asks prefetchStep (prefetchPages d c (scrollDirection s2)) s2
                prefetchStep_asks) as A3.
  destruct (painting_fields s s1 P1) as (_ & M1 & _).
  destruct (painting_fields s1 s2 (proj1 A2)) as (_ & M2 & _ & _ & D2).
  destruct (painting_fields s s1 P1) as (_ & _ & _ & _ & D1).
  eapply asks_trans; [apply asks_same; [exact P1 | exact R1 | exact T1]|].
  eapply asks_trans.
  - eapply asks_weaken; [|exact A2]. intros x [Hx Hm]. split; [congruence | now left].
  - eapply asks_weaken; [|exact A3]. intros x [Hx Hm].
    split; [congruence | right; congruence].
Qed.

Lemma elem_of_range_down a b x : x ∈ range_down a b → b ≤ x ≤ a.
Proof.
  unfold range_down. intros H. apply list_elem_of_fmap in H as (i & -> & Hi).
  apply elem_of_seqZ in Hi. lia.
Qed.

Lemma elem_of_prefetchPages d c dir x :
  1 ≤ c ≤ pages d → x ∈ prefetchPages d c dir →
  1 ≤ x ≤ pages d ∧ c - 3 ≤ x ≤ c + 3 ∧ ¬ (windowStart c ≤ x ≤ windowEnd d c).
Proof.
  intros Hc. unfold prefetchPages, windowStart, windowEnd, HIGHLIGHT_BUFFER_BEFORE,
    HIGHLIGHT_BUFFER_AFTER, PREFETCH_EXTRA_AHEAD.
  destruct (dir =? 0); [intros H; now apply elem_of_nil in H|].
  destruct (0 <? dir).
  - unfold range_up. intros H. apply elem_of_seqZ in H. lia.
  - intros H. apply elem_of_range_down in H. lia.
Qed.

(** X6.  What [setCenterPage] has done when it returns, a document being
    open: the center is the page given; every highlighted page lies in the
    window [max(1,c-2), min(pages,c+2)]; and every match page of the window is
    highlighted if it has a record, and has a ticket, its load under way, if it
    has none.  The cache and the match set are as before. *)
Theorem setCenter_window s d c fromClick :
  currentDoc s = Some d →
  let u := setCenterPage c fromClick s in
  currentCenterPage u = Some c
  ∧ highlightWindow u = Some (windowStart c, windowEnd d c)
  ∧ pageCache u = pageCache s ∧ matchPageSet u = matchPageSet s
  ∧ (∀ p, p ∈ highlightedPages u → windowStart c ≤ p ≤ windowEnd d c)
  ∧ (∀ p, windowStart c ≤ p ≤ windowEnd d c → p ∈ matchPageSet s →
       match pageCache s !! p with
       | Some _ => p ∈ highlightedPages u
       | None => is_Some (pageLoadPromises u !! p)
       end).
Proof.
  intros Hd u.
  set (s0 := with_currentCenterPage (Some c) s).
  destruct (updateHighlightWindow_settles s0 d c Hd eq_refl) as (Hp & Hin & Hcov & Hshown & _).
  destruct (painting_fields s0 _ Hp) as (Hcache & Hmatch & Hdoc & Hcenter & _).
  assert (Eu : currentCenterPage u = currentCenterPage (updateHighlightWindow s0)
               ∧ currentDoc u = currentDoc (updateHighlightWindow s0)
               ∧ pageCache u = pageCache (updateHighlightWindow s0)
               ∧ matchPageSet u = matchPageSet (updateHighlightWindow s0)
               ∧ highlightedPages u = highlightedPages (updateHighlightWindow s0)
               ∧ pageLoadPromises u = pageLoadPromises (updateHighlightWindow s0)).
  { unfold u, setCenterPage. fold s0. cbv zeta.
    generalize (updateHighlightWindow s0). intros u0. destruct fromClick; repeat split. }
  destruct Eu as (E1 & E2 & E3 & E4 & E5 & E6).
  set (u0 := updateHighlightWindow s0) in *. clearbody u0.
  split; [now rewrite E1, Hcenter|]. split.
  { unfold highlightWindow. rewrite E1, E2, Hcenter, Hdoc.
    change (currentDoc s0) with (currentDoc s). rewrite Hd. reflexivity. }
  split; [now rewrite E3, Hcache|]. split; [now rewrite E4, Hmatch|]. split.
  - intros p. rewrite E5. intros H. now apply elem_of_windowPages, Hin.
  - intros p Hw Hm. apply elem_of_windowPages in Hw.
    assert (Hm0 : p ∈ matchPageSet u0) by now rewrite Hmatch.
    destruct (pageCache s !! p) as [record|] eqn:Hc.
    + rewrite E5. apply (Hshown p Hw Hm0). rewrite Hcache. change (pageCache s0) with (pageCache s).
      rewrite Hc. eauto.
    + rewrite E6. destruct (Hcov p Hw Hm0) as [[? H]|H]; [|exact H].
      rewrite Hcache in H. change (pageCache s0) with (pageCache s) in H. congruence.
Qed.

Lemma setCenter_window_witness :
  currentDoc (searched [2; 4; 9]) = Some doc10
  ∧ currentCenterPage (setCenterPage 4 false (searched [2; 4; 9])) = Some 4.
Proof.
  split; [reflexivity|].
  exact (proj1 (setCenter_window (searched [2; 4; 9]) doc10 4 false eq_refl)).
Defined.

(** X7.  The requests of [setCenterPage], the center being a page of the
    open document: they are page requests of that document, no page twice, each
    for a match page that had neither a record nor a ticket and has its ticket
    now, and that is a page of the document at most three pages from the
    center. *)
Theorem setCenter_requests s d c fromClick :
  currentDoc s = Some d → 1 ≤ c ≤ pages d →
  let u := setCenterPage c fromClick s in
  ∃ new, requests u = requests s ++ new
    ∧ NoDup new.*1
    ∧ Forall (λ r, ∃ p, r.1 = ReqPage (doc_id d) p
                 ∧ p ∈ matchPageSet s
                 ∧ pageCache s !! p = None ∧ pageLoadPromises s !! p = None
                 ∧ is_Some (pageLoadPromises u !! p)
                 ∧ 1 ≤ p ≤ pages d ∧ c - 3 ≤ p ≤ c + 3) new.
Proof.
  intros Hd Hc u.
  set (s0 := with_currentCenterPage (Some c) s).
  destruct (updateHighlightWindow_asks s0 d c Hd eq_refl) as (Hp & _ & new & E & Hnd & Hall).
  destruct (painting_fields s0 _ Hp) as (Hcache & _).
  assert (Eu : requests u = requests (updateHighlightWindow s0)
               ∧ pageLoadPromises u = pageLoadPromises (updateHighlightWindow s0)).
  { unfold u, setCenterPage. fold s0. cbv zeta.
    generalize (updateHighlightWindow s0). intros u0. destruct fromClick; split; reflexivity. }
  destruct Eu as [E1 E2].
  set (u0 := updateHighlightWindow s0) in *. clearbody u0.
  exists new. split; [now rewrite E1, E|]. split; [exact Hnd|].
  eapply Forall_impl; [exact Hall|].
  intros r (d' & p & Hd' & Hr & [Hm Hrange] & Hn & Hcov).
  change (currentDoc s0) with (currentDoc s) in Hd'. rewrite Hd in Hd'. injection Hd' as <-.
  change (matchPageSet s0) with (matchPageSet s) in Hm.
  assert (Hnone : pageCache s !! p = None ∧ pageLoadPromises s !! p = None).
  { unfold covered in Hn. change (pageCache s0) with (pageCache s) in Hn.
    change (pageLoadPromises s0) with (pageLoadPromises s) in Hn.
    destruct (pageCache s !! p), (pageLoadPromises s !! p); try (split; reflexivity);
      destruct Hn; eauto. }
  destruct Hnone as [Hn1 Hn2].
  exists p. split; [exact Hr|]. split; [exact Hm|]. split; [exact Hn1|].
  split; [exact Hn2|]. split.
  - rewrite E2. destruct Hcov as [[? H]|H]; [|exact H].
    rewrite Hcache in H. change (pageCache s0) with (pageCache s) in H. congruence.
  - destruct Hrange as [Hw|Hf].
    + apply elem_of_windowPages in Hw.
      unfold windowStart, windowEnd, HIGHLIGHT_BUFFER_BEFORE, HIGHLIGHT_BUFFER_AFTER in Hw. lia.
    + apply (elem_of_prefetchPages d c _ p Hc) in Hf. lia.
Qed.

Lemma setCenter_requests_witness :
  currentDoc (searched [2; 4; 9]) = Some doc10 ∧ 1 ≤ 4 ≤ pages doc10
  ∧ ∃ new, requests (setCenterPage 4 false (searched [2; 4; 9]))
           = requests (searched [2; 4; 9]) ++ new ∧ NoDup new.*1.
Proof.
  assert (H : 1 ≤ 4 ≤ pages doc10) by (cbn; lia).
  split; [reflexivity|]. split; [exact H|].
  destruct (setCenter_requests (searched [2; 4; 9]) doc10 4 false eq_refl H)
    as (new & E & Hnd & _).
  exists new. split; [exact E | exact Hnd].
Defined.

(** *** The preload of a jump *)

Lemma preloadStep_asks ps acc :
  asks (λ q, q ∈ ps) acc.2 (foldl preloadStep acc ps).2
  ∧ ∀ p, p ∈ ps → covered (foldl preloadStep acc ps).2 p.
Proof.
  revert acc. induction ps as [|p ps IH]; intros [loads s]; cbn [foldl].
  - split; [apply asks_refl | intros p Hp; now apply elem_of_nil in Hp].
  - assert (H1 : asks (λ q, q = p) s (preloadStep (loads, s) p).2
                 ∧ covered (preloadStep (loads, s) p).2 p).
    { cbn [preloadStep]. destruct (pageCache s !! p) as [record|] eqn:Hc.
      - cbn [snd]. split; [apply asks_refl | left; rewrite Hc; eauto].
      - pose proof (safeEnsurePage_asks p s) as H.
        pose proof (proj1 (safeEnsurePage_covers p s)) as Hcov.
        destruct (safeEnsurePage p s) as [q s1]. split; [exact H | exact Hcov]. }
    destruct H1 as [H1 Hcov]. destruct (IH (preloadStep (loads, s) p)) as [H2 Hall].
    split.
    + eapply asks_trans.
      * eapply asks_weaken; [|exact H1]. intros x ->. apply list_elem_of_here.
      * eapply asks_weaken; [|exact H2]. intros x Hx. now apply list_elem_of_further.
    + intros x Hx. apply elem_of_cons in Hx as [->|Hx]; [|now apply Hall].
      exact (proj1 (proj2 H2) p Hcov).
Qed.

(** X8.  The preload of a jump, a document being open: it asks for pages
    of the window [max(1,c-2), min(pages,c+2)] only, each once and only if the
    page had neither a record nor a ticket; afterwards every page of the
    window has a record or a ticket.  The cache is as before. *)
Theorem preloadJumpWindow_requests s d c :
  currentDoc s = Some d →
  let u := (preloadJumpWindow c s).2 in
  pageCache u = pageCache s
  ∧ (∀ p, windowStart c ≤ p ≤ windowEnd d c → covered u p)
  ∧ ∃ new, requests u = requests s ++ new
      ∧ NoDup new.*1
      ∧ Forall (λ r, ∃ p, r.1 = ReqPage (doc_id d) p
                   ∧ windowStart c ≤ p ≤ windowEnd d c
                   ∧ pageCache s !! p = None ∧ pageLoadPromises s !! p = None) new.
Proof.
  intros Hd u.
  assert (Hu : asks (λ q, q ∈ windowPages d c) s u ∧ ∀ p, p ∈ windowPages d c → covered u p).
  { unfold u. rewrite preloadJumpWindow_unfold, Hd. cbv zeta.
    change (range_up _ _) with (windowPages d c).
    destruct (preloadStep_asks (windowPages d c) ([], s)) as [H Hall].
    destruct (foldl preloadStep ([], s) (windowPages d c)) as [loads s1].
    cbn [fst snd] in *.
    assert (Hq : ∀ t, quiet s1 t → asks (λ q, q ∈ windowPages d c) s t
                                  ∧ ∀ p, p ∈ windowPages d c → covered t p).
    { intros t Ht. pose proof (asks_quiet _ _ _ _ H Ht) as H'. split; [exact H'|].
      intros p Hp. destruct Ht as (A & _ & C). specialize (Hall p Hp). unfold covered in *.
      now rewrite C, (f_equal pageCache A : pageCache t = pageCache s1). }
    destruct loads as [|q0 loads]; apply Hq; repeat split. }
  destruct Hu as [(Hp & _ & new & E & Hnd & Hall) Hcov].
  split; [exact (proj1 (painting_fields s u Hp))|]. split.
  { intros p Hw. now apply Hcov, elem_of_windowPages. }
  exists new. split; [exact E|]. split; [exact Hnd|].
  eapply Forall_impl; [exact Hall|]. intros r (d' & p & Hd' & Hr & Hw & Hn & _).
  rewrite Hd in Hd'. injection Hd' as <-.
  exists p. split; [exact Hr|]. split; [now apply elem_of_windowPages|].
  unfold covered in Hn.
  destruct (pageCache s !! p), (pageLoadPromises s !! p); try (split; reflexivity);
    destruct Hn; eauto.
Qed.

Lemma preloadJumpWindow_requests_witness :
  currentDoc (searched [2; 4; 9]) = Some doc10
  ∧ pageCache (preloadJumpWindow 4 (searched [2; 4; 9])).2 = pageCache (searched [2; 4; 9]).
Proof.
  split; [reflexivity|].
  exact (proj1 (preloadJumpWindow_requests (searched [2; 4; 9]) doc10 4 eq_refl)).
Defined.

(** ** Scrolling: the intersections of the pages with the viewport *)

Lemma bestEntry_fold (es : list (Z * bool * Q)) (best : option (Z * bool * Q)) :
  let f := λ (best : option (Z * bool * Q)) (e : Z * bool * Q),
             if negb e.1.2 then best
             else match best with
                  | None => Some e
                  | Some b => if negb (Qle_bool e.2 b.2) then Some e else best
                  end in
  match foldl f best es with
  | None => best = None ∧ ∀ e, e ∈ es → e.1.2 = false
  | Some b =>
      (Some b = best ∨ (b ∈ es ∧ b.1.2 = true))
      ∧ (∀ b0, best = Some b0 → (b0.2 <= b.2)%Q)
      ∧ (∀ e, e ∈ es → e.1.2 = true → (e.2 <= b.2)%Q)
  end.
Proof.
  intros f. revert best. induction es as [|e es IH]; intros best; cbn [foldl].
  - destruct best as [b|].
    + split; [now left|]. split.
      * intros b0 [= <-]. apply Qle_refl.
      * intros e He. now apply elem_of_nil in He.
    + split; [reflexivity|]. intros e He. now apply elem_of_nil in He.
  - specialize (IH (f best e)). destruct (foldl f (f best e) es) as [b|].
    + destruct IH as (Hb & Hbest & Hall).
      assert (Hstep : (f best e = best ∧ (e.1.2 = true → ∃ b0, best = Some b0 ∧ (e.2 <= b0.2)%Q))
                      ∨ (f best e = Some e ∧ e.1.2 = true
                         ∧ ∀ b0, best = Some b0 → (b0.2 <= e.2)%Q)).
      { unfold f. destruct (e.1.2) eqn:He; cbn [negb].
        - destruct best as [b0|].
          + destruct (Qle_bool e.2 b0.2) eqn:Hle; cbn [negb].
            * left. split; [reflexivity|]. intros _. exists b0.
              split; [reflexivity | now apply Qle_bool_iff].
            * right. split; [reflexivity|]. split; [reflexivity|].
              intros b1 [= <-]. apply Qlt_le_weak, Qnot_le_lt.
              intros H. apply Qle_bool_iff in H. congruence.
          + right. split; [reflexivity|]. split; [reflexivity|]. intros b0 H. discriminate H.
        - left. split; [reflexivity|]. intros H. discriminate H. }
      destruct Hstep as [[Ef He]|(Ef & He & Hge)].
      * rewrite Ef in Hb, Hbest. split; [|split].
        -- destruct Hb as [Hb|[Hb Hi]]; [now left | right; split; [now right | exact Hi]].
        -- exact Hbest.
        -- intros x Hx Hi. apply elem_of_cons in Hx as [->|Hx]; [|now apply Hall].
           destruct (He Hi) as (b0 & Eb & Hle). eapply Qle_trans; [exact Hle | now apply Hbest].
      * rewrite Ef in Hb, Hbest. split; [|split].
        -- right. destruct Hb as [[= ->]|[Hb Hi]].
           ++ split; [apply list_elem_of_here | exact He].
           ++ split; [now apply list_elem_of_further | exact Hi].
        -- intros b0 Eb. eapply Qle_trans; [exact (Hge b0 Eb) | now apply Hbest].
        -- intros x Hx Hi. apply elem_of_cons in Hx as [->|Hx]; [now apply Hbest | now apply Hall].
    + destruct IH as [Ef Hall].
      assert (Hb : best = None ∧ e.1.2 = false).
      { revert Ef. unfold f. destruct (e.1.2); cbn [negb]; [|now intros ->].
        destruct best as [b0|]; [|discriminate]. destruct (negb _); discriminate. }
      destruct Hb as [Hb He]. split; [exact Hb|].
      intros x Hx. apply elem_of_cons in Hx as [->|Hx]; [exact He | now apply Hall].
Qed.

Lemma updateHighlightWindow_painting s : painting (updateHighlightWindow s) = painting s.
Proof.
  destruct (currentDoc s) as [d|] eqn:Hd.
  - destruct (currentCenterPage s) as [c|] eqn:Hc.
    + exact (proj1 (updateHighlightWindow_settles s d c Hd Hc)).
    + unfold updateHighlightWindow. now rewrite Hd, Hc.
  - unfold updateHighlightWindow. now rewrite Hd.
Qed.

Lemma setCenterPage_fields c b s :
  currentCenterPage (setCenterPage c b s) = Some c
  ∧ scrollDirection (setCenterPage c b s) = scrollDirection s
  ∧ pageCache (setCenterPage c b s) = pageCache s
  ∧ matchPageSet (setCenterPage c b s) = matchPageSet s.
Proof.
  unfold setCenterPage. cbv zeta.
  destruct (painting_fields _ _ (updateHighlightWindow_painting
                                   (with_currentCenterPage (Some c) s)))
    as (E1 & E2 & _ & E3 & E4).
  revert E1 E2 E3 E4. generalize (updateHighlightWindow (with_currentCenterPage (Some c) s)).
  intros u E1 E2 E3 E4. destruct b; repeat split; assumption.
Qed.

(** X9.  What the viewer makes of a report of intersections.  While a
    programmatic scroll is in progress, or if no reported page intersects the
    viewport, the state stays as it is.  Otherwise the page taken is a reported
    page that intersects, with an intersection ratio that no other intersecting
    page of the report exceeds; if it is the center already nothing changes,
    and if not it becomes the center, the scroll direction being +1 if it
    lies after the old center and -1 if before. *)
Theorem intersections_center es s :
  let u := handlePageIntersections es s in
  (programmaticScrollInProgress s = true → u = s)
  ∧ ((∀ e, e ∈ es → e.1.2 = false) → u = s)
  ∧ (programmaticScrollInProgress s = false →
     (∃ e, e ∈ es ∧ e.1.2 = true) →
     ∃ b, b ∈ es ∧ b.1.2 = true
          ∧ (∀ e, e ∈ es → e.1.2 = true → (e.2 <= b.2)%Q)
          ∧ currentCenterPage u = Some b.1.1
          ∧ (currentCenterPage s = Some b.1.1 → u = s)
          ∧ (∀ c, currentCenterPage s = Some c → c ≠ b.1.1 →
               scrollDirection u = if c <? b.1.1 then 1 else -1)
          ∧ (currentCenterPage s = None → scrollDirection u = scrollDirection s)).
Proof.
  intros u. pose proof (bestEntry_fold es None) as Hbest. cbv zeta in Hbest.
  fold (bestEntry es) in Hbest.
  split; [|split].
  - intros Hp. unfold u, handlePageIntersections, bufferedHighlightMode. cbn [negb orb].
    destruct (length es =? 0)%nat; [reflexivity|]. now rewrite Hp.
  - intros Hnone. unfold u, handlePageIntersections.
    destruct (_ || _); [reflexivity|]. destruct (programmaticScrollInProgress s); [reflexivity|].
    destruct (bestEntry es) as [b|]; [|reflexivity].
    destruct Hbest as ([Hb|[Hin Hi]] & _); [discriminate Hb|].
    rewrite (Hnone b Hin) in Hi. discriminate Hi.
  - intros Hp (e0 & He0 & Hi0).
    destruct (bestEntry es) as [b|] eqn:Eb.
    2: { destruct Hbest as [_ Hall]. rewrite (Hall e0 He0) in Hi0. discriminate Hi0. }
    destruct Hbest as ([Hb|[Hin Hi]] & _ & Hmax); [discriminate Hb|].
    exists b. split; [exact Hin|]. split; [exact Hi|]. split; [exact Hmax|].
    assert (Hlen : (length es =? 0)%nat = false).
    { destruct es; [now apply elem_of_nil in Hin | reflexivity]. }
    assert (Eu : u = if bool_decide (currentCenterPage s = Some b.1.1) then s
                     else setCenterPage b.1.1 false
                            match currentCenterPage s with
                            | Some c => with_scrollDirection (if c <? b.1.1 then 1 else -1) s
                            | None => s
                            end).
    { unfold u, handlePageIntersections, bufferedHighlightMode. cbn [negb orb].
      now rewrite Hlen, Hp, Eb. }
    rewrite Eu. destruct (bool_decide_reflect (currentCenterPage s = Some b.1.1)) as [Hc|Hc].
    + split; [exact Hc|]. split; [reflexivity|]. split.
      * intros c Hc' Hne. congruence.
      * intros Hn. congruence.
    + destruct (setCenterPage_fields b.1.1 false
                  match currentCenterPage s with
                  | Some c => with_scrollDirection (if c <? b.1.1 then 1 else -1) s
                  | None => s
                  end) as (E1 & E2 & _).
      split; [exact E1|]. split; [intros H; contradiction|]. split.
      * intros c Hc' _. rewrite E2, Hc'. reflexivity.
      * intros Hn. rewrite E2, Hn. reflexivity.
Qed.

(** ** Starting a search *)

Lemma boxesOnPage_cleared p s : boxesOnPage p (clearAllHighlights s) = [].
Proof.
  unfold boxesOnPage.
  change (queryPage p (clearAllHighlights s)) with (queryPage p s).
  destruct (queryPage p s) as [el|] eqn:Hq; [|reflexivity].
  apply queryPage_elem in Hq. unfold boxesOf, clearAllHighlights. cbn.
  now rewrite (foldl_cleared _ _ (el, p) Hq).
Qed.

(** X10.  What [runSearch] does before it waits for the server.  Without a
    document it only says so: nothing is sent, and the words, the boxes, the
    match set and the highlighted pages stay.  With a document the words
    become the parsed input, the match set, the highlighted pages and the
    center are emptied and no page of the document keeps a box, the pages and
    the cache staying as they are; if the input holds no word, nothing is sent
    and the result list and the page text are emptied, and otherwise exactly
    one search request goes out, with the raw input. *)
Theorem search_start raw s :
  let u := (runSearch raw s).2 in
  match currentDoc s with
  | None =>
      statusMsg u = "Upload a PDF first."%string ∧ requests u = requests s
      ∧ currentWords u = currentWords s ∧ hlBoxes u = hlBoxes s
      ∧ matchPageSet u = matchPageSet s ∧ highlightedPages u = highlightedPages s
  | Some d =>
      currentWords u = parseWords raw
      ∧ matchPageSet u = [] ∧ highlightedPages u = [] ∧ currentCenterPage u = None
      ∧ (∀ p, boxesOnPage p u = [])
      ∧ pagesDiv u = pagesDiv s ∧ pageCache u = pageCache s
      ∧ match parseWords raw with
        | [] => statusMsg u = "No words entered."%string ∧ requests u = requests s
                ∧ resultRows u = [] ∧ pageText u = EmptyString
        | _ :: _ => statusMsg u = "Searching..."%string
                    ∧ requests u = requests s ++ [(ReqSearch (doc_id d) raw, nextPid s)]
        end
  end.
Proof.
  intros u. unfold u, runSearch. destruct (currentDoc s) as [d|]; [|repeat split].
  cbv zeta.
  assert (Hb : ∀ p t, hlBoxes t = hlBoxes (clearAllHighlights (with_currentWords (parseWords raw) s))
                      → pagesDiv t = pagesDiv s → boxesOnPage p t = []).
  { intros p t Eb Ed.
    rewrite <- (boxesOnPage_cleared p (with_currentWords (parseWords raw) s)).
    unfold boxesOnPage, boxesOf, queryPage. rewrite Eb, Ed. reflexivity. }
  destruct (parseWords raw) as [|w ws].
  - repeat (split; [reflexivity|]).
    split; [|repeat split]. intros p. now apply Hb.
  - repeat (split; [reflexivity|]).
    split; [|repeat split]. intros p. now apply Hb.
Qed.

(** ** A load that succeeds *)

Lemma renderPage_ledger p data ret s :
  tasks (renderPage p data ret s) = tasks s ++ [(nextPid s, KLoadImage p (nextEl s) ret)]
  ∧ promises (renderPage p data ret s) = <[nextPid s := Pending]> (promises s)
  ∧ requests (renderPage p data ret s)
    = requests s ++ [(ReqImage (image_url data) (nextEl s), nextPid s)]
  ∧ pageLoadPromises (renderPage p data ret s) = pageLoadPromises s.
Proof.
  unfold renderPage. cbv zeta. unfold send, newPromise. cbn [fst snd].
  rewrite dedupePageDom_eq, insertPageInOrder_eq. repeat split.
Qed.

Lemma highlightPageMatches_ledger p a s :
  tasks (highlightPageMatches p a s) = tasks s
  ∧ promises (highlightPageMatches p a s) = promises s
  ∧ requests (highlightPageMatches p a s) = requests s
  ∧ pageLoadPromises (highlightPageMatches p a s) = pageLoadPromises s.
Proof.
  pose proof (unboxed_highlightPageMatches p a s) as E. repeat split.
  - exact (f_equal tasks E).
  - exact (f_equal promises E).
  - exact (f_equal requests E).
  - exact (f_equal pageLoadPromises E).
Qed.

Lemma finishPage_ledger p el ret s :
  tasks (finishPage p el ret s) = tasks s
  ∧ promises (finishPage p el ret s) = <[ret := Fulfilled VUndefined]> (promises s)
  ∧ requests (finishPage p el ret s) = requests s
  ∧ pageLoadPromises (finishPage p el ret s) = pageLoadPromises s.
Proof.
  unfold finishPage, bufferedHighlightMode. cbv zeta. cbn [andb negb].
  set (x := with_pageObserver _ s). rewrite andb_false_r. cbn [andb].
  destruct (set_has p (matchPageSet x)); [|repeat split; reflexivity].
  destruct (match currentCenterPage x with Some c => _ | None => false end);
    [|repeat split; reflexivity].
  destruct (highlightPageMatches_ledger p false x) as (A & B & C & D).
  unfold return_, settle, addHighlighted. cbn. rewrite A, B, C, D. repeat split; reflexivity.
Qed.

Lemma finishPage_docs p el ret s :
  pagesDiv (finishPage p el ret s) = pagesDiv s
  ∧ pageCache (finishPage p el ret s) = pageCache s.
Proof.
  destruct (skeleton_inv _ _ _ _ _ _ (eq_trans (skeleton_finishPage p el ret s) eq_refl))
    as (A & _ & C & _).
  now split.
Qed.

Lemma paints_same s t :
  (skeleton t).1 = (skeleton s).1 → hlBoxes t = hlBoxes s → paints s t.
Proof. intros E Eb. exact (paints_ext s s t E Eb (paints_refl s)). Qed.

(** The answer to the page request arrives. *)
Lemma load_page_arrives s d p data :
  domInv s →
  currentDoc s = Some d → pageCache s !! p = None → pageLoadPromises s !! p = None →
  let q := nextPid s in
  let qi := S (S (S (S q))) in
  let record := {| tokens := data_tokens data; text := data_text data;
                   imageLoadedPromise := qi; overlay := nextEl s |} in
  ∃ s1,
    runTask (length (tasks s)) (settle q (Fulfilled (VPage data)) (safeEnsurePage p s).2)
    = Some s1
    ∧ pageCache s1 = <[p := record]> (pageCache s)
    ∧ queryPage p s1 = Some (nextEl s)
    ∧ requests s1 = requests s ++ [(ReqPage (doc_id d) p, q);
                                   (ReqImage (image_url data) (nextEl s), qi)]
    ∧ pageLoadPromises s1 = <[p := S q]> (pageLoadPromises s)
    ∧ promises s1 !! S (S (S q)) = Some Pending
    ∧ promises s1 !! qi = Some Pending
    ∧ tasks s1 = tasks s ++ [(S q, KEnsureFinally p (S (S q)));
                             (S (S q), KSafeEnsure p (S (S (S q))));
                             (qi, KLoadImage p (nextEl s) (S q))].
Proof.
  intros Hdom0 Hd Hc Ht q qi record.
  rewrite (safeEnsurePage_first s d p Hd Hc Ht). fold q. cbn [fst snd].
  set (tE := (S q, KEnsureFinally p (S (S q)))).
  set (tS := (S (S q), KSafeEnsure p (S (S (S q))))).
  match goal with |- context [settle q ?o ?s1] => set (s2 := settle q o s1) end.
  set (x2 := with_tasks (tasks s ++ [tE; tS]) s2).
  assert (R1 : runTask (length (tasks s)) s2 = Some (renderPage p data (S q) x2)).
  { rewrite (runTask_at (tasks s) q (KLoadFetched p (S q)) [tE; tS]
               (Fulfilled (VPage data)) s2);
      [reflexivity | reflexivity | apply lookup_insert_eq | discriminate]. }
  rewrite R1. clear R1.
  assert (F2 : nextPid x2 = qi ∧ nextEl x2 = nextEl s ∧ pageCache x2 = pageCache s
               ∧ tasks x2 = tasks s ++ [tE; tS]
               ∧ requests x2 = requests s ++ [(ReqPage (doc_id d) p, q)]
               ∧ pageLoadPromises x2 = <[p := S q]> (pageLoadPromises s)
               ∧ promises x2 !! S (S (S q)) = Some Pending).
  { repeat split. unfold x2, s2, settle. cbn [promises with_tasks with_promises].
    rewrite lookup_insert_ne by lia. apply lookup_insert_eq. }
  assert (Hdom : domInv x2)
    by exact (domInv_paints s x2 Hdom0 (paints_same s x2 eq_refl eq_refl)).
  clearbody x2. clear s2. destruct F2 as (N2 & L2 & C2 & T2 & Q2 & K2 & P2).
  apply (renderPage_domInv p data (S q)) in Hdom.
  destruct (renderPage_ledger p data (S q) x2) as (T3 & P3 & Q3 & K3).
  pose proof (pageCache_renderPage p data (S q) x2) as C3.
  rewrite N2, L2 in T3, Q3, C3. rewrite N2 in P3. rewrite T2 in T3. rewrite Q2 in Q3.
  rewrite K2 in K3. rewrite C2 in C3.
  exists (renderPage p data (S q) x2). split; [reflexivity|].
  split; [exact C3|]. split.
  { destruct Hdom as (_ & _ & Hl & _). apply (Hl p record). rewrite C3.
    apply lookup_insert_eq. }
  split; [rewrite Q3, <- app_assoc; reflexivity|].
  split; [exact K3|]. split.
  { rewrite P3. rewrite lookup_insert_ne by (unfold qi; lia). exact P2. }
  split; [rewrite P3; apply lookup_insert_eq|].
  rewrite T3, <- app_assoc. reflexivity.
Qed.

(** The image has loaded. *)
Lemma load_image_arrives s1 pre p el q record :
  let qi := S (S (S (S q))) in
  let ret := S (S (S q)) in
  pageCache s1 !! p = Some record →
  tasks s1 = pre ++ [(S q, KEnsureFinally p (S (S q))); (S (S q), KSafeEnsure p ret);
                     (qi, KLoadImage p el (S q))] →
  ∃ s2,
    run [Resume (length pre + 2)%nat; Resume (length pre); Resume (length pre)]
        (settle qi (Fulfilled VUndefined) s1) = Some s2
    ∧ pageCache s2 = pageCache s1 ∧ pagesDiv s2 = pagesDiv s1
    ∧ pageLoadPromises s2 !! p = None
    ∧ requests s2 = requests s1
    ∧ tasks s2 = pre
    ∧ promises s2 !! ret = Some (Fulfilled VUndefined)
    ∧ requests (ensurePageLoaded p s2).2 = requests s2.
Proof.
  intros qi ret Hrec T3.
  set (tE := (S q, KEnsureFinally p (S (S q)))) in *.
  set (tS := (S (S q), KSafeEnsure p ret)) in *.
  set (s4 := settle qi (Fulfilled VUndefined) s1).
  set (x4 := with_tasks ((pre ++ [tE; tS]) ++ []) s4).
  assert (R2 : runTask (length pre + 2) s4 = Some (finishPage p el (S q) x4)).
  { assert (Hlen : (length pre + 2)%nat = length (pre ++ [tE; tS]))
      by (rewrite length_app; reflexivity).
    rewrite Hlen.
    rewrite (runTask_at (pre ++ [tE; tS]) qi (KLoadImage p el (S q)) []
               (Fulfilled VUndefined) s4);
      [reflexivity | rewrite <- app_assoc; exact T3 | apply lookup_insert_eq | discriminate]. }
  assert (F4 : tasks x4 = pre ++ [tE; tS]
               ∧ requests x4 = requests s1 ∧ pageLoadPromises x4 = pageLoadPromises s1
               ∧ pagesDiv x4 = pagesDiv s1 ∧ pageCache x4 = pageCache s1)
    by (repeat split; apply app_nil_r).
  clearbody x4. destruct F4 as (T4 & Q4 & K4 & D4 & C4).
  destruct (finishPage_ledger p el (S q) x4) as (T5 & P5 & Q5 & K5).
  destruct (finishPage_docs p el (S q) x4) as (D5 & C5).
  rewrite T4 in T5. rewrite Q4 in Q5. rewrite K4 in K5. rewrite D4 in D5. rewrite C4 in C5.
  set (s5 := finishPage p el (S q) x4) in *. clearbody s5.
  set (x5 := with_tasks (pre ++ [tS]) s5).
  set (s6 := return_ (S (S q)) (with_pageLoadPromises (delete p (pageLoadPromises x5)) x5)).
  assert (R3 : runTask (length pre) s5 = Some s6).
  { rewrite (runTask_at pre (S q) (KEnsureFinally p (S (S q))) [tS]
               (Fulfilled VUndefined) s5);
      [reflexivity | exact T5 | rewrite P5; apply lookup_insert_eq | discriminate]. }
  assert (F6 : tasks s6 = pre ++ [tS] ∧ promises s6 !! S (S q) = Some (Fulfilled VUndefined)
               ∧ pageCache s6 = pageCache s1 ∧ pagesDiv s6 = pagesDiv s1
               ∧ requests s6 = requests s1 ∧ pageLoadPromises s6 !! p = None).
  { split; [reflexivity|]. split; [apply lookup_insert_eq|]. split; [exact C5|].
    split; [exact D5|]. split; [exact Q5|]. apply lookup_delete_eq. }
  clearbody s6. clear x5. destruct F6 as (T6 & P6 & C6 & D6 & Q6 & K6).
  set (s7 := return_ (S (S (S q))) (with_tasks (pre ++ []) s6)).
  assert (R4 : runTask (length pre) s6 = Some s7).
  { rewrite (runTask_at pre (S (S q)) (KSafeEnsure p (S (S (S q)))) []
               (Fulfilled VUndefined) s6);
      [reflexivity | exact T6 | exact P6 | discriminate]. }
  assert (F7 : tasks s7 = pre ∧ promises s7 !! ret = Some (Fulfilled VUndefined)
               ∧ pageCache s7 = pageCache s1 ∧ pagesDiv s7 = pagesDiv s1
               ∧ requests s7 = requests s1 ∧ pageLoadPromises s7 !! p = None).
  { split; [apply app_nil_r|]. split; [apply lookup_insert_eq|]. split; [exact C6|].
    split; [exact D6|]. split; [exact Q6|]. exact K6. }
  clearbody s7. destruct F7 as (T7 & P7 & C7 & D7 & Q7 & K7).
  exists s7. split.
  { cbn [run perform]. fold s4. rewrite R2, R3, R4. reflexivity. }
  split; [exact C7|]. split; [exact D7|]. split; [exact K7|]. split; [exact Q7|].
  split; [exact T7|]. split; [exact P7|].
  assert (Hc7 : pageCache s7 !! p = Some record) by now rewrite C7.
  rewrite (ensurePageLoaded_cached s7 p record Hc7). reflexivity.
Qed.

(** X11.  A load that succeeds, in a reachable state with a document open,
    for a page [p] that has neither a record nor a ticket.  When the answer to
    the page request arrives, the page is rendered: its record is stored, with
    the tokens and the text of the answer, its element is in the document, and
    the image is requested, the ticket staying until the image has loaded.  When
    the image has loaded the ticket is removed and the caller is resumed; no
    further request was sent, nothing of the load is left parked, and a later
    [ensurePageLoaded(p)] sends nothing. *)
Theorem load_success s d p data :
  reachable s →
  currentDoc s = Some d → pageCache s !! p = None → pageLoadPromises s !! p = None →
  let q := nextPid s in
  let qi := S (S (S (S q))) in
  let n := length (tasks s) in
  let call := safeEnsurePage p s in
  let record := {| tokens := data_tokens data; text := data_text data;
                   imageLoadedPromise := qi; overlay := nextEl s |} in
  ∃ s1 s2,
    run [Resume n] (settle q (Fulfilled (VPage data)) call.2) = Some s1
    ∧ pageCache s1 = <[p := record]> (pageCache s)
    ∧ queryPage p s1 = Some (nextEl s)
    ∧ requests s1 = requests s ++ [(ReqPage (doc_id d) p, q);
                                   (ReqImage (image_url data) (nextEl s), qi)]
    ∧ pageLoadPromises s1 !! p = Some (S q)
    ∧ promises s1 !! call.1 = Some Pending
    ∧ run [Resume (n + 2)%nat; Resume n; Resume n] (settle qi (Fulfilled VUndefined) s1)
      = Some s2
    ∧ pageCache s2 = pageCache s1 ∧ pagesDiv s2 = pagesDiv s1
    ∧ pageLoadPromises s2 !! p = None
    ∧ requests s2 = requests s1
    ∧ tasks s2 = tasks s
    ∧ promises s2 !! call.1 = Some (Fulfilled VUndefined)
    ∧ requests (ensurePageLoaded p s2).2 = requests s2.
Proof.
  intros Hr Hd Hc Ht q qi n call record.
  assert (Ecall : call.1 = S (S (S q)))
    by (unfold call; now rewrite (safeEnsurePage_first s d p Hd Hc Ht)).
  destruct (load_page_arrives s d p data (reachable_domInv s Hr) Hd Hc Ht)
    as (s1 & R1 & C1 & Q1 & Rq1 & K1 & P1 & _ & T1).
  fold q qi call record in R1, C1, Rq1, K1, P1, T1.
  assert (Hrec : pageCache s1 !! p = Some record) by (rewrite C1; apply lookup_insert_eq).
  destruct (load_image_arrives s1 (tasks s) p (nextEl s) q record Hrec T1)
    as (s2 & R2 & C2 & D2 & K2 & Rq2 & T2 & P2 & E2).
  exists s1, s2. rewrite Ecall.
  split. { cbn [run perform]. unfold n. now rewrite R1. }
  split; [exact C1|]. split; [exact Q1|]. split; [exact Rq1|].
  split; [rewrite K1; apply lookup_insert_eq|]. split; [exact P1|].
  split; [exact R2|]. repeat (split; [assumption|]). exact E2.
Qed.

Lemma load_success_witness :
  ∃ s s1, uploaded = Some s
    ∧ currentDoc s = Some doc10 ∧ pageCache s !! 5 = None ∧ pageLoadPromises s !! 5 = None
    ∧ run [Resume (length (tasks s))]
          (settle (nextPid s) arrives (safeEnsurePage 5 s).2) = Some s1
    ∧ queryPage 5 s1 = Some (nextEl s).
Proof.
  assert (F : (λ s, (currentDoc s, pageCache s !! 5, pageLoadPromises s !! 5)) <$> uploaded
              = Some (Some doc10, None, None)) by (vm_compute; reflexivity).
  pose proof uploaded_reachable as R.
  destruct uploaded as [s|]; [|discriminate F].
  injection F as Hd Hc Ht.
  destruct (load_success s doc10 5 samplePage (R s eq_refl) Hd Hc Ht)
    as (s1 & s2 & R1 & _ & Q1 & _).
  exists s, s1. repeat (split; [assumption || reflexivity|]). exact Q1.
Defined.

(** ** Zoom *)

Lemma applyZoom_cases x s :
  applyZoom x s = s
  ∨ (applyZoom x s = with_currentScale (Qmin MAX_SCALE (Qmax MIN_SCALE x)) s
     ∧ is_Some (currentDoc s)).
Proof.
  unfold applyZoom. destruct (currentDoc s); [|now left]. cbv zeta.
  destruct (negb _); [now left | right; split; [reflexivity | eauto]].
Qed.

Lemma clamp_range x : (MIN_SCALE <= Qmin MAX_SCALE (Qmax MIN_SCALE x) <= MAX_SCALE)%Q.
Proof.
  split; [|apply Q.le_min_l].
  apply Q.min_glb; [discriminate | apply Q.le_max_l].
Qed.

Lemma applyZoom_range x s :
  (MIN_SCALE <= currentScale s <= MAX_SCALE)%Q →
  (MIN_SCALE <= currentScale (applyZoom x s) <= MAX_SCALE)%Q
  ∧ with_currentScale 1%Q (applyZoom x s) = with_currentScale 1%Q s.
Proof.
  intros H. destruct (applyZoom_cases x s) as [->|[-> _]]; [now split|].
  split; [apply clamp_range | reflexivity].
Qed.

Lemma applyZoom_at x s :
  (Qmin MAX_SCALE (Qmax MIN_SCALE x) == currentScale s)%Q → applyZoom x s = s.
Proof.
  intros E. unfold applyZoom. destruct (currentDoc s); [|reflexivity]. cbv zeta.
  assert (H : Qle_bool (1 # 1000) (Qabs (Qmin MAX_SCALE (Qmax MIN_SCALE x) - currentScale s))
              = false); [|now rewrite H].
  apply not_true_is_false. intros H. apply Qle_bool_iff in H.
  rewrite E in H.
  assert (E0 : (currentScale s - currentScale s == 0)%Q) by ring.
  rewrite E0 in H. revert H. apply Qlt_not_le. reflexivity.
Qed.

(** X12.  Zooming.  Once the scale is in the range from [MIN_SCALE] to
    [MAX_SCALE] it stays there, whatever zoom buttons are clicked, and the
    clicks change nothing but the scale; without a document they change
    nothing at all.  At the largest scale a click on zoom-in changes nothing,
    and so does a click on zoom-out at the smallest. *)
Theorem zoom_stays_in_range clicks s :
  (MIN_SCALE <= currentScale s <= MAX_SCALE)%Q →
  let u := foldl (λ s b, zoomClick b s) s clicks in
  (MIN_SCALE <= currentScale u <= MAX_SCALE)%Q
  ∧ with_currentScale 1%Q u = with_currentScale 1%Q s
  ∧ (currentDoc s = None → u = s)
  ∧ (currentScale s == MAX_SCALE → zoomClick true s = s)%Q
  ∧ (currentScale s == MIN_SCALE → zoomClick false s = s)%Q.
Proof.
  intros H u. split; [|split; [|split; [|split]]].
  - unfold u. clear u. revert s H. induction clicks as [|b clicks IH]; intros s H; [exact H|].
    cbn [foldl]. apply IH. unfold zoomClick. now apply applyZoom_range.
  - unfold u. clear u. revert s H. induction clicks as [|b clicks IH]; intros s H; [reflexivity|].
    cbn [foldl]. unfold zoomClick at 2.
    destruct (applyZoom_range
                (if b then currentScale s + SCALE_STEP
                 else currentScale s - SCALE_STEP)%Q s H) as [H1 H2].
    rewrite (IH _ H1). exact H2.
  - intros Hd. unfold u. clear u H. induction clicks as [|b clicks IH]; [reflexivity|].
    cbn [foldl]. unfold zoomClick at 2, applyZoom. rewrite Hd. exact IH.
  - intros E. apply applyZoom_at. rewrite E. reflexivity.
  - intros E. apply applyZoom_at. rewrite E. reflexivity.
Qed.

Lemma zoom_stays_in_range_witness :
  (MIN_SCALE <= currentScale (searched [4%Z]) <= MAX_SCALE)%Q
  ∧ (MIN_SCALE <= currentScale (foldl (λ s b, zoomClick b s) (searched [4%Z])
                                  [true; true; false]) <= MAX_SCALE)%Q.
Proof.
  assert (H : (MIN_SCALE <= currentScale (searched [4%Z]) <= MAX_SCALE)%Q)
    by (split; discriminate).
  split; [exact H|].
  exact (proj1 (zoom_stays_in_range [true; true; false] (searched [4%Z]) H)).
Defined.

(** ** Duplicates of a page element *)

(** X13.  What [dedupePageDom] leaves of the document, the elements having
    distinct identities: the elements of the other pages, all of them and in
    their order, and of the elements of the page the last one only. *)
Theorem dedupePageDom_keeps_last p s :
  NoDup (pagesDiv s).*1 →
  let l := pagesDiv s in
  let l' := pagesDiv (dedupePageDom p s) in
  filter (λ e, e.2 ≠ p) l' = filter (λ e, e.2 ≠ p) l
  ∧ filter (λ e, e.2 = p) l' = option_list (last (filter (λ e, e.2 = p) l)).
Proof.
  intros Hnd l l'. unfold l'. rewrite dedupePageDom_eq. cbn [pagesDiv with_pagesDiv].
  fold l. unfold dedupeList. cbv zeta.
  remember (filter (λ e : nat * Z, e.2 = p) l) as nodes eqn:Hn.
  destruct (length nodes <=? 1)%nat eqn:Hlen.
  { split; [reflexivity|]. rewrite <- Hn.
    destruct nodes as [|x [|y r]]; [reflexivity | reflexivity | discriminate Hlen]. }
  assert (Hsub : ∀ e, e ∈ nodes → e ∈ l ∧ e.2 = p).
  { intros e He. rewrite Hn in He. apply list_elem_of_filter in He. tauto. }
  assert (Hnd' : NoDup nodes.*1).
  { rewrite Hn. apply (sublist_NoDup _ l.*1); [exact Hnd|].
    apply fmap_sublist, sublist_filter. }
  destruct nodes as [|x0 r0] using rev_ind; [discriminate Hlen|]. clear IHr0.
  rename r0 into front.
  assert (Etake : take (length (front ++ [x0]) - 1) (front ++ [x0]) = front).
  { rewrite length_app. cbn [length]. replace (length front + 1 - 1)%nat with (length front) by lia.
    apply take_app_length. }
  rewrite Etake. rewrite last_snoc. cbn [option_list].
  rewrite fmap_app in Hnd'. apply NoDup_app in Hnd' as (_ & Hdis & _).
  assert (Hrem : ∀ e, e ∈ l → e.1 ∈ front.*1 → e ∈ front).
  { intros e He Hin. apply list_elem_of_fmap in Hin as (y & Ey & Hy).
    assert (Hyl : y ∈ l) by (apply Hsub, elem_of_app; now left).
    now rewrite (NoDup_fmap_elem fst l e y Hnd He Hyl Ey). }
  split.
  - rewrite list_filter_filter. apply filter_ext_elem. intros e He. split; [tauto|].
    intros Hne. split; [exact Hne|]. intros Hin. apply Hne.
    apply (Hsub e). apply elem_of_app. left. now apply Hrem.
  - rewrite list_filter_filter.
    assert (E : filter (λ e : nat * Z, e.2 = p ∧ e.1 ∉ front.*1) l
                = filter (λ e : nat * Z, e.1 ∉ front.*1) (front ++ [x0])).
    { rewrite Hn. rewrite list_filter_filter. apply filter_ext_elem. intros; tauto. }
    rewrite E, filter_app.
    assert (E1 : filter (λ e : nat * Z, e.1 ∉ front.*1) front = []).
    { apply filter_empty_iff, Forall_forall. intros e He Hx. apply Hx.
      apply list_elem_of_fmap. now exists e. }
    rewrite E1. rewrite filter_cons, filter_nil.
    destruct (decide (x0.1 ∉ front.*1)) as [_|Hx]; [reflexivity|].
    exfalso. apply Hx. intros Hin. apply (Hdis x0.1 Hin). cbn. apply list_elem_of_here.
Qed.

Lemma dedupePageDom_keeps_last_witness :
  NoDup (pagesDiv duplicated).*1
  ∧ filter (λ e, e.2 = 3) (pagesDiv (dedupePageDom 3 duplicated))
    = option_list (last (filter (λ e, e.2 = 3) (pagesDiv duplicated))).
Proof.
  assert (H : NoDup (pagesDiv duplicated).*1)
    by (apply (bool_decide_unpack (NoDup _)); vm_compute; exact I).
  split; [exact H|].
  exact (proj2 (dedupePageDom_keeps_last 3 duplicated H)).
Defined.

(** ** The boxes of the pages that leave the window *)

Lemma queryPage_inj s p p' el :
  NoDup (pagesDiv s).*1 → queryPage p s = Some el → queryPage p' s = Some el → p = p'.
Proof.
  intros Hnd H1 H2. apply queryPage_elem in H1, H2.
  exact (f_equal snd (NoDup_fmap_elem fst (pagesDiv s) (el, p) (el, p') Hnd H1 H2 eq_refl)).
Qed.

Lemma boxesOnPage_cleared_page p s : boxesOnPage p (clearHighlightsOnPage p s) = [].
Proof.
  unfold boxesOnPage, clearHighlightsOnPage.
  destruct (queryPage p s) as [el|] eqn:Hq.
  - change (queryPage p (with_hlBoxes (<[el:=[]]> (hlBoxes s)) s)) with (queryPage p s).
    rewrite Hq. unfold boxesOf. cbn. now rewrite lookup_insert_eq.
  - now rewrite Hq.
Qed.

Lemma boxesOnPage_clear_other p p' s :
  NoDup (pagesDiv s).*1 → p' ≠ p →
  boxesOnPage p' (clearHighlightsOnPage p s) = boxesOnPage p' s.
Proof.
  intros Hnd Hne. unfold boxesOnPage, clearHighlightsOnPage.
  destruct (queryPage p s) as [el|] eqn:Hq; [|reflexivity].
  change (queryPage p' (with_hlBoxes (<[el:=[]]> (hlBoxes s)) s)) with (queryPage p' s).
  destruct (queryPage p' s) as [el'|] eqn:Hq'; [|reflexivity].
  unfold boxesOf. cbn. rewrite lookup_insert_ne; [reflexivity|].
  intros ->. apply Hne. exact (queryPage_inj s p' p el' Hnd Hq' Hq).
Qed.

Lemma boxesOnPage_highlight_other p p' a s :
  domInv s → p' ≠ p →
  boxesOnPage p' (highlightPageMatches p a s) = boxesOnPage p' s.
Proof.
  intros (_ & Hnd & Hl & Hstale & _) Hne. unfold boxesOnPage.
  rewrite queryPage_highlightPageMatches.
  destruct (queryPage p' s) as [el'|] eqn:Hq'; [|reflexivity].
  destruct (pageCache s !! p) as [cache|] eqn:Hc.
  - pose proof (Hl p cache Hc) as Hq.
    assert (Hempty : currentWords s = [] → boxesOf (overlay cache) s = []).
    { intros Hw. exact (Hstale Hw (overlay cache, p) (queryPage_elem p s _ Hq)). }
    destruct (highlightPageMatches_boxes s p cache a Hc Hq Hempty) as [_ Hother].
    apply Hother. intros ->. apply Hne. exact (queryPage_inj s p' p _ Hnd Hq' Hq).
  - unfold highlightPageMatches. now rewrite Hc.
Qed.

Lemma boxesOnPage_plumbing p s t : plumbing t = plumbing s → boxesOnPage p t = boxesOnPage p s.
Proof. intros E. exact (f_equal (boxesOnPage p) E). Qed.

Lemma keepsBoxes_refl P s : domInv s → keepsBoxes P s s.
Proof. intros H. split; [exact H | reflexivity]. Qed.

Lemma keepsBoxes_trans (P : Z → Prop) s t u :
  keepsBoxes P s t → keepsBoxes P t u → keepsBoxes P s u.
Proof.
  intros [_ H1] [Hd H2]. split; [exact Hd|]. intros p Hp. now rewrite (H2 p Hp), (H1 p Hp).
Qed.

Lemma keepsBoxes_weaken (P Q : Z → Prop) s t :
  (∀ p, P p → Q p) → keepsBoxes P s t → keepsBoxes Q s t.
Proof. intros HPQ [Hd H]. split; [exact Hd|]. intros p Hp. apply H. auto. Qed.

Lemma evictStep_keepsBoxes a b s p :
  domInv s → keepsBoxes (λ x, x = p ∧ ¬ (a ≤ p ≤ b)) s (evictStep a b s p).
Proof.
  intros Hd. split.
  - apply (domInv_paints s); [exact Hd|]. apply paints_evictStep, paints_refl.
  - intros p' Hp'. unfold evictStep.
    destruct ((p <? a) || (b <? p)) eqn:B; [|reflexivity].
    change (boxesOnPage p' (clearHighlightsOnPage p s) = boxesOnPage p' s).
    apply boxesOnPage_clear_other; [exact (proj1 (proj2 Hd))|].
    intros ->. apply Hp'. split; [reflexivity|].
    apply orb_true_iff in B as [B|B]; apply Z.ltb_lt in B; lia.
Qed.

Lemma evictStep_clears a b s p :
  ¬ (a ≤ p ≤ b) → boxesOnPage p (evictStep a b s p) = [].
Proof.
  intros Hout. unfold evictStep.
  destruct ((p <? a) || (b <? p)) eqn:B.
  - change (boxesOnPage p (clearHighlightsOnPage p s) = []). apply boxesOnPage_cleared_page.
  - apply orb_false_iff in B as [B1 B2]. apply Z.ltb_ge in B1, B2. lia.
Qed.

Lemma foldl_evictStep_keepsBoxes a b ps s :
  domInv s →
  keepsBoxes (λ x, x ∈ ps ∧ ¬ (a ≤ x ≤ b)) s (foldl (evictStep a b) s ps)
  ∧ ∀ p, p ∈ ps → ¬ (a ≤ p ≤ b) → boxesOnPage p (foldl (evictStep a b) s ps) = [].
Proof.
  revert s. induction ps as [|p ps IH]; intros s Hd; cbn [foldl].
  - split; [now apply keepsBoxes_refl | intros p Hp; now apply elem_of_nil in Hp].
  - pose proof (evictStep_keepsBoxes a b s p Hd) as H1.
    destruct (IH (evictStep a b s p) (proj1 H1)) as [H2 Hclr]. split.
    + eapply keepsBoxes_trans.
      * eapply keepsBoxes_weaken; [|exact H1]. intros x [-> Hx].
        split; [apply list_elem_of_here | exact Hx].
      * eapply keepsBoxes_weaken; [|exact H2]. intros x [Hx Ho].
        split; [now apply list_elem_of_further | exact Ho].
    + intros x Hx Hout. destruct (decide (x ∈ ps)) as [Hin|Hnin]; [now apply Hclr|].
      apply elem_of_cons in Hx as [->|Hx]; [|contradiction].
      rewrite (proj2 H2 p); [now apply evictStep_clears|]. tauto.
Qed.

Lemma windowStep_keepsBoxes s p : domInv s → keepsBoxes (λ x, x = p) s (windowStep s p).
Proof.
  intros Hd. split.
  - apply (domInv_paints s); [exact Hd|]. apply paints_windowStep, paints_refl.
  - intros p' Hp'. unfold windowStep.
    destruct (set_has p (matchPageSet s) && negb (set_has p (highlightedPages s))).
    + destruct (pageCache s !! p).
      * change (boxesOnPage p' (highlightPageMatches p false s) = boxesOnPage p' s).
        now apply boxesOnPage_highlight_other.
      * apply boxesOnPage_plumbing, plumbing_activatePage.
    + destruct (bool_decide (pageCache s !! p = None) && set_has p (matchPageSet s));
        [|reflexivity].
      pose proof (plumbing_safeEnsurePage p s) as E.
      destruct (safeEnsurePage p s) as [q s1]. cbn [fst snd] in *.
      now apply boxesOnPage_plumbing.
Qed.

Lemma prefetchStep_keepsBoxes s p :
  domInv s → keepsBoxes (λ _, False) s (prefetchStep s p).
Proof.
  intros Hd. split.
  - apply (domInv_paints s); [exact Hd|]. apply paints_prefetchStep, paints_refl.
  - intros p' _. unfold prefetchStep. destruct (_ && _); [|reflexivity].
    apply boxesOnPage_plumbing, plumbing_safeEnsurePage.
Qed.

Lemma foldl_keepsBoxes (f : State → Z → State) (Q : Z → Prop) ps s :
  (∀ t p, domInv t → keepsBoxes (λ x, x = p ∧ Q p) t (f t p)) →
  domInv s → keepsBoxes (λ x, x ∈ ps ∧ Q x) s (foldl f s ps).
Proof.
  intros Hf. revert s. induction ps as [|p ps IH]; intros s Hd; cbn [foldl].
  - now apply keepsBoxes_refl.
  - pose proof (Hf s p Hd) as H1. pose proof (IH (f s p) (proj1 H1)) as H2.
    eapply keepsBoxes_trans.
    + eapply keepsBoxes_weaken; [|exact H1]. intros x [-> Hx].
      split; [apply list_elem_of_here | exact Hx].
    + eapply keepsBoxes_weaken; [|exact H2]. intros x [Hx HQ].
      split; [now apply list_elem_of_further | exact HQ].
Qed.

(** X14.  The boxes outside the window, in a reachable state with a
    document open.  When [setCenterPage] returns, a page outside the new
    window carries no box if it was one of the highlighted pages, and the boxes
    it had if it was not. *)
Theorem setCenter_evicts s d c fromClick :
  reachable s → currentDoc s = Some d →
  let u := setCenterPage c fromClick s in
  ∀ p, ¬ (windowStart c ≤ p ≤ windowEnd d c) →
    boxesOnPage p u = if decide (p ∈ highlightedPages s) then [] else boxesOnPage p s.
Proof.
  intros Hr Hd u p Hout.
  set (s0 := with_currentCenterPage (Some c) s).
  assert (Hd0 : domInv s0) by exact (reachable_domInv s Hr).
  assert (Eu : boxesOnPage p u = boxesOnPage p (updateHighlightWindow s0)).
  { unfold u, setCenterPage. fold s0. cbv zeta.
    generalize (updateHighlightWindow s0). intros u0. now destruct fromClick. }
  rewrite Eu, (updateHighlightWindow_eq s0 d c Hd eq_refl). cbv zeta.
  change (highlightedPages s0) with (highlightedPages s).
  destruct (foldl_evictStep_keepsBoxes (windowStart c) (windowEnd d c)
              (highlightedPages s) s0 Hd0) as [[Hd1 K1] Hclr].
  set (s1 := foldl (evictStep (windowStart c) (windowEnd d c)) s0 (highlightedPages s)) in *.
  destruct (foldl_keepsBoxes windowStep (λ _, True) (windowPages d c) s1) as [Hd2 K2];
    [|exact Hd1|].
  { intros t x Ht. eapply keepsBoxes_weaken; [|now apply windowStep_keepsBoxes].
    intros y ->. now split. }
  set (s2 := foldl windowStep s1 (windowPages d c)) in *.
  destruct (foldl_keepsBoxes prefetchStep (λ _, False)
              (prefetchPages d c (scrollDirection s2)) s2) as [_ K3]; [|exact Hd2|].
  { intros t x Ht. eapply keepsBoxes_weaken; [|now apply prefetchStep_keepsBoxes].
    intros y []. }
  rewrite K3 by tauto. rewrite K2.
  2: { intros [Hw _]. apply elem_of_windowPages in Hw. contradiction. }
  destruct (decide (p ∈ highlightedPages s)) as [Hin|Hnin].
  - now apply Hclr.
  - rewrite K1 by tauto. reflexivity.
Qed.

Lemma setCenter_evicts_witness :
  ∃ s, movedWindow = Some s ∧ currentDoc s = Some doc10
       ∧ boxesOnPage 9 (setCenterPage 2 false s) = [].
Proof.
  assert (F : (λ s, (currentDoc s, bool_decide (9 ∈ highlightedPages s))) <$> movedWindow
              = Some (Some doc10, true)) by (vm_compute; reflexivity).
  pose proof movedWindow_reachable as R.
  destruct movedWindow as [s|]; [|discriminate F].
  injection F as Hd Hh. apply bool_decide_eq_true in Hh.
  exists s. split; [reflexivity|]. split; [exact Hd|].
  assert (Hout : ¬ (windowStart 2 ≤ 9 ≤ windowEnd doc10 2)) by (vm_compute; intros [_ H]; now apply H).
  rewrite (setCenter_evicts s doc10 2 false (R s eq_refl) Hd 9 Hout).
  destruct (decide (9 ∈ highlightedPages s)); [reflexivity | contradiction].
Defined.

(** ** The counts in the text panel and in the result rows *)



Lemma endsWith2_peel a b c x :
  (2 ≤ String.length x)%nat → endsWith2 a b (String c x) = endsWith2 a b x.
Proof. destruct x as [|d [|e r]]; cbn [String.length]; intros H; [lia|lia|reflexivity]. Qed.

Lemma length_append w r : String.length (w +:+ r) = (String.length w + String.length r)%nat.
Proof. induction w as [|c w IH]; [reflexivity|]. rewrite append_cons. cbn. now rewrite IH. Qed.


Lemma endsWith2_last a b w c : c ≠ b → endsWith2 a b (w +:+ String c EmptyString) = false.
Proof.
  intros Hc. induction w as [|x w IH]; [reflexivity|].
  rewrite append_cons. destruct w as [|y w].
  - change ("" +:+ String c "") with (String c ""). cbn.
    destruct (Ascii.eqb_spec c b); [contradiction|]. now rewrite andb_false_r.
  - rewrite endsWith2_peel; [exact IH|]. rewrite length_append. cbn. lia.
Qed.









(** ** The first pages of a document *)


































(** ** An upload that fails *)








